(** * Unipixel sprite generator: the noise field and the shading pipeline

    A shallow embedding of [game/scripts/generateRealisticSprites.mjs].

    Conventions of the embedding.
    - A JavaScript Number holding an integer (loop counters, table entries,
      the generator state of the shuffle) is a [Z]; every product formed by
      the shuffle stays below 2^53, so the integer arithmetic is exact.
    - A JavaScript Number holding a fraction is a [Q]: every finite double
      is a rational, and the operations of the source ([+ - * /],
      [Math.floor], [Math.abs], [Math.min], [Math.max]) are taken exactly.
      The rounding a double operation adds is not part of the model.
    - [Math.sqrt], [Math.sin], [Math.cos], [Math.atan2], [Math.asin],
      [Math.acos] and [Math.pow] return a double, that is some rational:
      they are the fields of the class [Libm], and nothing is assumed about
      the values they return.
    - A result that is not a finite number ([NaN] from an [undefined]
      operand; the quotient by a total amplitude that is zero, which is
      [NaN] or an infinity) is [None], and so is a property read on
      [undefined], where the source throws. The other quotients of the
      source divide by a constant, by [Math.max(1, dist)] or by a positive
      multiple of the size, and are taken in [Q].
    - The rationals have no largest number, doubles have: a product that
      leaves the doubles is an infinity in the source and a number here.
      Statements about the sums of octaves, which double a frequency in
      every round, are made for arguments that keep every product a double
      ([octaves_finite]); the generators call them with such arguments.
    - Where the rounding or an overflow decides what the source returns at
      a single point, the source is evaluated there on the doubles of the
      kernel (module [Binary64]).
    - A [Uint8Array] is a [list Z] of fixed length; a store keeps the value
      modulo 256, a read outside the array is [undefined].
    - A JavaScript object used as a table is a [gmap] keyed by strings, for
      the properties of its literal; [obj[key]] also finds what the object
      inherits from [Object.prototype] ([property_get]). *)

From Stdlib Require Import ZArith QArith Qround Qabs Qminmax Qpower Lia Lqa Ascii.
From Stdlib Require Floats.
From stdpp Require Import base option list gmap strings.

(** ** Typed arrays *)

Module Uint8Array.

(** [new Uint8Array(n)]: [n] zero bytes. *)
Definition make (n : nat) : list Z := replicate n 0%Z.

(** [a[i] = v]: the value is stored modulo 256; a store outside the
    array is dropped. *)
Definition store (a : list Z) (i : nat) (v : Z) : list Z :=
  <[i := (v mod 256)%Z]> a.

(** [a[i]] read where the value is stored back into a typed array: an
    [undefined] read is stored as 0. *)
Definition load (a : list Z) (i : nat) : Z := a !!! i.

(** [a[i]], checked: [None] stands for [undefined]. *)
Definition get (a : list Z) (i : Z) : option Z :=
  if decide (0 <= i)%Z then a !! Z.to_nat i else None.

(** [[a[i], a[j]] = [a[j], a[i]]]: both reads happen first, then [a[i]]
    is written, then [a[j]]. *)
Definition swap (a : list Z) (i j : nat) : list Z :=
  let aj := load a j in
  let ai := load a i in
  store (store a i aj) j ai.

End Uint8Array.

(** ** The noise field: construction *)

(** [(rng * 1664525 + 1013904223) >>> 0] *)
Definition lcg_next (rng : Z) : Z := ((rng * 1664525 + 1013904223) mod 2 ^ 32)%Z.

(** [seed >>> 0] on an integer seed. *)
Definition ToUint32 (seed : Z) : Z := (seed mod 2 ^ 32)%Z.

(** [for (let i = 0; i < 256; i++) p[i] = i] *)
Definition identity_table : list Z :=
  foldl (fun p i => Uint8Array.store p i (Z.of_nat i)) (Uint8Array.make 256) (seq 0 256).

(** [for (let i = 255; i > 0; i--) { rng = ...; j = rng % (i + 1); swap }],
    entered with the loop counter [i]. *)
Fixpoint shuffle (i : nat) (rng : Z) (p : list Z) : list Z :=
  match i with
  | O => p
  | S i' =>
      let rng' := lcg_next rng in
      let j := Z.to_nat (rng' mod (Z.of_nat i + 1))%Z in
      shuffle i' rng' (Uint8Array.swap p i j)
  end.

(** The local table [p] when the shuffle loop is left. *)
Definition shuffled (seed : Z) : list Z :=
  shuffle 255 (ToUint32 seed) identity_table.

(** [this.perm[i] = this.perm[i + 256] = p[i]]: the right-hand store
    happens first. *)
Definition double_step (p : list Z) (perm : list Z) (i : nat) : list Z :=
  let v := Uint8Array.load p i in
  Uint8Array.store (Uint8Array.store perm (i + 256) v) i v.

(** [for (let i = 0; i < 256; i++) this.perm[i] = this.perm[i + 256] = p[i]] *)
Definition double_table (p : list Z) (perm : list Z) : list Z :=
  foldl (double_step p) perm (seq 0 256).

(** [initPermutation(seed)], as the new contents of [this.perm]. *)
Definition initPermutation (perm : list Z) (seed : Z) : list Z :=
  double_table (shuffled seed) perm.

(** The object a [Noise3D] constructor call leaves behind. *)
Record Noise3D := { seed : Z; perm : list Z }.

(** [new Noise3D(seed)] *)
Definition Noise3D_new (s : Z) : Noise3D :=
  {| seed := s; perm := initPermutation (Uint8Array.make 512) s |}.

(** [new Noise3D()]: the default seed. *)
Definition Noise3D_default : Noise3D := Noise3D_new 12345.

Arguments shuffled : simpl never.
Arguments double_table : simpl never.
Arguments initPermutation : simpl never.

(** ** The noise field: sampling *)

Module Math.

(** [Math.floor] of a finite number. *)
Definition floor (x : Q) : Z := Qfloor x.

(** [Math.abs], [Math.min], [Math.max] *)
Definition abs (x : Q) : Q := Qabs x.
Definition min (a b : Q) : Q := Qmin a b.
Definition max (a b : Q) : Q := Qmax a b.

(** The double [Math.PI], 0x1.921fb54442d18p+1. *)
Definition PI : Q := 884279719003555 # 281474976710656.

(** [a / b] where the quotient is a finite number; [None] stands for the
    [NaN] or the infinity a zero divisor gives. *)
Definition div (a b : Q) : option Q :=
  if Qeq_bool b 0 then None else Some (a / b)%Q.

End Math.

(** The functions of [Math] that leave the rationals. Each returns a
    double, hence a rational; which one is left open. *)
Class Libm := {
  Math_sqrt : Q -> Q;
  Math_atan2 : Q -> Q -> Q;
  Math_asin : Q -> Q;
  Math_acos : Q -> Q;
  Math_sin : Q -> Q;
  Math_cos : Q -> Q;
  Math_pow : Q -> Q -> Q
}.

(** [a < b] and [a <= b] on numbers, as conditions. *)
Definition ltQ (a b : Q) : bool := negb (Qle_bool b a).
Definition leQ (a b : Q) : bool := Qle_bool a b.

(** [v] used as a condition: a number is truthy unless it is zero. *)
Definition truthy (v : Z) : bool := negb (v =? 0)%Z.

(** The variables of the loop of [ridged]. *)
Module Ridged.
Record state := { value : Q; amplitude : Q; frequency : Q; weight : Q }.
End Ridged.

Section Noise.

Local Open Scope Q_scope.

Definition fade (t : Q) : Q := t * t * t * (t * (t * 6 - 15) + 10).

Definition lerp (a b t : Q) : Q := a + t * (b - a).

Definition grad (hash : Z) (x y z : Q) : Q :=
  let h := Z.land hash 15 in
  let u := if (h <? 8)%Z then x else y in
  let v := if (h <? 4)%Z then y
           else if ((h =? 12)%Z || (h =? 14)%Z)%bool then x else z in
  (if truthy (Z.land h 1) then - u else u) + (if truthy (Z.land h 2) then - v else v).

(** The lattice cell of a sample: [Math.floor(x) & 255] on each axis. *)
Definition cell (x : Q) : Z := Z.land (Math.floor x) 255.

(** [x -= Math.floor(x)] *)
Definition frac (x : Q) : Q := x - inject_Z (Math.floor x).

(** The positions of [this.perm] that [noise] reads, in the order the
    source reads them. An entry that would be [undefined] counts as 0
    here; [noise_indices_safe] shows there is none. *)
Definition noise_indices (nf : Noise3D) (x y z : Q) : list Z :=
  let rd i := default 0%Z (Uint8Array.get (perm nf) i) in
  let X := cell x in let Y := cell y in let Z := cell z in
  let A := (rd X + Y)%Z in
  let AA := (rd A + Z)%Z in
  let AB := (rd (A + 1)%Z + Z)%Z in
  let B := (rd (X + 1)%Z + Y)%Z in
  let BA := (rd B + Z)%Z in
  let BB := (rd (B + 1)%Z + Z)%Z in
  [X; A; (A + 1)%Z; (X + 1)%Z; B; (B + 1)%Z;
   AA; BA; AB; BB; (AA + 1)%Z; (BA + 1)%Z; (AB + 1)%Z; (BB + 1)%Z].

(** [noise(x, y, z)], with every read of the table checked: [None] when a
    position it reads holds nothing. *)
Definition noise (nf : Noise3D) (x y z : Q) : option Q :=
  let rd := Uint8Array.get (perm nf) in
  let X := cell x in let Y := cell y in let Z := cell z in
  let x := frac x in let y := frac y in let z := frac z in
  let u := fade x in let v := fade y in let w := fade z in
  pX ← rd X; let A := (pX + Y)%Z in
  pA ← rd A; let AA := (pA + Z)%Z in
  pA1 ← rd (A + 1)%Z; let AB := (pA1 + Z)%Z in
  pX1 ← rd (X + 1)%Z; let B := (pX1 + Y)%Z in
  pB ← rd B; let BA := (pB + Z)%Z in
  pB1 ← rd (B + 1)%Z; let BB := (pB1 + Z)%Z in
  hAA ← rd AA; hBA ← rd BA; hAB ← rd AB; hBB ← rd BB;
  hAA1 ← rd (AA + 1)%Z; hBA1 ← rd (BA + 1)%Z;
  hAB1 ← rd (AB + 1)%Z; hBB1 ← rd (BB + 1)%Z;
  Some (lerp
          (lerp
             (lerp (grad hAA x y z) (grad hBA (x - 1) y z) u)
             (lerp (grad hAB x (y - 1) z) (grad hBB (x - 1) (y - 1) z) u)
             v)
          (lerp
             (lerp (grad hAA1 x y (z - 1)) (grad hBA1 (x - 1) y (z - 1)) u)
             (lerp (grad hAB1 x (y - 1) (z - 1)) (grad hBB1 (x - 1) (y - 1) (z - 1)) u)
             v)
          w).

(** The variables of the loops of [fbm] and [turbulence]. *)
Record octave_state := { value : Q; amplitude : Q; frequency : Q; maxValue : Q }.

(** One round of the loop of [fbm]. *)
Definition fbm_step (nf : Noise3D) (x y z persistence : Q) (st : octave_state)
  : option octave_state :=
  n ← noise nf (x * frequency st) (y * frequency st) (z * frequency st);
  Some {| value := value st + n * amplitude st;
          maxValue := maxValue st + amplitude st;
          amplitude := amplitude st * persistence;
          frequency := frequency st * 2 |}.

(** One round of the loop of [turbulence]. *)
Definition turbulence_step (nf : Noise3D) (x y z : Q) (st : octave_state)
  : option octave_state :=
  n ← noise nf (x * frequency st) (y * frequency st) (z * frequency st);
  Some {| value := value st + Math.abs n * amplitude st;
          maxValue := maxValue st + amplitude st;
          amplitude := amplitude st * 0.5;
          frequency := frequency st * 2 |}.

(** One round of the loop of [ridged]. *)
Definition ridged_step (nf : Noise3D) (x y z : Q) (st : Ridged.state)
  : option Ridged.state :=
  n ← noise nf (x * Ridged.frequency st) (y * Ridged.frequency st)
        (z * Ridged.frequency st);
  let signal := n in
  let signal := 1 - Math.abs signal in
  let signal := signal * (signal * Ridged.weight st) in
  Some {| Ridged.weight := Math.min 1 (Math.max 0 (signal * 2));
          Ridged.value := Ridged.value st + signal * Ridged.amplitude st;
          Ridged.amplitude := Ridged.amplitude st * 0.5;
          Ridged.frequency := Ridged.frequency st * 2 |}.

(** [for (let i = 0; i < octaves; i++) body] *)
Fixpoint octaves_loop {State : Type} (body : State -> option State)
         (octaves : nat) (st : State) : option State :=
  match octaves with
  | O => Some st
  | S n => st' ← body st; octaves_loop body n st'
  end.

(** [fbm(x, y, z, octaves, persistence)]; [None] when a sample is not a
    number or the quotient is no finite number: by a total amplitude that is
    zero the source returns [NaN] or an infinity. The products are exact
    here. Where one of them leaves the doubles in the source (a coordinate
    times the frequency, the frequency itself from 1025 octaves on, an
    amplitude under a large persistence) the source returns [NaN] and this
    definition a number: the two agree on the arguments of
    [octaves_finite] with a persistence in [0,1]. *)
Definition fbm (nf : Noise3D) (x y z : Q) (octaves : nat) (persistence : Q) : option Q :=
  st ← octaves_loop (fbm_step nf x y z persistence) octaves
       {| value := 0; amplitude := 1; frequency := 1; maxValue := 0 |};
  q ← Math.div (value st) (maxValue st);
  Some (q * 0.5 + 0.5).

(** [turbulence(x, y, z, octaves)]; exact as [fbm] is, and in agreement
    with the source on the arguments of [octaves_finite]. *)
Definition turbulence (nf : Noise3D) (x y z : Q) (octaves : nat) : option Q :=
  st ← octaves_loop (turbulence_step nf x y z) octaves
       {| value := 0; amplitude := 1; frequency := 1; maxValue := 0 |};
  Math.div (value st) (maxValue st).

(** [ridged(x, y, z, octaves)]; exact as [fbm] is, and in agreement with
    the source on the arguments of [octaves_finite]: beyond them the source
    returns [NaN], which its clamp lets through. *)
Definition ridged (nf : Noise3D) (x y z : Q) (octaves : nat) : option Q :=
  st ← octaves_loop (ridged_step nf x y z) octaves
       {| Ridged.value := 0; Ridged.amplitude := 1; Ridged.frequency := 1;
          Ridged.weight := 1 |};
  Some (Math.min 1 (Math.max 0 (Ridged.value st * 0.5))).

End Noise.

(** ** Configuration *)

Module CONFIG.

Local Open Scope string_scope.

Definition stellarClasses : list string :=
  ["O"; "B"; "A"; "F"; "G"; "K"; "M";
   "BrownDwarf"; "WhiteDwarf"; "NeutronStar"; "Pulsar";
   "RedGiant"; "BlueGiant"; "RedSuperGiant"; "BlueSuperGiant"].

Definition planetTypes : list string :=
  ["terran"; "rocky"; "desert"; "ice"; "frozen"; "tundra";
   "lava"; "volcanic"; "ocean"; "carbon"; "crystal"; "metal";
   "eyeball"; "tidally_locked"; "radioactive"; "super_earth";
   "jungle"; "gas_giant"].

Definition starSizes : gmap string Z :=
  list_to_map
    [("O", 1400); ("B", 1300); ("A", 1100); ("F", 1200); ("G", 1200);
     ("K", 900); ("M", 600); ("BrownDwarf", 600); ("WhiteDwarf", 600);
     ("NeutronStar", 350); ("Pulsar", 400);
     ("RedGiant", 1500); ("BlueGiant", 1500);
     ("RedSuperGiant", 1600); ("BlueSuperGiant", 1500)]%Z.

Definition planetSizes : gmap string Z :=
  list_to_map
    [("terran", 800); ("rocky", 600); ("desert", 700);
     ("ice", 650); ("frozen", 600); ("tundra", 650);
     ("lava", 650); ("volcanic", 700); ("ocean", 850);
     ("carbon", 600); ("crystal", 600); ("metal", 550);
     ("eyeball", 650); ("tidally_locked", 650);
     ("radioactive", 600); ("super_earth", 1100);
     ("jungle", 850); ("gas_giant", 1400)]%Z.

Definition moonSizes_min : Z := 250.
Definition moonSizes_max : Z := 400.
Definition asteroidSizes_min : Z := 180.
Definition asteroidSizes_max : Z := 350.

Definition starFrames : Z := 8.
Definition planetFrames : Z := 24.
Definition moonFrames : Z := 16.
Definition asteroidFrames : Z := 8.

Definition starPixelSize : Z := 2.
Definition planetPixelSize : Z := 2.
Definition moonPixelSize : Z := 2.
Definition asteroidPixelSize : Z := 2.

End CONFIG.

(** ** Colour utilities *)

Module Color.

(** What [hexToRgb] returns. *)
Record rgb := { r : Z; g : Z; b : Z }.

(** The four variables [r], [g], [b], [a] of a block when it is drawn. *)
Record rgba := { R : Q; G : Q; B : Q; A : Q }.

End Color.

(** One character of the class [[a-f\d]], case ignored, as a digit. *)
Definition hex_digit (c : ascii) : option Z :=
  let n := Z.of_N (N_of_ascii c) in
  if ((48 <=? n) && (n <=? 57))%Z then Some (n - 48)%Z
  else if ((97 <=? n) && (n <=? 102))%Z then Some (n - 87)%Z
  else if ((65 <=? n) && (n <=? 70))%Z then Some (n - 55)%Z
  else None.

(** [parseInt(pair, 16)] on two characters of the class. *)
Definition hex_pair (c1 c2 : ascii) : option Z :=
  d1 ← hex_digit c1; d2 ← hex_digit c2; Some (16 * d1 + d2)%Z.

(** The expression [/^#?([a-f\d]{2})([a-f\d]{2})([a-f\d]{2})$/i] run on a
    string: the three groups, parsed. *)
Definition hex_exec (hex : string) : option (Z * Z * Z) :=
  let digits := match hex with
                | String "#"%char rest => rest
                | _ => hex
                end in
  match digits with
  | String c1 (String c2 (String c3 (String c4 (String c5 (String c6 EmptyString))))) =>
      r ← hex_pair c1 c2; g ← hex_pair c3 c4; b ← hex_pair c5 c6; Some (r, g, b)
  | _ => None
  end.

(** [hexToRgb(hex)]; the argument is [None] when the source passes
    [undefined], which matches nothing. *)
Definition hexToRgb (hex : option string) : Color.rgb :=
  match hex ≫= hex_exec with
  | Some (r, g, b) => {| Color.r := r; Color.g := g; Color.b := b |}
  | None => {| Color.r := 128; Color.g := 128; Color.b := 128 |}
  end.

(** [arr[i]] on an array literal; [None] stands for [undefined]. *)
Definition array_get {A} (arr : list A) (i : Z) : option A :=
  if decide (0 <= i)%Z then arr !! Z.to_nat i else None.

(** ** Objects and their prototype *)

(** The names under which [Object.prototype] has a property; every object
    written as a literal inherits them. *)
Definition Object_prototype : list string :=
  ["constructor"; "hasOwnProperty"; "isPrototypeOf"; "propertyIsEnumerable";
   "toLocaleString"; "toString"; "valueOf"; "__proto__";
   "__defineGetter__"; "__defineSetter__"; "__lookupGetter__"; "__lookupSetter__"]%string.

(** What [obj[key]] finds: a property of the literal, or an inherited one,
    which is a function or, under [__proto__], the prototype itself. What is
    inherited is truthy, and is an object with none of the properties the
    generators read off an entry of a table. *)
Inductive property (A : Type) : Type :=
| Own (a : A)
| Inherited.

Arguments Own {A} a.
Arguments Inherited {A}.

(** [obj[key]]; [None] stands for [undefined]. *)
Definition property_get {A} (obj : gmap string A) (key : string) : option (property A) :=
  match obj !! key with
  | Some a => Some (Own a)
  | None => if bool_decide (key ∈ Object_prototype) then Some Inherited else None
  end.

(** [entry.name], for a [name] of the entries of a table: [undefined] on
    what is inherited. *)
Definition entry_field {A B} (name : A -> B) (entry : property A) : option B :=
  match entry with
  | Own a => Some (name a)
  | Inherited => None
  end.

(** The palette keys of an entry, with what they hold: none on what is
    inherited. *)
Definition palette_of (entry : property (gmap string (list string)))
  : gmap string (list string) :=
  match entry with
  | Own colors => colors
  | Inherited => ∅
  end.

(** ** Colour tables *)

Record star_colors := { base : string; bright : string; glow : string }.

Section Tables.

Local Open Scope string_scope.

Definition STAR_COLORS : gmap string star_colors :=
  list_to_map
    [("O", {| base := "#aaccff"; bright := "#ffffff"; glow := "#5588ff" |});
     ("B", {| base := "#bbddff"; bright := "#ffffff"; glow := "#6699ff" |});
     ("A", {| base := "#ddeeff"; bright := "#ffffff"; glow := "#aabbee" |});
     ("F", {| base := "#fffff8"; bright := "#ffffff"; glow := "#eeeeee" |});
     ("G", {| base := "#fff4ea"; bright := "#ffffaa"; glow := "#ffeecc" |});
     ("K", {| base := "#ffcc88"; bright := "#ffee66"; glow := "#ffaa66" |});
     ("M", {| base := "#ff9966"; bright := "#ffcc44"; glow := "#ff7744" |});
     ("BrownDwarf", {| base := "#8b4513"; bright := "#cd853f"; glow := "#6a3a1a" |});
     ("WhiteDwarf", {| base := "#f0f0ff"; bright := "#ffffff"; glow := "#d0d0ff" |});
     ("NeutronStar", {| base := "#00ffff"; bright := "#ffffff"; glow := "#00cccc" |});
     ("Pulsar", {| base := "#ff00ff"; bright := "#ffffff"; glow := "#cc00cc" |});
     ("RedGiant", {| base := "#ff6347"; bright := "#ffaa77"; glow := "#ff4420" |});
     ("BlueGiant", {| base := "#5080f0"; bright := "#c0d0ff"; glow := "#3050c0" |});
     ("RedSuperGiant", {| base := "#ff2000"; bright := "#ff8060"; glow := "#aa0000" |});
     ("BlueSuperGiant", {| base := "#0066ff"; bright := "#88ccff"; glow := "#0030cc" |})].

Definition terran_palette : gmap string (list string) :=
  list_to_map
    [("deep_ocean", ["#001428"; "#002846"; "#003d5c"]);
     ("ocean", ["#0066aa"; "#0088cc"; "#00aaee"]);
     ("shallow", ["#33ccff"; "#66ddff"]);
     ("beach", ["#c8b090"; "#e8d0b0"; "#f8e0d0"]);
     ("grass", ["#2d5016"; "#3d7026"; "#5d9046"; "#7daa66"; "#9dcc88"]);
     ("forest", ["#0a3a0a"; "#1a4a1a"; "#2a6a2a"; "#4a8a4a"]);
     ("mountain", ["#4b3b2b"; "#6b5b4b"; "#8b7b6b"; "#ab9b8b"]);
     ("snow", ["#d8e8f8"; "#f0f8ff"; "#ffffff"]);
     ("cloud", ["#ffffff"; "#f8fcff"]);
     ("cities", ["#ffdd88"; "#ffee99"])].

Definition rocky_palette : gmap string (list string) :=
  list_to_map
    [("dark", ["#1a1512"; "#2a251f"; "#3a352c"]);
     ("surface", ["#3a2d22"; "#4a3d32"; "#6a5d52"; "#8a7d72"]);
     ("crater", ["#0a0502"; "#1a1512"]);
     ("highland", ["#aa9d92"; "#cabaa0"; "#eadac0"]);
     ("dust", ["#b89060"; "#c8a070"])].

Definition desert_palette : gmap string (list string) :=
  list_to_map
    [("sand_dark", ["#b89060"; "#c8a070"]);
     ("sand", ["#d2b48c"; "#e6c8a0"; "#fadcb4"]);
     ("dune_shadow", ["#a07850"; "#b08860"]);
     ("rock", ["#6a5a4a"; "#7a6a5a"; "#8a7a6a"; "#aa9a8a"]);
     ("canyon_deep", ["#503020"; "#604030"]);
     ("canyon", ["#705040"; "#907060"])].

Definition ice_palette : gmap string (list string) :=
  list_to_map
    [("deep", ["#2060a0"; "#3070a0"; "#4080b0"]);
     ("surface", ["#70b0d0"; "#80c8e0"; "#a0e0f0"; "#c0f0ff"]);
     ("crevasse", ["#081018"; "#102030"; "#203040"]);
     ("snow", ["#d0e8ff"; "#e0f0ff"; "#f0f8ff"; "#ffffff"])].

Definition lava_palette : gmap string (list string) :=
  list_to_map
    [("molten_bright", ["#ffff00"; "#ffee00"]);
     ("molten_hot", ["#ffaa00"; "#ff8800"; "#ff6600"]);
     ("molten", ["#ff4400"; "#ff3300"]);
     ("cooling", ["#ff2200"; "#cc0000"; "#aa0000"]);
     ("crust_warm", ["#3a2a2a"; "#4a3a3a"; "#5a4a4a"]);
     ("crust", ["#1a1a1a"; "#2a2a2a"])].

Definition ocean_palette : gmap string (list string) :=
  list_to_map
    [("deep", ["#000814"; "#001428"; "#002846"; "#004878"]);
     ("mid", ["#0066aa"; "#0088cc"; "#0098dc"]);
     ("surface", ["#20c0ff"; "#40d0ff"; "#60e0ff"]);
     ("foam", ["#d0f8ff"; "#e0fcff"; "#ffffff"])].

Definition jungle_palette : gmap string (list string) :=
  list_to_map
    [("canopy_dark", ["#0a4a0a"; "#1a5a1a"]);
     ("canopy", ["#2a7a2a"; "#4a9a4a"; "#6aba6a"]);
     ("understory", ["#0a3a0a"; "#1a4a1a"; "#2a6a2a"]);
     ("flower", ["#ff6688"; "#ff88aa"; "#ffaacc"]);
     ("river", ["#4a7a7a"; "#6a9a9a"])].

Definition gas_giant_palette : gmap string (list string) :=
  list_to_map
    [("band1_dark", ["#6b4914"; "#7b5914"]);
     ("band1", ["#8b6914"; "#9b7934"; "#ab8934"]);
     ("band2_light", ["#e2c594"; "#f2d5a4"; "#fce5b4"]);
     ("band2", ["#c49564"; "#d4a574"]);
     ("storm", ["#cc3322"; "#ee6644"; "#ff8866"]);
     ("cloud", ["#ffffff"; "#f8f8ff"])].

(** The object literal [PLANET_COLORS]. *)
Definition PLANET_COLORS_literal : gmap string (gmap string (list string)) :=
  list_to_map
    [("terran", terran_palette); ("rocky", rocky_palette);
     ("desert", desert_palette); ("ice", ice_palette);
     ("lava", lava_palette); ("ocean", ocean_palette);
     ("jungle", jungle_palette); ("gas_giant", gas_giant_palette)].

Definition moreTypes : list string :=
  ["frozen"; "tundra"; "volcanic"; "carbon"; "crystal"; "metal";
   "eyeball"; "tidally_locked"; "radioactive"; "super_earth"].

(** [if (!PLANET_COLORS[type]) PLANET_COLORS[type] = { ...PLANET_COLORS.terran }];
    without a terran entry the spread is an empty object. *)
Definition copy_terran (tbl : gmap string (gmap string (list string))) (type : string)
  : gmap string (gmap string (list string)) :=
  match tbl !! type with
  | Some _ => tbl
  | None => <[type := default ∅ (tbl !! "terran")]> tbl
  end.

(** [PLANET_COLORS] once the module is loaded. *)
Definition PLANET_COLORS : gmap string (gmap string (list string)) :=
  foldl copy_terran PLANET_COLORS_literal moreTypes.

(** [STAR_COLORS[stellarClass] || STAR_COLORS['G']]: what the class finds,
    an entry or something inherited, is truthy and is kept. *)
Definition star_colors_for (stellarClass : string) : option (property star_colors) :=
  match property_get STAR_COLORS stellarClass with
  | Some c => Some c
  | None => property_get STAR_COLORS "G"
  end.

(** [PLANET_COLORS[type] || PLANET_COLORS.terran] *)
Definition planet_colors_for (type : string)
  : option (property (gmap string (list string))) :=
  match property_get PLANET_COLORS type with
  | Some c => Some c
  | None => property_get PLANET_COLORS "terran"
  end.


End Tables.


(** ** Surface classification *)

Section Classification.

Context `{Libm}.

Local Open Scope Q_scope.
Local Open Scope string_scope.

(** [hexToRgb(colors.key[i])]; [None] when [colors.key] is [undefined],
    where the source throws. *)
Definition palette_color (colors : gmap string (list string)) (key : string) (i : Z)
  : option Color.rgb :=
  arr ← colors !! key; Some (hexToRgb (array_get arr i)).

(** [Math.floor(v * len) % len]; the remainder has the sign of its
    dividend. *)
Definition wrap_index (v : Q) (len : nat) : Z :=
  Z.rem (Math.floor (v * inject_Z (Z.of_nat len))) (Z.of_nat len).

(** [hexToRgb(colors.key[Math.floor(v * colors.key.length) % colors.key.length])] *)
Definition palette_color_at (colors : gmap string (list string)) (key : string) (v : Q)
  : option Color.rgb :=
  arr ← colors !! key; Some (hexToRgb (array_get arr (wrap_index v (length arr)))).

(** The branch [if (isGasGiant) { ... }]. *)
Definition gas_giant_color (colors : gmap string (list string))
           (texU texV latitude : Q) (nf : Noise3D) : option Color.rgb :=
  bandNoise ← fbm nf (texU * 1) (texV * 8) 0 6 0.5;
  let bandPattern := Math_sin (latitude * 15 + bandNoise * 4) in
  t ← turbulence nf (texU * 4) (texV * 2) 0 6;
  let turbulence := t * 0.3 in
  let bandValue := (bandPattern + 1) * 0.5 + turbulence in
  let colorKey :=
    if ltQ bandValue 0.25 then "band1_dark"
    else if ltQ bandValue 0.5 then "band1"
    else if ltQ bandValue 0.75 then "band2"
    else "band2_light" in
  let bandColors :=
    match colors !! colorKey with
    | Some arr => arr
    | None => match colors !! "band1" with
              | Some arr => arr
              | None => ["#aa8844"]
              end
    end in
  let colorIndex := wrap_index bandValue (length bandColors) in
  stormNoise ← fbm nf (texU * 3) (texV * 3) 50 5 0.5;
  if ltQ 0.75 stormNoise && ltQ (Math.abs latitude) 0.5 then
    let stormColors := default ["#cc4422"] (colors !! "storm") in
    Some (hexToRgb (array_get stormColors 0))
  else
    Some (hexToRgb (array_get bandColors colorIndex)).

(** [case 'terran'] *)
Definition terran_color (colors : gmap string (list string)) (elevation moisture : Q)
  : option Color.rgb :=
  if ltQ elevation 0.35 then
    let depth := 0.35 - elevation in
    if ltQ 0.15 depth then palette_color colors "deep_ocean" 0
    else if ltQ 0.08 depth then palette_color colors "ocean" 0
    else palette_color colors "shallow" 0
  else if ltQ elevation 0.37 then palette_color colors "beach" 0
  else if ltQ 0.8 elevation then
    (if ltQ 0.88 elevation then palette_color colors "snow" 0
     else palette_color colors "mountain" 0)
  else if ltQ 0.6 moisture then palette_color_at colors "forest" moisture
  else palette_color_at colors "grass" elevation.

(** [case 'desert'] *)
Definition desert_color (colors : gmap string (list string)) (elevation texU texV : Q)
  : option Color.rgb :=
  if ltQ elevation 0.3 then
    match colors !! "canyon_deep" with
    | Some arr => Some (hexToRgb (array_get arr 0))
    | None => palette_color colors "sand_dark" 0
    end
  else if ltQ 0.75 elevation then palette_color colors "rock" 0
  else
    let duneNoise := ltQ 0 (Math_sin (texU * 30 + texV * 20)) in
    if duneNoise then palette_color colors "sand" 0
    else palette_color colors "sand_dark" 0.

(** [case 'ice'] *)
Definition ice_color (colors : gmap string (list string)) (elevation : Q)
  : option Color.rgb :=
  if ltQ elevation 0.25 then palette_color colors "crevasse" 0
  else if ltQ 0.8 elevation then palette_color colors "snow" 0
  else palette_color_at colors "surface" elevation.

(** [case 'lava'] *)
Definition lava_color (colors : gmap string (list string)) (elevation : Q)
  : option Color.rgb :=
  if ltQ elevation 0.38 then
    let heat := 1 - elevation / 0.38 in
    if ltQ 0.85 heat then
      match colors !! "molten_bright" with
      | Some arr => Some (hexToRgb (array_get arr 0))
      | None => palette_color colors "molten_hot" 0
      end
    else if ltQ 0.6 heat then palette_color colors "molten_hot" 0
    else if ltQ 0.4 heat then palette_color colors "molten" 0
    else palette_color colors "cooling" 0
  else if ltQ 0.6 elevation then palette_color colors "crust_warm" 0
  else palette_color colors "crust" 0.

(** [case 'ocean'] *)
Definition ocean_color (colors : gmap string (list string)) (elevation : Q)
  : option Color.rgb :=
  let depth := 1 - elevation in
  if ltQ 0.7 depth then palette_color colors "deep" 0
  else if ltQ 0.4 depth then palette_color colors "mid" 0
  else if ltQ 0.15 depth then palette_color colors "surface" 0
  else palette_color colors "foam" 0.

(** [case 'jungle'] *)
Definition jungle_color (colors : gmap string (list string)) (elevation moisture : Q)
  : option Color.rgb :=
  if ltQ elevation 0.3 then palette_color colors "river" 0
  else if ltQ 0.6 moisture then palette_color_at colors "canopy" elevation
  else
    match colors !! "understory" with
    | Some arr => Some (hexToRgb (array_get arr 0))
    | None => palette_color colors "canopy_dark" 0
    end.

(** [default]: generic rocky. *)
Definition rocky_color (colors : gmap string (list string)) (elevation : Q)
  : option Color.rgb :=
  let rockColors :=
    match colors !! "surface" with
    | Some arr => arr
    | None => match colors !! "grass" with
              | Some arr => arr
              | None => ["#888888"]
              end
    end in
  Some (hexToRgb (array_get rockColors (wrap_index elevation (length rockColors)))).

(** [getPlanetSurfaceColor(type, elevation, moisture, temperature, colors,
    isGasGiant, texU, texV, latitude, noise)]; [None] where the source
    throws or works on something that is not a number. *)
Definition getPlanetSurfaceColor (type : string) (elevation moisture temperature : Q)
           (colors : gmap string (list string)) (isGasGiant : bool)
           (texU texV latitude : Q) (nf : Noise3D) : option Color.rgb :=
  if isGasGiant then gas_giant_color colors texU texV latitude nf
  else if decide (type = "terran") then terran_color colors elevation moisture
  else if decide (type = "desert") then desert_color colors elevation texU texV
  else if decide (type = "ice") then ice_color colors elevation
  else if decide (type = "lava") then lava_color colors elevation
  else if decide (type = "ocean") then ocean_color colors elevation
  else if decide (type = "jungle") then jungle_color colors elevation moisture
  else rocky_color colors elevation.

End Classification.

(** ** The canvas *)

(** The canvas is the external collaborator of the generators. Its model
    keeps the size and, for every pixel, the opacity between 0 (fully
    transparent) and 1 (fully opaque); the colour channels are left out. *)
Record canvas := { width : Z; height : Z; alpha : Z -> Z -> Q }.

(** [createCanvas(w, h)]: every pixel transparent. *)
Definition createCanvas (w h : Z) : canvas :=
  {| width := w; height := h; alpha := fun _ _ => 0%Q |}.

(** The opacity of the style [rgba(r, g, b, a / 255)]: the last component,
    kept within 0 and 1. *)
Definition style_alpha (a : Q) : Q := Math.min 1 (Math.max 0 (a / 255)).

(** [ctx.fillRect(x, y, w, h)] under a style of opacity [o]: on the pixels
    of the rectangle that lie on the canvas the style is laid over what is
    there. *)
Definition fillRect (cv : canvas) (o : Q) (x y w h : Z) : canvas :=
  {| width := width cv; height := height cv;
     alpha := fun X Y =>
       if bool_decide (x <= X < x + w /\ y <= Y < y + h /\
                       0 <= X < width cv /\ 0 <= Y < height cv)%Z
       then (o + alpha cv X Y * (1 - o))%Q
       else alpha cv X Y |}.

(** [for (let i = 0; i < n; i++) body], the body being able to fail. *)
Fixpoint for_range {State : Type} (body : Z -> State -> option State)
         (i : Z) (n : nat) (s : State) : option State :=
  match n with
  | O => Some s
  | S n' => s' ← body i s; for_range body (i + 1)%Z n' s'
  end.

(** ** Planets, moons, asteroids: geometry and shading *)

Section Shading.

Context `{Libm}.

Local Open Scope Q_scope.
Local Open Scope string_scope.

(** [dx], [dy] and [dist] of the block [(px, py)]. *)
Record offset := { dx : Q; dy : Q; dist : Q }.

Definition block_offset (size pixelSize px py : Z) : offset :=
  let centerX := inject_Z size / 2 in
  let centerY := inject_Z size / 2 in
  let x := inject_Z px * inject_Z pixelSize + inject_Z pixelSize / 2 in
  let y := inject_Z py * inject_Z pixelSize + inject_Z pixelSize / 2 in
  let dx := x - centerX in
  let dy := y - centerY in
  {| dx := dx; dy := dy; dist := Math_sqrt (dx * dx + dy * dy) |}.

(** [Math.ceil(size / pixelSize)] *)
Definition pixel_count (size pixelSize : Z) : Z :=
  Qceiling (inject_Z size / inject_Z pixelSize).

(** [(frame / frames) * Math.PI * 2] *)
Definition rotation_at (frame frames : Z) : Q :=
  (inject_Z frame / inject_Z frames) * Math.PI * 2.

(** [Math.sqrt(Math.max(0, 1 - normalizedDist * normalizedDist))] *)
Definition sphere_z (o : offset) (radius : Q) : Q :=
  let normalizedDist := dist o / radius in
  Math_sqrt (Math.max 0 (1 - normalizedDist * normalizedDist)).

(** [Math.asin(Math.max(-1, Math.min(1, dy / Math.max(1, dist))))] *)
Definition sphere_phi (o : offset) : Q :=
  Math_asin (Math.max (- (1)) (Math.min 1 (dy o / Math.max 1 (dist o)))).

Definition planet_radius (size : Z) : Q := inject_Z size * 0.42.

(** [texU] of a planet block: [theta = Math.atan2(dx, z)],
    [rotatedTheta = theta + rotation], [texU = rotatedTheta / Math.PI]. *)
Definition planet_texU (size frames frame px py : Z) : Q :=
  let o := block_offset size CONFIG.planetPixelSize px py in
  let rotation := rotation_at frame frames in
  let z := sphere_z o (planet_radius size) in
  let theta := Math_atan2 (dx o) z in
  let rotatedTheta := theta + rotation in
  rotatedTheta / Math.PI.

Definition moon_radius (size : Z) : Q := inject_Z size * 0.45.

(** [texU] of a moon block: [theta = Math.atan2(dx, z) + rotation],
    [texU = theta / Math.PI]. *)
Definition moon_texU (size frames frame px py : Z) : Q :=
  let o := block_offset size CONFIG.moonPixelSize px py in
  let rotation := rotation_at frame frames in
  let z := sphere_z o (moon_radius size) in
  let theta := Math_atan2 (dx o) z + rotation in
  theta / Math.PI.

(** [['terran', 'ocean', 'jungle', 'super_earth'].includes(type)] *)
Definition hasAtmosphere (type : string) : bool :=
  bool_decide (type ∈ ["terran"; "ocean"; "jungle"; "super_earth"]).

(** The block when the atmosphere test has run: [r = g = b = a = 0], then
    the glow between [radius] and [radius * 1.15]. *)
Definition planet_glow (type : string) (o : offset) (radius : Q) : Color.rgba :=
  if hasAtmosphere type && ltQ radius (dist o) && ltQ (dist o) (radius * 1.15) then
    let atmosDist := (dist o - radius) / (radius * 0.15) in
    let atmosIntensity := Math_pow (1 - atmosDist) 2 in
    {| Color.R := 100 * atmosIntensity; Color.G := 150 * atmosIntensity;
       Color.B := 255 * atmosIntensity; Color.A := atmosIntensity * 150 |}
  else {| Color.R := 0; Color.G := 0; Color.B := 0; Color.A := 0 |}.

(** The body of [if (dist <= radius) { ... }] in [generatePlanet]. *)
Definition planet_surface (type : string) (colors : gmap string (list string))
           (nf : Noise3D) (size frames frame px py : Z) : option Color.rgba :=
  let o := block_offset size CONFIG.planetPixelSize px py in
  let radius := planet_radius size in
  let rotation := rotation_at frame frames in
  let isGasGiant := bool_decide (type = "gas_giant") in
  let z := sphere_z o radius in
  let phi := sphere_phi o in
  let texU := planet_texU size frames frame px py in
  let texV := phi / Math.PI in
  largeScale ← fbm nf (texU * 2) (texV * 2) 0 8 0.5;
  mediumScale ← fbm nf (texU * 6) (texV * 6) 0 8 0.5;
  smallScale ← fbm nf (texU * 16) (texV * 16) 0 6 0.5;
  microDetail ← fbm nf (texU * 32) (texV * 32) 0 4 0.5;
  let elevation :=
    largeScale * 0.5 + mediumScale * 0.25 + smallScale * 0.15 + microDetail * 0.1 in
  moisture ← fbm nf (texU * 3) (texV * 3) 100 8 0.5;
  let temperature := (1 - Math.abs phi * 0.7) * (1 - elevation * 0.2) in
  surfaceColor ← getPlanetSurfaceColor type elevation moisture temperature colors
                   isGasGiant texU texV phi nf;
  let r := inject_Z (Color.r surfaceColor) in
  let g := inject_Z (Color.g surfaceColor) in
  let b := inject_Z (Color.b surfaceColor) in
  clouded ←
    match (if hasAtmosphere type then colors !! "cloud" else None) with
    | Some cloud =>
        cloudNoise ← fbm nf (texU * 5 + rotation * 0.2) (texV * 5) 200 6 0.5;
        if ltQ 0.6 cloudNoise then
          let cloudDensity := (cloudNoise - 0.6) * 2.5 in
          let cloudColor := hexToRgb (array_get cloud 0) in
          Some (r * (1 - cloudDensity * 0.9) + inject_Z (Color.r cloudColor) * cloudDensity,
                g * (1 - cloudDensity * 0.9) + inject_Z (Color.g cloudColor) * cloudDensity,
                b * (1 - cloudDensity * 0.9) + inject_Z (Color.b cloudColor) * cloudDensity)
        else Some (r, g, b)
    | None => Some (r, g, b)
    end;
  let '(r, g, b) := clouded in
  let dotProduct := dx o / radius * 1 + dy o / radius * 0 + z * 0.3 in
  let lightIntensity := Math.max 0 dotProduct in
  let dayIntensity := 0.15 + lightIntensity * 0.85 in
  let limbDarkening := 0.5 + 0.5 * Math_pow z 0.3 in
  Some {| Color.R := r * (dayIntensity * limbDarkening);
          Color.G := g * (dayIntensity * limbDarkening);
          Color.B := b * (dayIntensity * limbDarkening);
          Color.A := 255 |}.

(** The four variables of the block [(px, py)] of a frame when the source
    reaches [// Draw pixel]. *)
Definition planet_block (type : string) (colors : gmap string (list string))
           (nf : Noise3D) (size frames frame px py : Z) : option Color.rgba :=
  let o := block_offset size CONFIG.planetPixelSize px py in
  let radius := planet_radius size in
  let glow := planet_glow type o radius in
  if leQ (dist o) radius then planet_surface type colors nf size frames frame px py
  else Some glow.

(** [if (a > 0) { ctx.fillStyle = ...; ctx.fillRect(...) }] *)
Definition draw_block (cv : canvas) (c : Color.rgba) (offsetX px py pixelSize : Z) : canvas :=
  if ltQ 0 (Color.A c)
  then fillRect cv (style_alpha (Color.A c))
                (offsetX + px * pixelSize) (py * pixelSize) pixelSize pixelSize
  else cv.

(** The three nested loops of [generatePlanet] on a canvas. *)
Definition planet_frames (type : string) (colors : gmap string (list string))
           (nf : Noise3D) (size frames : Z) (cv : canvas) : option canvas :=
  let pixelSize := CONFIG.planetPixelSize in
  for_range (fun frame cv =>
    let offsetX := (frame * size)%Z in
    let pixelWidth := pixel_count size pixelSize in
    let pixelHeight := pixel_count size pixelSize in
    for_range (fun py cv =>
      for_range (fun px cv =>
        c ← planet_block type colors nf size frames frame px py;
        Some (draw_block cv c offsetX px py pixelSize))
        0%Z (Z.to_nat pixelWidth) cv)
      0%Z (Z.to_nat pixelHeight) cv)
    0%Z (Z.to_nat frames) cv.

(** [generatePlanet(type, index)], with the number [rnd] that
    [Math.random()] draws for the seed: the canvas of the result. [None]
    where the source would work with a size that is no number ([undefined],
    or a function the table inherits) or without a palette, throw, or style
    a block with something that is not a number. *)
Definition generatePlanet (type : string) (index : Z) (rnd : Q) : option canvas :=
  size ← CONFIG.planetSizes !! type;
  let frames := CONFIG.planetFrames in
  colors ← planet_colors_for type;
  let cv := createCanvas (size * frames) size in
  let nf := Noise3D_new (Math.floor (rnd * 1000000) + index * 10000) in
  planet_frames type (palette_of colors) nf size frames cv.

(** *** Asteroids: the outline *)

(** [0.3 + Math.random() * 0.3], for the draw [rnd]. *)
Definition asteroid_irregularity (rnd : Q) : Q := 0.3 + rnd * 0.3.

(** [min + Math.floor(Math.random() * (max - min))], for the draw [rnd]. *)
Definition asteroid_baseSize (rnd : Q) : Z :=
  (CONFIG.asteroidSizes_min
   + Math.floor (rnd * inject_Z (CONFIG.asteroidSizes_max - CONFIG.asteroidSizes_min)))%Z.

(** [Math.atan2(dy, dx) + rotation] *)
Definition asteroid_angle (baseSize frames frame px py : Z) : Q :=
  let o := block_offset baseSize CONFIG.asteroidPixelSize px py in
  Math_atan2 (dy o) (dx o) + rotation_at frame frames.

(** [noise.fbm(Math.cos(angle) * 3, Math.sin(angle) * 3, 0, 5)] *)
Definition asteroid_shapeNoise (nf : Noise3D) (angle : Q) : option Q :=
  fbm nf (Math_cos angle * 3) (Math_sin angle * 3) 0 5 0.5.

(** [(baseSize * 0.4) * (1 + (shapeNoise - 0.5) * irregularity)] *)
Definition asteroid_radius (nf : Noise3D) (baseSize : Z) (irregularity angle : Q)
  : option Q :=
  shapeNoise ← asteroid_shapeNoise nf angle;
  Some ((inject_Z baseSize * 0.4) * (1 + (shapeNoise - 0.5) * irregularity)).

End Shading.

(** ** Invariants and auxiliary notions *)

(** Entries that are bytes stay what they are when stored. *)
Definition bytes (p : list Z) : Prop := Forall (fun v => 0 <= v < 256)%Z p.

(** The table invariant [noise] relies on. *)
Definition wf_perm (t : list Z) : Prop :=
  length t = 512%nat /\ forall (i : nat) v, t !! i = Some v -> (0 <= v < 256)%Z.

(** The eight-corner blend [noise] returns. *)
Definition blend8 (g000 g100 g010 g110 g001 g101 g011 g111 u v w : Q) : Q :=
  lerp (lerp (lerp g000 g100 u) (lerp g010 g110 u) v)
       (lerp (lerp g001 g101 u) (lerp g011 g111 u) v) w.

(** The state in which [fbm] and [turbulence] enter their loop. *)
Definition octaves_start : octave_state :=
  {| value := 0; amplitude := 1; frequency := 1; maxValue := 0 |}%Q.

(** The sum so far is within 3/2 of the total amplitude, in size. *)
Definition summed (st : octave_state) : Prop :=
  (0 <= amplitude st /\ 0 <= maxValue st /\
   - ((3 # 2) * maxValue st) <= value st <= (3 # 2) * maxValue st /\
   1 <= maxValue st + amplitude st)%Q.

(** The same, after one round at least. *)
Definition summed_once (st : octave_state) : Prop := summed st /\ (1 <= maxValue st)%Q.

(** The coordinate [x] stays a double through [octaves] octaves: the
    frequency, doubled in every round, is finite where it is used, that is
    there are at most 1024 octaves, and the last product
    [x * 2 ^ (octaves - 1)], hence every one before it, is below 2^1024 in
    size. Beyond, the source forms an infinity and returns [NaN]. *)
Definition octaves_finite (octaves : nat) (x : Q) : Prop :=
  (octaves <= 1024)%nat /\ (Qabs x * 2 ^ (Z.of_nat octaves - 1) < 2 ^ 1024)%Q.

(** An integer up to 2^53 in size: all of these are doubles. *)
Definition safe_integer (i : Z) : Prop := (Z.abs i <= 2 ^ 53)%Z.

(** Ranges that hold what [generatePlanet] calls [getPlanetSurfaceColor]
    with, as far as it is not negative: its elevation and moisture are sums
    of [fbm], its [texU] and [texV] are angles over [Math.PI], its latitude
    is an angle. A negative elevation is left out: it can pick the grey
    fallback. Within these ranges every product the function forms is a
    double. *)
Definition planet_sample (elevation moisture texU texV latitude : Q) : Prop :=
  (0 <= elevation <= 5 # 4 /\ moisture <= 5 # 4 /\
   Qabs texU <= 3 /\ Qabs texV <= 1 /\ Qabs latitude <= 2)%Q.

(** A stand-in for the functions of [Math] that leave the rationals, to
    run the model on: each returns 0. It is used where a statement is
    tried on a concrete input and stands for no implementation. *)
Definition libm_zero : Libm :=
  {| Math_sqrt := fun _ => 0%Q; Math_atan2 := fun _ _ => 0%Q;
     Math_asin := fun _ => 0%Q; Math_acos := fun _ => 0%Q;
     Math_sin := fun _ => 0%Q; Math_cos := fun _ => 0%Q;
     Math_pow := fun _ _ => 0%Q |}.

(** *** The terran ladder, in the words of the specification *)

Inductive terran_band :=
| DeepOcean | Ocean | Shallow | Beach | Grass | Forest | Mountain | Snow.

(** The palette entry of a band. *)
Definition band_key (band : terran_band) : string :=
  match band with
  | DeepOcean => "deep_ocean" | Ocean => "ocean" | Shallow => "shallow"
  | Beach => "beach" | Grass => "grass" | Forest => "forest"
  | Mountain => "mountain" | Snow => "snow"
  end.

(** Below 0.35: water, deep ocean, ocean or shallow by the depth below
    0.35. Below 0.37: beach. Above 0.8: mountain, snow when above 0.88.
    Otherwise forest when the moisture exceeds 0.6, else grass. *)
Inductive terran_spec (elevation moisture : Q) : terran_band -> Prop :=
| spec_deep_ocean :
    (elevation < 0.35)%Q -> (0.15 < 0.35 - elevation)%Q ->
    terran_spec elevation moisture DeepOcean
| spec_ocean :
    (elevation < 0.35)%Q -> (0.35 - elevation <= 0.15)%Q -> (0.08 < 0.35 - elevation)%Q ->
    terran_spec elevation moisture Ocean
| spec_shallow :
    (elevation < 0.35)%Q -> (0.35 - elevation <= 0.08)%Q ->
    terran_spec elevation moisture Shallow
| spec_beach :
    (0.35 <= elevation)%Q -> (elevation < 0.37)%Q ->
    terran_spec elevation moisture Beach
| spec_snow :
    (0.37 <= elevation)%Q -> (0.88 < elevation)%Q ->
    terran_spec elevation moisture Snow
| spec_mountain :
    (0.37 <= elevation)%Q -> (0.8 < elevation)%Q -> (elevation <= 0.88)%Q ->
    terran_spec elevation moisture Mountain
| spec_forest :
    (0.37 <= elevation)%Q -> (elevation <= 0.8)%Q -> (0.6 < moisture)%Q ->
    terran_spec elevation moisture Forest
| spec_grass :
    (0.37 <= elevation)%Q -> (elevation <= 0.8)%Q -> (moisture <= 0.6)%Q ->
    terran_spec elevation moisture Grass.

(** The colour a band takes from a palette: the first entry, except for
    forest and grass, which pick an entry by moisture and by elevation. *)
Definition band_color (colors : gmap string (list string)) (band : terran_band)
           (elevation moisture : Q) : option Color.rgb :=
  match band with
  | Forest => palette_color_at colors (band_key band) moisture
  | Grass => palette_color_at colors (band_key band) elevation
  | _ => palette_color colors (band_key band) 0
  end.

(** *** Painting blocks on a canvas *)

Section Painting.

(** What a block is styled with, by frame and block coordinates. *)
Variable blk : Z -> Z -> Z -> option Color.rgba.
Variables size pixelSize : Z.

(** The pixel [(X, Y)] lies in the square of block [(px, py)] of a frame. *)
Definition in_block (frame px py X Y : Z) : Prop :=
  (frame * size + px * pixelSize <= X < frame * size + px * pixelSize + pixelSize /\
   py * pixelSize <= Y < py * pixelSize + pixelSize)%Z.

(** The canvas when the blocks in [D] have been gone through: its size is
    kept; the pixels of a block styled with [a = 255] are fully opaque; and
    a pixel that is not fully transparent lies in a block that was drawn. *)
Definition painted (D : Z -> Z -> Z -> Prop) (w h : Z) (cv : canvas) : Prop :=
  width cv = w /\ height cv = h /\
  (forall frame px py c X Y,
      D frame px py -> blk frame px py = Some c -> (Color.A c == 255)%Q ->
      in_block frame px py X Y -> (0 <= X < w)%Z -> (0 <= Y < h)%Z ->
      (alpha cv X Y == 1)%Q) /\
  (forall X Y,
      ~ (alpha cv X Y == 0)%Q ->
      exists frame px py c,
        D frame px py /\ blk frame px py = Some c /\ (0 < Color.A c)%Q /\
        in_block frame px py X Y).

(** The three nested loops the generators share, over the blocks of [blk]. *)
Definition paint_frames (pixelWidth pixelHeight frames : Z) (cv : canvas) : option canvas :=
  for_range (fun frame cv =>
    for_range (fun py cv =>
      for_range (fun px cv =>
        c ← blk frame px py;
        Some (draw_block cv c (frame * size) px py pixelSize))
        0%Z (Z.to_nat pixelWidth) cv)
      0%Z (Z.to_nat pixelHeight) cv)
    0%Z (Z.to_nat frames) cv.

(** The blocks of a whole atlas. *)
Definition all_blocks (pixelWidth pixelHeight frames : Z) (frame px py : Z) : Prop :=
  (0 <= frame < frames /\ 0 <= px < pixelWidth /\ 0 <= py < pixelHeight)%Z.

End Painting.

(** ** Further notions on the noise field *)

(** The total amplitude of [octaves] octaves: the sum of
    [persistence ^ i] for [i] below [octaves]. *)
Fixpoint total_amplitude (persistence : Q) (octaves : nat) : Q :=
  match octaves with
  | O => 0
  | S n => 1 + persistence * total_amplitude persistence n
  end%Q.

(** An integer, as a number. *)
Definition integral (x : Q) : Prop := exists i : Z, (x == inject_Z i)%Q.

(** ** Colour blending *)

(** [Math.round]: the nearest integer, a half going up. *)
Definition Math_round (x : Q) : Z := Qfloor (x + (1 # 2)).

(** [lerpColor(c1, c2, t)] *)
Definition lerpColor (c1 c2 : option string) (t : Q) : Color.rgb :=
  let a := hexToRgb c1 in
  let b := hexToRgb c2 in
  {| Color.r := Math_round (inject_Z (Color.r a)
                            + (inject_Z (Color.r b) - inject_Z (Color.r a)) * t);
     Color.g := Math_round (inject_Z (Color.g a)
                            + (inject_Z (Color.g b) - inject_Z (Color.g a)) * t);
     Color.b := Math_round (inject_Z (Color.b a)
                            + (inject_Z (Color.b b) - inject_Z (Color.b a)) * t) |}.

(** The grey [hexToRgb] falls back to. *)
Definition grey : Color.rgb := {| Color.r := 128; Color.g := 128; Color.b := 128 |}.

(** A colour whose three channels are bytes. *)
Definition byte_color (c : Color.rgb) : Prop :=
  (0 <= Color.r c < 256 /\ 0 <= Color.g c < 256 /\ 0 <= Color.b c < 256)%Z.

(** The lower-case digit of a number below 16, and the six digits of a
    colour: the notation the colour tables use. *)
Definition hex_char (d : Z) : ascii :=
  ascii_of_N (Z.to_N (if (d <? 10)%Z then d + 48 else d + 87)).

Definition hex_notation (c : Color.rgb) : string :=
  String (hex_char (Color.r c / 16)) (String (hex_char (Color.r c mod 16))
  (String (hex_char (Color.g c / 16)) (String (hex_char (Color.g c mod 16))
  (String (hex_char (Color.b c / 16)) (String (hex_char (Color.b c mod 16))
   EmptyString))))).

(** ** Colours that come from the palette *)

(** The result is the parse of an entry of the palette, under some key. *)
Definition from_palette (colors : gmap string (list string)) (res : option Color.rgb)
  : Prop :=
  exists key arr hex,
    colors !! key = Some arr /\ hex ∈ arr /\ res = Some (hexToRgb (Some hex)).
(** ** Stars, moons and asteroids: the sprites *)

Section Sprites.

Context `{Libm}.

Local Open Scope Q_scope.
Local Open Scope string_scope.

(** *** Stars *)

Definition star_radius (size : Z) : Q := inject_Z size * 0.38.

(** The block when the corona test has run: [r = g = b = a = 0], then the
    glow between [radius] and [radius * 2.5]. *)
Definition star_glow (brightColor glowColor : Color.rgb) (nf : Noise3D)
           (o : offset) (radius time : Q) : option Color.rgba :=
  if ltQ radius (dist o) && ltQ (dist o) (radius * 2.5) then
    let glowDist := (dist o - radius) / (radius * 1.5) in
    let glowIntensity := Math_pow (1 - Math.min 1 glowDist) 3 in
    coronaTurb ← turbulence nf (dx o * 0.015) (dy o * 0.015) (time * 8) 6;
    let glowIntensity := glowIntensity * (0.7 + coronaTurb * 0.6) in
    let channel := fun (glow bright : Z) =>
      inject_Z glow + (inject_Z bright - inject_Z glow) * 0.5 in
    Some {| Color.R := channel (Color.r glowColor) (Color.r brightColor);
            Color.G := channel (Color.g glowColor) (Color.g brightColor);
            Color.B := channel (Color.b glowColor) (Color.b brightColor);
            Color.A := glowIntensity * 200 |}
  else Some {| Color.R := 0; Color.G := 0; Color.B := 0; Color.A := 0 |}.

(** The body of [if (dist <= radius) { ... }] in [generateStar]. *)
Definition star_surface (baseColor brightColor : Color.rgb) (nf : Noise3D)
           (o : offset) (radius time : Q) : option Color.rgba :=
  let normalizedDist := dist o / radius in
  let z := Math_sqrt (Math.max 0 (1 - normalizedDist * normalizedDist)) in
  let theta := Math_atan2 (dy o) (dx o) in
  let phi := Math_acos (Math.max (- (1)) (Math.min 1 (dy o / Math.max 1 (dist o)))) in
  let rotatedTheta := theta + time * Math.PI * 2 in
  let texU := rotatedTheta / Math.PI in
  let texV := phi / Math.PI in
  bigCells ← fbm nf (texU * 2) (texV * 2) (time * 4) 8 0.5;
  medCells ← fbm nf (texU * 6) (texV * 6) (time * 6) 6 0.5;
  fineCells ← fbm nf (texU * 12) (texV * 12) (time * 8) 4 0.5;
  turb ← turbulence nf (texU * 8) (texV * 8) (time * 10) 6;
  holes ← fbm nf (texU * 3) (texV * 3) (time * 2) 5 0.5;
  let isDarkSpot := ltQ holes 0.25 in
  cme ← fbm nf (texU * 4 + time * 20) (texV * 4) (time * 15) 4 0.5;
  let isCME := ltQ 0.8 cme in
  let brightness := 0.4 + bigCells * 0.25 + medCells * 0.2 + fineCells * 0.15 in
  let brightness := if isDarkSpot then brightness * 0.3 else brightness in
  let brightness :=
    if isCME then Math.min 1.5 (brightness + (cme - 0.8) * 5) else brightness in
  let dotProduct :=
    Math.max 0 (dx o / radius * 0.3 + dy o / radius * (- 0.5) + z * 0.8) in
  let diffuse := 0.6 + dotProduct * 0.4 in
  let limbDarkening := 0.6 + 0.4 * Math_pow z 0.3 in
  let brightness := brightness * (diffuse * limbDarkening) in
  let coreBoost := Math_pow (Math.max 0 (1 - normalizedDist * 1.2)) 2 * 0.6 in
  let mixFactor := Math.min 1 brightness in
  let channel := fun (base bright : Z) =>
    inject_Z base * (1 - mixFactor) + inject_Z bright * mixFactor
    + inject_Z bright * coreBoost in
  Some {| Color.R := Math.min 255 (channel (Color.r baseColor) (Color.r brightColor) * 1.3);
          Color.G := Math.min 255 (channel (Color.g baseColor) (Color.g brightColor) * 1.3);
          Color.B := Math.min 255 (channel (Color.b baseColor) (Color.b brightColor) * 1.3);
          Color.A := 255 |}.

(** The four variables of the block [(px, py)] of a frame of a star when
    the source reaches [// Draw pixel]. *)
Definition star_block (colors : property star_colors) (nf : Noise3D)
           (size frames frame px py : Z) : option Color.rgba :=
  let baseColor := hexToRgb (entry_field base colors) in
  let brightColor := hexToRgb (entry_field bright colors) in
  let glowColor := hexToRgb (entry_field glow colors) in
  let o := block_offset size CONFIG.starPixelSize px py in
  let radius := star_radius size in
  let time := inject_Z frame / inject_Z frames in
  glow ← star_glow brightColor glowColor nf o radius time;
  if leQ (dist o) radius then star_surface baseColor brightColor nf o radius time
  else Some glow.

(** The three nested loops of [generateStar] on a canvas. *)
Definition star_frames (colors : property star_colors) (nf : Noise3D) (size frames : Z)
           (cv : canvas) : option canvas :=
  let pixelSize := CONFIG.starPixelSize in
  for_range (fun frame cv =>
    let offsetX := (frame * size)%Z in
    let pixelWidth := pixel_count size pixelSize in
    let pixelHeight := pixel_count size pixelSize in
    for_range (fun py cv =>
      for_range (fun px cv =>
        c ← star_block colors nf size frames frame px py;
        Some (draw_block cv c offsetX px py pixelSize))
        0%Z (Z.to_nat pixelWidth) cv)
      0%Z (Z.to_nat pixelHeight) cv)
    0%Z (Z.to_nat frames) cv.

(** [generateStar(stellarClass)], with the number [rnd] that
    [Math.random()] draws for the seed: the canvas of the result. [None]
    where the source would work with a size that is no number ([undefined],
    or a function the table inherits) or without colours. *)
Definition generateStar (stellarClass : string) (rnd : Q) : option canvas :=
  size ← CONFIG.starSizes !! stellarClass;
  let frames := CONFIG.starFrames in
  colors ← star_colors_for stellarClass;
  let cv := createCanvas (size * frames) size in
  let nf := Noise3D_new (Math.floor (rnd * 1000000)) in
  star_frames colors nf size frames cv.

(** *** Moons *)

(** [min + Math.floor(Math.random() * (max - min))], for the draw [rnd]. *)
Definition moon_size (rnd : Q) : Z :=
  (CONFIG.moonSizes_min
   + Math.floor (rnd * inject_Z (CONFIG.moonSizes_max - CONFIG.moonSizes_min)))%Z.

(** [isIcy ? [...] : [...]], with [isIcy = Math.random() > 0.5]. *)
Definition moon_baseColors (rnd : Q) : list string :=
  if ltQ 0.5 rnd then ["#a0c0e0"; "#b0d0f0"; "#c0e0ff"; "#d0f0ff"]
  else ["#4a3d32"; "#6a5d52"; "#8a7d72"; "#aa9d92"].

(** [ctx.fillStyle = `rgb(...)`; ctx.fillRect(...)]: a style without an
    alpha component is opaque. *)
Definition draw_opaque (cv : canvas) (offsetX px py pixelSize : Z) : canvas :=
  fillRect cv 1 (offsetX + px * pixelSize) (py * pixelSize) pixelSize pixelSize.

(** The block [(px, py)] of a frame of a moon: the three numbers of the
    style it is filled with, or nothing where the block is skipped. *)
Definition moon_block (baseColors : list string) (nf : Noise3D)
           (size frames frame px py : Z) : option (option Color.rgb) :=
  let o := block_offset size CONFIG.moonPixelSize px py in
  let radius := moon_radius size in
  if leQ (dist o) radius then
    let z := sphere_z o radius in
    let phi := sphere_phi o in
    let texU := moon_texU size frames frame px py in
    let texV := phi / Math.PI in
    elevation ← fbm nf (texU * 4) (texV * 4) 0 8 0.5;
    craters ← ridged nf (texU * 8) (texV * 8) 0 6;
    detail ← fbm nf (texU * 16) (texV * 16) 0 4 0.5;
    let combined := elevation * 0.6 + craters * 0.3 + detail * 0.1 in
    let colorIndex := wrap_index combined (length baseColors) in
    let baseColor := hexToRgb (array_get baseColors colorIndex) in
    let dotProduct := Math.max 0 (dx o / radius * 1 + dy o / radius * 0 + z * 0.5) in
    let lightIntensity := 0.3 + dotProduct * 0.7 in
    let limbDarkening := 0.4 + 0.6 * Math_pow z 0.4 in
    let finalIntensity := lightIntensity * limbDarkening in
    Some (Some {| Color.r := Math.floor (inject_Z (Color.r baseColor) * finalIntensity);
                  Color.g := Math.floor (inject_Z (Color.g baseColor) * finalIntensity);
                  Color.b := Math.floor (inject_Z (Color.b baseColor) * finalIntensity) |})
  else Some None.

(** The three nested loops of [generateMoon] on a canvas. *)
Definition moon_frames (baseColors : list string) (nf : Noise3D) (size frames : Z)
           (cv : canvas) : option canvas :=
  let pixelSize := CONFIG.moonPixelSize in
  for_range (fun frame cv =>
    let offsetX := (frame * size)%Z in
    let pixelWidth := pixel_count size pixelSize in
    let pixelHeight := pixel_count size pixelSize in
    for_range (fun py cv =>
      for_range (fun px cv =>
        c ← moon_block baseColors nf size frames frame px py;
        Some (match c with
              | Some _ => draw_opaque cv offsetX px py pixelSize
              | None => cv
              end))
        0%Z (Z.to_nat pixelWidth) cv)
      0%Z (Z.to_nat pixelHeight) cv)
    0%Z (Z.to_nat frames) cv.

(** [generateMoon(index)], with the three numbers [Math.random()] draws, in
    the order of the draws: for the size, for the seed, for [isIcy]. *)
Definition generateMoon (index : Z) (rnd_size rnd_seed rnd_icy : Q) : option canvas :=
  let size := moon_size rnd_size in
  let frames := CONFIG.moonFrames in
  let cv := createCanvas (size * frames) size in
  let nf := Noise3D_new (Math.floor (rnd_seed * 1000000) + index * 20000) in
  moon_frames (moon_baseColors rnd_icy) nf size frames cv.

(** *** Asteroids *)

Definition asteroid_colors : list string := ["#3a2d22"; "#4a3d32"; "#5a4d42"; "#6a5d52"].

(** The block [(px, py)] of a frame of an asteroid: the three numbers of
    the style it is filled with, or nothing where the block is skipped. *)
Definition asteroid_block (nf : Noise3D) (irregularity : Q)
           (baseSize frames frame px py : Z) : option (option Color.rgb) :=
  let colors := asteroid_colors in
  let o := block_offset baseSize CONFIG.asteroidPixelSize px py in
  let rotation := rotation_at frame frames in
  let angle := asteroid_angle baseSize frames frame px py in
  radius ← asteroid_radius nf baseSize irregularity angle;
  if leQ (dist o) radius then
    surface ← fbm nf (dx o * 0.1) (dy o * 0.1) rotation 6 0.5;
    craters ← ridged nf (dx o * 0.2) (dy o * 0.2) 0 4;
    let combined := surface * 0.7 + craters * 0.3 in
    let colorIndex := wrap_index combined (length colors) in
    let baseColor := hexToRgb (array_get colors colorIndex) in
    let lightAngle := Math_atan2 (dy o) (dx o) - Math.PI * 0.25 in
    let lightIntensity := 0.4 + Math_cos lightAngle * 0.6 in
    Some (Some {| Color.r := Math.floor (inject_Z (Color.r baseColor) * lightIntensity);
                  Color.g := Math.floor (inject_Z (Color.g baseColor) * lightIntensity);
                  Color.b := Math.floor (inject_Z (Color.b baseColor) * lightIntensity) |})
  else Some None.

(** The three nested loops of [generateAsteroid] on a canvas. *)
Definition asteroid_frames (nf : Noise3D) (irregularity : Q) (baseSize frames : Z)
           (cv : canvas) : option canvas :=
  let pixelSize := CONFIG.asteroidPixelSize in
  for_range (fun frame cv =>
    let offsetX := (frame * baseSize)%Z in
    let pixelWidth := pixel_count baseSize pixelSize in
    let pixelHeight := pixel_count baseSize pixelSize in
    for_range (fun py cv =>
      for_range (fun px cv =>
        c ← asteroid_block nf irregularity baseSize frames frame px py;
        Some (match c with
              | Some _ => draw_opaque cv offsetX px py pixelSize
              | None => cv
              end))
        0%Z (Z.to_nat pixelWidth) cv)
      0%Z (Z.to_nat pixelHeight) cv)
    0%Z (Z.to_nat frames) cv.

(** [generateAsteroid(index)], with the three numbers [Math.random()]
    draws, in the order of the draws: for the size, for the seed, for the
    irregularity. *)
Definition generateAsteroid (index : Z) (rnd_size rnd_seed rnd_shape : Q)
  : option canvas :=
  let baseSize := asteroid_baseSize rnd_size in
  let frames := CONFIG.asteroidFrames in
  let cv := createCanvas (baseSize * frames) baseSize in
  let nf := Noise3D_new (Math.floor (rnd_seed * 1000000) + index * 30000) in
  let irregularity := asteroid_irregularity rnd_shape in
  asteroid_frames nf irregularity baseSize frames cv.

End Sprites.

(** *** Auxiliary notions for the sprites *)

(** Every pixel is fully transparent or fully opaque. *)
Definition two_level (cv : canvas) : Prop :=
  forall X Y, (alpha cv X Y == 0 \/ alpha cv X Y == 1)%Q.

(** A block that is filled with an opaque style or skipped, as the four
    variables of a block that goes through [// Draw pixel]. *)
Definition as_rgba (c : option Color.rgb) : Color.rgba :=
  match c with
  | Some c => {| Color.R := inject_Z (Color.r c); Color.G := inject_Z (Color.g c);
                 Color.B := inject_Z (Color.b c); Color.A := 255 |}
  | None => {| Color.R := 0; Color.G := 0; Color.B := 0; Color.A := 0 |}
  end.

(** ** The noise class in binary64

    The definitions above take the operations of the source exactly. The
    same functions are given here on the doubles of the kernel, with the
    rounding, the infinities and the [NaN] of the source, to evaluate the
    source at single points where a rounding or an overflow decides; no
    general statement is made about them. *)

Module Binary64.

Import Stdlib.Floats.Floats.

Local Open Scope float_scope.

(** An integer below 2^53 in size, as a double. *)
Definition of_Z (n : Z) : float :=
  if (n <? 0)%Z then - of_uint63 (Uint63.of_Z (- n)) else of_uint63 (Uint63.of_Z n).

(** [Math.floor]: a double from 2^52 on has no fraction; a zero, an
    infinity and [NaN] are returned as they are. *)
Definition floor (x : float) : float :=
  match Prim2SF x with
  | S754_finite negative m e =>
      if (0 <=? e)%Z then x
      else
        let q := Z.shiftr (Z.pos m) (- e) in
        let whole := (Z.shiftl q (- e) =? Z.pos m)%Z in
        if negative then (if whole then - of_Z q else of_Z (- q - 1)) else of_Z q
  | _ => x
  end.

(** [v & 255] for a double [v] without fraction: [ToInt32] keeps the low
    bits of the integer, and takes an infinity and [NaN] to 0. *)
Definition low_byte (v : float) : Z :=
  match Prim2SF v with
  | S754_finite negative m e =>
      let n := if (0 <=? e)%Z then Z.shiftl (Z.pos m) e else Z.shiftr (Z.pos m) (- e) in
      Z.land (if negative then - n else n) 255
  | _ => 0%Z
  end.

(** [Math.max] and [Math.min]: [NaN] when an argument is; of two zeros
    the positive one is the larger. *)
Definition max (a b : float) : float :=
  if is_nan a || is_nan b then nan
  else if a <? b then b
  else if b <? a then a
  else if get_sign a then b else a.

Definition min (a b : float) : float :=
  if is_nan a || is_nan b then nan
  else if a <? b then a
  else if b <? a then b
  else if get_sign a then a else b.

Definition PI : float := 0x1.921fb54442d18p+1.

Definition fade (t : float) : float := t * t * t * (t * (t * 6 - 15) + 10).

Definition lerp (a b t : float) : float := a + t * (b - a).

Definition grad (hash : Z) (x y z : float) : float :=
  let h := Z.land hash 15 in
  let u := if (h <? 8)%Z then x else y in
  let v := if (h <? 4)%Z then y
           else if ((h =? 12) || (h =? 14))%Z then x else z in
  (if truthy (Z.land h 1) then - u else u) + (if truthy (Z.land h 2) then - v else v).

Definition noise (nf : Noise3D) (x y z : float) : option float :=
  let X := low_byte (floor x) in
  let Y := low_byte (floor y) in
  let Z := low_byte (floor z) in
  let x := x - floor x in
  let y := y - floor y in
  let z := z - floor z in
  let u := fade x in
  let v := fade y in
  let w := fade z in
  pX ← Uint8Array.get (perm nf) X;
  let A := (pX + Y)%Z in
  pA ← Uint8Array.get (perm nf) A;
  let AA := (pA + Z)%Z in
  pA1 ← Uint8Array.get (perm nf) (A + 1);
  let AB := (pA1 + Z)%Z in
  pX1 ← Uint8Array.get (perm nf) (X + 1);
  let B := (pX1 + Y)%Z in
  pB ← Uint8Array.get (perm nf) B;
  let BA := (pB + Z)%Z in
  pB1 ← Uint8Array.get (perm nf) (B + 1);
  let BB := (pB1 + Z)%Z in
  hAA ← Uint8Array.get (perm nf) AA;
  hBA ← Uint8Array.get (perm nf) BA;
  hAB ← Uint8Array.get (perm nf) AB;
  hBB ← Uint8Array.get (perm nf) BB;
  hAA1 ← Uint8Array.get (perm nf) (AA + 1);
  hBA1 ← Uint8Array.get (perm nf) (BA + 1);
  hAB1 ← Uint8Array.get (perm nf) (AB + 1);
  hBB1 ← Uint8Array.get (perm nf) (BB + 1);
  Some (lerp
          (lerp (lerp (grad hAA x y z) (grad hBA (x - 1) y z) u)
                (lerp (grad hAB x (y - 1) z) (grad hBB (x - 1) (y - 1) z) u)
                v)
          (lerp (lerp (grad hAA1 x y (z - 1)) (grad hBA1 (x - 1) y (z - 1)) u)
                (lerp (grad hAB1 x (y - 1) (z - 1)) (grad hBB1 (x - 1) (y - 1) (z - 1)) u)
                v)
          w).

(** The variables of the loop of [ridged]. *)
Module Ridged.
Record state := { value : float; amplitude : float; frequency : float; weight : float }.
End Ridged.

(** The variables of the loops of [fbm] and [turbulence]. *)
Record octave_state := { value : float; amplitude : float; frequency : float; maxValue : float }.

Definition fbm_step (nf : Noise3D) (x y z persistence : float) (st : octave_state)
  : option octave_state :=
  n ← noise nf (x * frequency st) (y * frequency st) (z * frequency st);
  Some {| value := value st + n * amplitude st;
          maxValue := maxValue st + amplitude st;
          amplitude := amplitude st * persistence;
          frequency := frequency st * 2 |}.

Definition turbulence_step (nf : Noise3D) (x y z : float) (st : octave_state)
  : option octave_state :=
  n ← noise nf (x * frequency st) (y * frequency st) (z * frequency st);
  Some {| value := value st + abs n * amplitude st;
          maxValue := maxValue st + amplitude st;
          amplitude := amplitude st * 0.5;
          frequency := frequency st * 2 |}.

Definition ridged_step (nf : Noise3D) (x y z : float) (st : Ridged.state)
  : option Ridged.state :=
  n ← noise nf (x * Ridged.frequency st) (y * Ridged.frequency st)
        (z * Ridged.frequency st);
  let signal := n in
  let signal := 1 - abs signal in
  let signal := signal * (signal * Ridged.weight st) in
  Some {| Ridged.weight := min 1 (max 0 (signal * 2));
          Ridged.value := Ridged.value st + signal * Ridged.amplitude st;
          Ridged.amplitude := Ridged.amplitude st * 0.5;
          Ridged.frequency := Ridged.frequency st * 2 |}.

Definition fbm (nf : Noise3D) (x y z : float) (octaves : nat) (persistence : float)
  : option float :=
  st ← octaves_loop (fbm_step nf x y z persistence) octaves
       {| value := 0; amplitude := 1; frequency := 1; maxValue := 0 |};
  Some (value st / maxValue st * 0.5 + 0.5).

Definition turbulence (nf : Noise3D) (x y z : float) (octaves : nat) : option float :=
  st ← octaves_loop (turbulence_step nf x y z) octaves
       {| value := 0; amplitude := 1; frequency := 1; maxValue := 0 |};
  Some (value st / maxValue st).

Definition ridged (nf : Noise3D) (x y z : float) (octaves : nat) : option float :=
  st ← octaves_loop (ridged_step nf x y z) octaves
       {| Ridged.value := 0; Ridged.amplitude := 1; Ridged.frequency := 1;
          Ridged.weight := 1 |};
  Some (min 1 (max 0 (Ridged.value st * 0.5))).

(** [texU] of a planet block whose angle is [theta], at a rotation. *)
Definition texU (theta rotation : float) : float :=
  let rotatedTheta := theta + rotation in
  rotatedTheta / PI.

(** [(frame / frames) * Math.PI * 2] *)
Definition rotation_at (frame frames : Z) : float := of_Z frame / of_Z frames * PI * 2.

End Binary64.

(** ** Facts on the construction *)

Section Permutation_table.

Lemma make_length n : length (Uint8Array.make n) = n.
Proof. apply length_replicate. Qed.

Lemma identity_table_eq : identity_table = Z.of_nat <$> seq 0 256.
Proof. vm_compute. reflexivity. Qed.


Lemma bytes_lookup p i v : bytes p -> p !! i = Some v -> (0 <= v < 256)%Z.
Proof. intros Hb Hv. exact (proj1 (Forall_lookup _ _) Hb i v Hv). Qed.

Lemma load_lookup (p : list Z) i : i < length p -> p !! i = Some (Uint8Array.load p i).
Proof. intros Hi. unfold Uint8Array.load. by apply list_lookup_lookup_total_lt. Qed.

Lemma swap_length p i j : length (Uint8Array.swap p i j) = length p.
Proof. unfold Uint8Array.swap, Uint8Array.store. by rewrite !length_insert. Qed.

Lemma swap_Permutation p i j :
  bytes p -> i < length p -> j < length p -> Uint8Array.swap p i j ≡ₚ p.
Proof.
  intros Hb Hi Hj. unfold Uint8Array.swap, Uint8Array.store.
  pose proof (load_lookup p i Hi) as Hli. pose proof (load_lookup p j Hj) as Hlj.
  rewrite !Z.mod_small by eauto using bytes_lookup.
  by apply Permutation_insert_swap.
Qed.

Lemma bytes_Permutation p q : p ≡ₚ q -> bytes q -> bytes p.
Proof. intros Hp Hq. unfold bytes. by rewrite Hp. Qed.

Lemma shuffle_spec i rng p :
  bytes p -> i < length p -> shuffle i rng p ≡ₚ p /\ length (shuffle i rng p) = length p.
Proof.
  revert rng p. induction i as [|i IH]; intros rng p Hb Hi; simpl; [done|].
  set (rng' := lcg_next rng).
  assert (Hj : Z.to_nat (rng' mod (Z.of_nat (S i) + 1)) < length p).
  { pose proof (Z.mod_pos_bound rng' (Z.of_nat (S i) + 1)). lia. }
  pose proof (swap_Permutation p (S i) _ Hb Hi Hj) as Hsw.
  destruct (IH rng' (Uint8Array.swap p (S i) (Z.to_nat (rng' mod (Z.of_nat (S i) + 1)))))
    as [Hperm Hlen].
  - by eapply bytes_Permutation.
  - rewrite swap_length. lia.
  - split; [by rewrite Hperm | by rewrite Hlen, swap_length].
Qed.

Lemma double_step_length p t i : length (double_step p t i) = length t.
Proof. unfold double_step, Uint8Array.store. by rewrite !length_insert. Qed.

Lemma double_step_hit p t i :
  length t = 512 -> i < 256 ->
  double_step p t i !! i = Some (Uint8Array.load p i mod 256)%Z /\
  double_step p t i !! (i + 256) = Some (Uint8Array.load p i mod 256)%Z.
Proof.
  intros Hlen Hi. unfold double_step, Uint8Array.store. split.
  - apply list_lookup_insert_eq. rewrite length_insert. lia.
  - rewrite list_lookup_insert_ne by lia. apply list_lookup_insert_eq. lia.
Qed.

Lemma double_step_miss p t i k :
  i < 256 -> k < 256 -> k <> i ->
  double_step p t i !! k = t !! k /\
  double_step p t i !! (k + 256) = t !! (k + 256).
Proof.
  intros Hi Hk Hne. unfold double_step, Uint8Array.store.
  split; rewrite !list_lookup_insert_ne by lia; done.
Qed.

Lemma double_fold_spec p idxs : forall t,
  length t = 512 -> Forall (fun i => i < 256) idxs ->
  length (foldl (double_step p) t idxs) = 512 /\
  forall k, k < 256 ->
    (k ∈ idxs ->
       foldl (double_step p) t idxs !! k = Some (Uint8Array.load p k mod 256)%Z /\
       foldl (double_step p) t idxs !! (k + 256) = Some (Uint8Array.load p k mod 256)%Z) /\
    (k ∉ idxs ->
       foldl (double_step p) t idxs !! k = t !! k /\
       foldl (double_step p) t idxs !! (k + 256) = t !! (k + 256)).
Proof.
  induction idxs as [|i idxs IH]; intros t Hlen Hall; simpl.
  - split; [done|]. intros k _. split; [|done]. intros Hin. by apply elem_of_nil in Hin.
  - apply Forall_cons in Hall as [Hi Hall].
    destruct (IH (double_step p t i)) as [Hl Hk]; [by rewrite double_step_length|done|].
    split; [done|]. intros k Hk256. destruct (Hk k Hk256) as [Hin Hout]. split.
    + intros Hcons. destruct (decide (k ∈ idxs)) as [Hmem|Hmem]; [by apply Hin|].
      apply elem_of_cons in Hcons as [->|?]; [|done].
      destruct (Hout Hmem) as [-> ->]. by apply double_step_hit.
    + intros Hcons. apply not_elem_of_cons in Hcons as [Hne Hmem].
      destruct (Hout Hmem) as [-> ->]. by apply double_step_miss.
Qed.

Lemma double_table_spec p t :
  length t = 512 ->
  length (double_table p t) = 512 /\
  forall k, k < 256 ->
    double_table p t !! k = Some (Uint8Array.load p k mod 256)%Z /\
    double_table p t !! (k + 256) = Some (Uint8Array.load p k mod 256)%Z.
Proof.
  intros Hlen.
  destruct (double_fold_spec p (seq 0 256) t Hlen) as [Hl Hk].
  { apply Forall_forall. intros i Hi%elem_of_seq. lia. }
  split; [exact Hl|]. intros k Hk256.
  apply (Hk k Hk256). apply elem_of_seq. lia.
Qed.

Lemma bytes_identity : bytes (Z.of_nat <$> seq 0 256).
Proof.
  apply Forall_fmap, Forall_forall. intros i Hi%elem_of_seq. simpl. lia.
Qed.

Lemma shuffled_spec s :
  shuffled s ≡ₚ Z.of_nat <$> seq 0 256 /\ length (shuffled s) = 256 /\ bytes (shuffled s).
Proof.
  unfold shuffled. rewrite identity_table_eq.
  destruct (shuffle_spec 255 (ToUint32 s) (Z.of_nat <$> seq 0 256)) as [Hp Hl].
  - exact bytes_identity.
  - rewrite length_fmap, length_seq. lia.
  - split; [done|]. split.
    + by rewrite Hl, length_fmap, length_seq.
    + eapply bytes_Permutation; [exact Hp | exact bytes_identity].
Qed.

Lemma initPermutation_unfold t s : initPermutation t s = double_table (shuffled s) t.
Proof. reflexivity. Qed.

(** What a freshly built table holds: the shuffled table, twice. *)
Lemma initPermutation_lookup s k :
  k < 256 ->
  initPermutation (Uint8Array.make 512) s !! k = shuffled s !! k /\
  initPermutation (Uint8Array.make 512) s !! (k + 256) = shuffled s !! k.
Proof.
  intros Hk. destruct (shuffled_spec s) as (_ & Hlen & Hb).
  destruct (double_table_spec (shuffled s) (Uint8Array.make 512)) as [_ Hd].
  { apply make_length. }
  destruct (Hd k Hk) as [H1 H2]. rewrite initPermutation_unfold, H1, H2.
  assert (Hlk : shuffled s !! k = Some (Uint8Array.load (shuffled s) k))
    by (apply load_lookup; lia).
  rewrite Z.mod_small by (eapply bytes_lookup; eauto).
  rewrite Hlk. split; reflexivity.
Qed.

Lemma initPermutation_length s : length (initPermutation (Uint8Array.make 512) s) = 512.
Proof.
  rewrite initPermutation_unfold. apply double_table_spec, make_length.
Qed.

Lemma initPermutation_take s : take 256 (initPermutation (Uint8Array.make 512) s) = shuffled s.
Proof.
  destruct (shuffled_spec s) as (_ & Hlen & _).
  apply list_eq. intros k. destruct (decide (k < 256)) as [Hk|Hk].
  - rewrite lookup_take_lt by done. by apply initPermutation_lookup.
  - rewrite lookup_take_ge by lia. symmetry. apply lookup_ge_None. lia.
Qed.

(** Every entry of a freshly built table is a byte. *)
Lemma initPermutation_byte s (i : nat) v :
  initPermutation (Uint8Array.make 512) s !! i = Some v -> (0 <= v < 256)%Z.
Proof.
  intros Hv. destruct (shuffled_spec s) as (_ & Hlen & Hb).
  pose proof (lookup_lt_Some _ _ _ Hv) as Hi. rewrite initPermutation_length in Hi.
  destruct (decide (i < 256)) as [Hlt|Hge].
  - destruct (initPermutation_lookup s i Hlt) as [H1 _]. rewrite H1 in Hv.
    eapply bytes_lookup; eauto.
  - destruct (initPermutation_lookup s (i - 256)) as [_ H2]; [lia|].
    replace (i - 256 + 256) with i in H2 by lia. rewrite H2 in Hv.
    eapply bytes_lookup; eauto.
Qed.

End Permutation_table.

(** C4. For every seed the table built by [initPermutation] has 512
    entries, its first 256 entries are a permutation of 0..255, and entry
    [i + 256] equals entry [i] for every [i] in 0..255. The table is the
    [perm] field of the object; no other method of [Noise3D] returns a new
    object, so nothing changes it after construction. *)
Theorem perm_doubled_permutation (s : Z) :
  let t := perm (Noise3D_new s) in
  length t = 512 /\
  take 256 t ≡ₚ Z.of_nat <$> seq 0 256 /\
  (forall i, i < 256 -> t !! (i + 256) = t !! i) /\
  (forall i v, t !! i = Some v -> (0 <= v < 256)%Z).
Proof.
  cbn [perm Noise3D_new]. split; [apply initPermutation_length|]. split.
  - rewrite initPermutation_take. apply shuffled_spec.
  - split.
    + intros i Hi. destruct (initPermutation_lookup s i Hi) as [H1 H2]. by rewrite H1, H2.
    + apply initPermutation_byte.
Qed.

(** The table of the default seed starts 180, 99, 216, 33, and repeats
    from entry 256 on. *)
Example perm_default_start :
  take 4 (perm Noise3D_default) = [180; 99; 216; 33]%Z /\
  take 4 (drop 256 (perm Noise3D_default)) = [180; 99; 216; 33]%Z.
Proof. split; vm_compute; reflexivity. Qed.

(** ** Facts on sampling *)

Section Noise_facts.

Local Open Scope Q_scope.


Lemma wf_perm_new s : wf_perm (perm (Noise3D_new s)).
Proof.
  cbn [perm Noise3D_new]. split; [apply initPermutation_length|apply initPermutation_byte].
Qed.

Lemma get_wf t i :
  wf_perm t -> (0 <= i < 512)%Z ->
  exists v, Uint8Array.get t i = Some v /\ (0 <= v < 256)%Z.
Proof.
  intros [Hlen Hb] Hi. unfold Uint8Array.get.
  destruct (decide (0 <= i)%Z) as [_|]; [|lia].
  destruct (lookup_lt_is_Some_2 t (Z.to_nat i)) as [v Hv]; [lia|].
  exists v. split; [done|]. by eapply Hb.
Qed.

Lemma cell_range x : (0 <= cell x < 256)%Z.
Proof.
  unfold cell. change 255%Z with (Z.ones 8). rewrite Z.land_ones by lia.
  apply Z.mod_pos_bound. lia.
Qed.

Lemma frac_range x : 0 <= frac x /\ frac x < 1.
Proof.
  unfold frac, Math.floor.
  pose proof (Qfloor_le x) as H1. pose proof (Qlt_floor x) as H2.
  rewrite inject_Z_plus in H2. change (inject_Z 1) with 1 in H2. lra.
Qed.


Ltac read_step :=
  match goal with
  | Hwf : wf_perm ?t |- context [Uint8Array.get ?t ?i ≫= _] =>
      let v := fresh "p" in let Hv := fresh "Hget" in let Hr := fresh "Hrange" in
      destruct (get_wf t i Hwf) as (v & Hv & Hr);
      [lia | rewrite Hv; cbn [mbind option_bind]]
  end.

(** On a well-formed table every read of [noise] succeeds. *)
Lemma noise_defined nf x y z :
  wf_perm (perm nf) ->
  exists h000 h100 h010 h110 h001 h101 h011 h111,
    noise nf x y z =
      Some (blend8 (grad h000 (frac x) (frac y) (frac z))
                   (grad h100 (frac x - 1) (frac y) (frac z))
                   (grad h010 (frac x) (frac y - 1) (frac z))
                   (grad h110 (frac x - 1) (frac y - 1) (frac z))
                   (grad h001 (frac x) (frac y) (frac z - 1))
                   (grad h101 (frac x - 1) (frac y) (frac z - 1))
                   (grad h011 (frac x) (frac y - 1) (frac z - 1))
                   (grad h111 (frac x - 1) (frac y - 1) (frac z - 1))
                   (fade (frac x)) (fade (frac y)) (fade (frac z))).
Proof.
  intros Hwf. unfold noise. cbv zeta.
  pose proof (cell_range x). pose proof (cell_range y). pose proof (cell_range z).
  do 14 read_step. by repeat eexists.
Qed.

Lemma fade_range t : 0 <= t <= 1 -> 0 <= fade t <= 1.
Proof.
  intros [H0 H1]. unfold fade.
  assert (Hq : 0 <= t * (t * 6 - 15) + 10) by nra.
  assert (Hc : 0 <= t * t * t) by (apply Qmult_le_0_compat; nra).
  split; [by apply Qmult_le_0_compat|].
  assert (Hs : 1 - t * t * t * (t * (t * 6 - 15) + 10)
               == (1 - t) * (1 - t) * (1 - t) * ((1 - t) * ((1 - t) * 6 - 15) + 10)) by ring.
  assert (Hq' : 0 <= (1 - t) * ((1 - t) * 6 - 15) + 10) by nra.
  assert (Hc' : 0 <= (1 - t) * (1 - t) * (1 - t)) by (apply Qmult_le_0_compat; nra).
  pose proof (Qmult_le_0_compat _ _ Hc' Hq'). lra.
Qed.

Lemma lerp_mono a a' b b' t :
  0 <= t <= 1 -> a <= a' -> b <= b' -> lerp a b t <= lerp a' b' t.
Proof. intros Ht Ha Hb. unfold lerp. nra. Qed.

Lemma blend8_mono g000 g100 g010 g110 g001 g101 g011 g111
      k000 k100 k010 k110 k001 k101 k011 k111 u v w :
  0 <= u <= 1 -> 0 <= v <= 1 -> 0 <= w <= 1 ->
  g000 <= k000 -> g100 <= k100 -> g010 <= k010 -> g110 <= k110 ->
  g001 <= k001 -> g101 <= k101 -> g011 <= k011 -> g111 <= k111 ->
  blend8 g000 g100 g010 g110 g001 g101 g011 g111 u v w
  <= blend8 k000 k100 k010 k110 k001 k101 k011 k111 u v w.
Proof. intros. unfold blend8. repeat apply lerp_mono; assumption. Qed.

(** The blend of a sum of one term per axis is the sum of the blends. *)
Lemma blend8_separable a0 a1 b0 b1 c0 c1 u v w :
  blend8 (a0 + b0 + c0) (a1 + b0 + c0) (a0 + b1 + c0) (a1 + b1 + c0)
         (a0 + b0 + c1) (a1 + b0 + c1) (a0 + b1 + c1) (a1 + b1 + c1) u v w
  == lerp a0 a1 u + lerp b0 b1 v + lerp c0 c1 w.
Proof. unfold blend8, lerp. ring. Qed.

(** A gradient is a signed sum of two of the three offsets. *)
Lemma grad_bound h a b c ma mb mc :
  - ma <= a <= ma -> - mb <= b <= mb -> - mc <= c <= mc ->
  - (ma + mb + mc) <= grad h a b c <= ma + mb + mc.
Proof.
  intros Ha Hb Hc. unfold grad. set (k := Z.land h 15).
  destruct (Z.ltb_spec k 8), (Z.ltb_spec k 4), (Z.eqb_spec k 12), (Z.eqb_spec k 14),
    (truthy (Z.land k 1)), (truthy (Z.land k 2)); cbn [orb]; try lia; lra.
Qed.

Lemma Qsquare_nonneg a : 0 <= a * a.
Proof.
  destruct (Qlt_le_dec a 0) as [Hn|Hp].
  - assert (E : a * a == (- a) * (- a)) by ring.
    rewrite E. apply Qmult_le_0_compat; lra.
  - by apply Qmult_le_0_compat.
Qed.

(** The weight an axis takes in the blend, against the offset it weighs. *)
Lemma axis_bound t : 0 <= t <= 1 -> lerp t (1 - t) (fade t) <= 1 # 2.
Proof.
  intros Ht.
  assert (Heq : (1 # 2) - lerp t (1 - t) (fade t)
                == 2 * ((1 # 2) - t) * ((1 # 2) - t)
                   * (6 * (t * t) * ((1 - t) * (1 - t)) + 2 * (t * (1 - t)) + 1))
    by (unfold lerp, fade; ring).
  assert (H1 : 0 <= 2 * ((1 # 2) - t) * ((1 # 2) - t)).
  { pose proof (Qsquare_nonneg ((1 # 2) - t)). lra. }
  assert (H2 : 0 <= 6 * (t * t) * ((1 - t) * (1 - t)) + 2 * (t * (1 - t)) + 1).
  { assert (0 <= t * (1 - t)) by (apply Qmult_le_0_compat; lra).
    assert (0 <= (t * t) * ((1 - t) * (1 - t)))
      by (apply Qmult_le_0_compat; apply Qsquare_nonneg).
    lra. }
  pose proof (Qmult_le_0_compat _ _ H1 H2). lra.
Qed.

(** The size of an offset from a corner: [t] from the near corner,
    [1 - t] from the far one. *)
Ltac offset_size a :=
  lazymatch a with
  | ?t - 1 => constr:(1 - t)
  | ?t => constr:(t)
  end.

Ltac corner_bound :=
  match goal with
  | |- context [grad ?h ?a ?b ?c] =>
      let ma := offset_size a in
      let mb := offset_size b in
      let mc := offset_size c in
      let Hg := fresh in
      assert (Hg : - (ma + mb + mc) <= grad h a b c <= ma + mb + mc)
        by (apply grad_bound; lra);
      lra
  end.

Lemma blend8_bound h000 h100 h010 h110 h001 h101 h011 h111 x y z :
  0 <= x <= 1 -> 0 <= y <= 1 -> 0 <= z <= 1 ->
  let r := blend8 (grad h000 x y z) (grad h100 (x - 1) y z)
                  (grad h010 x (y - 1) z) (grad h110 (x - 1) (y - 1) z)
                  (grad h001 x y (z - 1)) (grad h101 (x - 1) y (z - 1))
                  (grad h011 x (y - 1) (z - 1)) (grad h111 (x - 1) (y - 1) (z - 1))
                  (fade x) (fade y) (fade z) in
  - (3 # 2) <= r <= 3 # 2.
Proof.
  intros Hx Hy Hz r.
  pose proof (fade_range x Hx) as Hu. pose proof (fade_range y Hy) as Hv.
  pose proof (fade_range z Hz) as Hw.
  pose proof (axis_bound x Hx) as Bx. pose proof (axis_bound y Hy) as By.
  pose proof (axis_bound z Hz) as Bz.
  pose proof (blend8_separable x (1 - x) y (1 - y) z (1 - z) (fade x) (fade y) (fade z)) as Hsep.
  pose proof (blend8_separable (- x) (- (1 - x)) (- y) (- (1 - y)) (- z) (- (1 - z))
                (fade x) (fade y) (fade z)) as Hsep'.
  assert (Hneg : forall a b t, lerp (- a) (- b) t == - lerp a b t)
    by (intros; unfold lerp; ring).
  rewrite !Hneg in Hsep'.
  split.
  - assert (Hlow :
      blend8 (- x + - y + - z) (- (1 - x) + - y + - z)
             (- x + - (1 - y) + - z) (- (1 - x) + - (1 - y) + - z)
             (- x + - y + - (1 - z)) (- (1 - x) + - y + - (1 - z))
             (- x + - (1 - y) + - (1 - z)) (- (1 - x) + - (1 - y) + - (1 - z))
             (fade x) (fade y) (fade z) <= r).
    { apply blend8_mono; try assumption.
      all: corner_bound. }
    lra.
  - assert (Hhigh :
      r <= blend8 (x + y + z) ((1 - x) + y + z)
             (x + (1 - y) + z) ((1 - x) + (1 - y) + z)
             (x + y + (1 - z)) ((1 - x) + y + (1 - z))
             (x + (1 - y) + (1 - z)) ((1 - x) + (1 - y) + (1 - z))
             (fade x) (fade y) (fade z)).
    { apply blend8_mono; try assumption.
      all: corner_bound. }
    lra.
Qed.

End Noise_facts.

(** ** The claims on the noise primitive *)

Section Noise_claims.

Local Open Scope Q_scope.

Lemma read_range t i : wf_perm t -> (0 <= default 0 (Uint8Array.get t i) < 256)%Z.
Proof.
  intros [Hlen Hb]. unfold Uint8Array.get.
  destruct (decide (0 <= i)%Z); [|simpl; lia].
  destruct (t !! Z.to_nat i) as [v|] eqn:Hv; simpl; [by eapply Hb | lia].
Qed.

(** A field whose table is the table of another samples like it: [noise]
    reads nothing of the object but [perm]. *)
Lemma noise_perm_only nf1 nf2 x y z :
  perm nf1 = perm nf2 -> noise nf1 x y z = noise nf2 x y z.
Proof. intros Hp. unfold noise. by rewrite Hp. Qed.

Lemma frac_comp x x' : x == x' -> frac x == frac x'.
Proof.
  intros Hx. unfold frac, Math.floor.
  rewrite (Qfloor_comp x x' Hx). by rewrite Hx.
Qed.

Lemma cell_comp x x' : x == x' -> cell x = cell x'.
Proof. intros Hx. unfold cell, Math.floor. by rewrite (Qfloor_comp x x' Hx). Qed.

Lemma fade_comp t t' : t == t' -> fade t == fade t'.
Proof. intros Ht. unfold fade. by rewrite Ht. Qed.

Lemma lerp_comp a a' b b' t t' :
  a == a' -> b == b' -> t == t' -> lerp a b t == lerp a' b' t'.
Proof. intros Ha Hb Ht. unfold lerp. by rewrite Ha, Hb, Ht. Qed.

Lemma grad_comp h x x' y y' z z' :
  x == x' -> y == y' -> z == z' -> grad h x y z == grad h x' y' z'.
Proof.
  intros Hx Hy Hz. unfold grad.
  repeat match goal with |- context [if ?c then _ else _] => destruct c end;
    by rewrite ?Hx, ?Hy, ?Hz.
Qed.

(** Two ways of writing the same three numbers sample the same number. *)
Lemma noise_comp nf x y z x' y' z' :
  x == x' -> y == y' -> z == z' ->
  option_Forall2 Qeq (noise nf x y z) (noise nf x' y' z').
Proof.
  intros Hx Hy Hz. unfold noise. cbv zeta.
  rewrite <- (cell_comp x x' Hx), <- (cell_comp y y' Hy), <- (cell_comp z z' Hz).
  repeat match goal with
         | |- context [Uint8Array.get ?t ?i ≫= _] =>
             destruct (Uint8Array.get t i); cbn [mbind option_bind]; [|constructor]
         end.
  constructor.
  pose proof (frac_comp x x' Hx) as Fx. pose proof (frac_comp y y' Hy) as Fy.
  pose proof (frac_comp z z' Hz) as Fz.
  repeat apply lerp_comp; try apply grad_comp; try apply fade_comp;
    rewrite ?Fx, ?Fy, ?Fz; reflexivity.
Qed.

(** On a well-formed table a sample is a number between -3/2 and 3/2. *)
Lemma noise_bounded nf x y z :
  wf_perm (perm nf) ->
  exists v, noise nf x y z = Some v /\ - (3 # 2) <= v <= 3 # 2.
Proof.
  intros Hwf.
  destruct (noise_defined nf x y z Hwf)
    as (h000 & h100 & h010 & h110 & h001 & h101 & h011 & h111 & ->).
  eexists. split; [reflexivity|].
  pose proof (frac_range x). pose proof (frac_range y). pose proof (frac_range z).
  apply blend8_bound; lra.
Qed.

End Noise_claims.

(** On the lattice every offset is 0 or weighs nothing: the sample is 0. *)
Example noise_on_lattice : noise Noise3D_default 3 0 (- (7)) = Some 0%Q.
Proof. vm_compute. reflexivity. Qed.

(** C1. Two fields whose table was built from the same seed return the same
    value at the same input, whatever else the objects hold, and that value
    is a number: the table is a function of the seed, and [noise] is a
    function of the table and the three coordinates. ([noise_comp] adds
    that the value does not depend on how the coordinates are written.) *)
Theorem noise_referentially_transparent (s : Z) (nf1 nf2 : Noise3D) (x y z : Q) :
  perm nf1 = perm (Noise3D_new s) ->
  perm nf2 = perm (Noise3D_new s) ->
  noise nf1 x y z = noise nf2 x y z /\ is_Some (noise nf1 x y z).
Proof.
  intros H1 H2. split.
  - apply noise_perm_only. congruence.
  - destruct (noise_defined nf1 x y z) as (? & ? & ? & ? & ? & ? & ? & ? & ->); [|done].
    rewrite H1. apply wf_perm_new.
Qed.

Lemma noise_referentially_transparent_witness :
  noise {| seed := 7; perm := perm (Noise3D_new 12345) |} (15 # 2) (249 # 2) (1139 # 8)
  = noise (Noise3D_new 12345) (15 # 2) (249 # 2) (1139 # 8)
  /\ is_Some (noise {| seed := 7; perm := perm (Noise3D_new 12345) |}
                (15 # 2) (249 # 2) (1139 # 8)).
Proof.
  apply (noise_referentially_transparent 12345); reflexivity.
Defined.

(** C2, as the claim states it, fails: with the default seed 12345 the
    sample at (7.5, 124.5, 142.375) is 135581/131072, above 1, and the
    sample at (169.625, 20.5, 67.5) is below -1. All intermediate values
    are dyadic fractions with few bits, so a double computes them exactly. *)
Lemma noise_leaves_unit_interval :
  (exists v, noise Noise3D_default (15 # 2) (249 # 2) (1139 # 8) = Some v
             /\ (v == 135581 # 131072)%Q /\ ~ (- (1) <= v <= 1)%Q) /\
  (exists v, noise Noise3D_default (1357 # 8) (41 # 2) (135 # 2) = Some v
             /\ (v == - (135581 # 131072))%Q /\ ~ (- (1) <= v <= 1)%Q).
Proof.
  split; eexists; (split; [vm_compute; reflexivity|]);
    (split; [vm_compute; reflexivity|]); intros [Hlo Hhi]; vm_compute in Hlo, Hhi;
    first [by apply Hhi | by apply Hlo].
Qed.

(** C2, amended. For every seed and every input, [noise] returns a number
    between -3/2 and 3/2. *)
Theorem noise_range (s : Z) (x y z : Q) :
  exists v, noise (Noise3D_new s) x y z = Some v /\ (- (3 # 2) <= v <= 3 # 2)%Q.
Proof. apply noise_bounded, wf_perm_new. Qed.

(** C10. For every seed and every input, each position of the table that
    [noise] reads lies in 0..511, the base positions [A], [B], [AA], [AB],
    [BA], [BB] being at most 255 + 255, and so no read is [undefined]. *)
Theorem noise_indices_safe (s : Z) (x y z : Q) :
  Forall (fun i => 0 <= i < 512)%Z (noise_indices (Noise3D_new s) x y z) /\
  is_Some (noise (Noise3D_new s) x y z).
Proof.
  split.
  - pose proof (wf_perm_new s) as Hwf.
    pose proof (cell_range x). pose proof (cell_range y). pose proof (cell_range z).
    unfold noise_indices. cbv zeta.
    repeat match goal with
           | |- context [default 0%Z (Uint8Array.get ?t ?i)] =>
               let r := fresh "r" in
               pose proof (read_range t i Hwf);
               set (r := default 0%Z (Uint8Array.get t i)) in *
           end.
    repeat constructor; lia.
  - destruct (noise_bounded (Noise3D_new s) x y z (wf_perm_new s)) as (v & -> & _). done.
Qed.

(** ** The octave loops *)

Section Octaves.

Local Open Scope Q_scope.

Variable nf : Noise3D.
Hypothesis Hwf : wf_perm (perm nf).

(** A loop keeps what each of its rounds keeps. *)
Lemma octaves_loop_inv {State : Type} (P : State -> Prop) (body : State -> option State) :
  (forall st, P st -> exists st', body st = Some st' /\ P st') ->
  forall n st, P st -> exists st', octaves_loop body n st = Some st' /\ P st'.
Proof.
  intros Hbody n. induction n as [|n IH]; intros st Hst; simpl.
  - by exists st.
  - destruct (Hbody st Hst) as (st1 & -> & Hst1). cbn [mbind option_bind]. by apply IH.
Qed.

(** After one round at least, a loop is where its last round left it. *)
Lemma octaves_loop_entered {State : Type} (P R : State -> Prop)
      (body : State -> option State) :
  (forall st, P st -> exists st', body st = Some st' /\ R st') ->
  (forall st, R st -> P st) ->
  forall n st, P st -> exists st', octaves_loop body (S n) st = Some st' /\ R st'.
Proof.
  intros Hbody Hweak n st Hst. simpl.
  destruct (Hbody st Hst) as (st1 & -> & Hst1). cbn [mbind option_bind].
  apply octaves_loop_inv; [|done].
  intros st2 Hst2. apply Hbody, Hweak, Hst2.
Qed.

Lemma fbm_step_summed x y z persistence st :
  0 <= persistence -> summed st ->
  exists st', fbm_step nf x y z persistence st = Some st' /\ summed_once st'.
Proof.
  intros Hp (Ha & Hf & Hv & H1). unfold fbm_step.
  destruct (noise_bounded nf (x * frequency st) (y * frequency st) (z * frequency st) Hwf)
    as (n & -> & Hn). cbn [mbind option_bind].
  eexists. split; [reflexivity|]. unfold summed_once, summed. cbn.
  assert (0 <= amplitude st * persistence) by (by apply Qmult_le_0_compat).
  assert (n * amplitude st <= (3 # 2) * amplitude st) by (apply Qmult_le_compat_r; lra).
  assert (- (3 # 2) * amplitude st <= n * amplitude st) by (apply Qmult_le_compat_r; lra).
  repeat split; lra.
Qed.

Lemma turbulence_step_summed x y z st :
  summed st /\ 0 <= value st ->
  exists st', turbulence_step nf x y z st = Some st' /\ summed_once st' /\ 0 <= value st'.
Proof.
  intros [(Ha & Hf & Hv & H1) H0]. unfold turbulence_step.
  destruct (noise_bounded nf (x * frequency st) (y * frequency st) (z * frequency st) Hwf)
    as (n & -> & Hn). cbn [mbind option_bind].
  eexists. split; [reflexivity|]. unfold summed_once, summed, Math.abs. cbn.
  pose proof (Qabs_nonneg n) as Habs0.
  assert (Habs : Qabs n <= 3 # 2) by (apply Qabs_Qle_condition; lra).
  assert (0 <= Qabs n * amplitude st) by (by apply Qmult_le_0_compat).
  assert (Qabs n * amplitude st <= (3 # 2) * amplitude st)
    by (apply Qmult_le_compat_r; lra).
  repeat split; lra.
Qed.

Lemma ridged_step_defined x y z st :
  True -> exists st', ridged_step nf x y z st = Some st' /\ True.
Proof.
  intros _. unfold ridged_step.
  destruct (noise_bounded nf (x * Ridged.frequency st) (y * Ridged.frequency st)
              (z * Ridged.frequency st) Hwf)
    as (n & -> & Hn). cbn [mbind option_bind]. by eexists.
Qed.

Lemma div_defined a b : 0 < b -> Math.div a b = Some (a / b).
Proof.
  intros Hb. unfold Math.div.
  destruct (Qeq_bool b 0) eqn:E; [|done].
  apply Qeq_bool_eq in E. lra.
Qed.

Lemma clamp_range v : 0 <= Math.min 1 (Math.max 0 v) <= 1.
Proof.
  unfold Math.min, Math.max. split.
  - apply Q.min_glb; [lra | apply Q.le_max_l].
  - apply Q.le_min_l.
Qed.

Lemma summed_start : summed octaves_start.
Proof. unfold summed, octaves_start; cbn. repeat split; lra. Qed.

(** [fbm] on a well-formed table, with a persistence that is not negative. *)
Lemma fbm_bounded x y z octaves persistence :
  (1 <= octaves)%nat -> 0 <= persistence ->
  exists v, fbm nf x y z octaves persistence = Some v /\ - (1 # 4) <= v <= 5 # 4.
Proof.
  intros Ho Hp. destruct octaves as [|n]; [lia|]. unfold fbm.
  destruct (octaves_loop_entered summed summed_once (fbm_step nf x y z persistence))
    with (n := n) (st := octaves_start) as (st & Hst & (Ha & Hf & Hv & _) & H1).
  - intros st Hst. by apply fbm_step_summed.
  - by intros st [? _].
  - exact summed_start.
  - fold octaves_start. rewrite Hst. cbn [mbind option_bind].
    rewrite div_defined by lra. cbn [mbind option_bind].
    eexists. split; [reflexivity|].
    assert (value st / maxValue st <= 3 # 2) by (apply Qle_shift_div_r; lra).
    assert (- (3 # 2) <= value st / maxValue st) by (apply Qle_shift_div_l; lra).
    lra.
Qed.

Lemma turbulence_bounded x y z octaves :
  (1 <= octaves)%nat ->
  exists v, turbulence nf x y z octaves = Some v /\ 0 <= v <= 3 # 2.
Proof.
  intros Ho. destruct octaves as [|n]; [lia|]. unfold turbulence.
  destruct (octaves_loop_entered (fun st => summed st /\ 0 <= value st)
              (fun st => summed_once st /\ 0 <= value st) (turbulence_step nf x y z))
    with (n := n) (st := octaves_start) as (st & Hst & ((Ha & Hf & Hv & _) & H1) & H0).
  - intros st Hst. by apply turbulence_step_summed.
  - by intros st [[? _] ?].
  - split; [exact summed_start | cbn; lra].
  - fold octaves_start. rewrite Hst. cbn [mbind option_bind].
    rewrite div_defined by lra. eexists. split; [reflexivity|]. split.
    + apply Qle_shift_div_l; lra.
    + apply Qle_shift_div_r; lra.
Qed.

Lemma ridged_bounded x y z octaves :
  exists v, ridged nf x y z octaves = Some v /\ 0 <= v <= 1.
Proof.
  unfold ridged.
  destruct (octaves_loop_inv (fun _ => True) (ridged_step nf x y z))
    with (n := octaves)
         (st := {| Ridged.value := 0; Ridged.amplitude := 1; Ridged.frequency := 1;
                   Ridged.weight := 1 |})
    as (st & -> & _); [by apply ridged_step_defined | done |].
  cbn [mbind option_bind]. eexists. split; [reflexivity|]. apply clamp_range.
Qed.

End Octaves.

(** C3, as the claim states it, fails: with the default seed and one octave
    [fbm] is above 1 at (7.5, 124.5, 142.375) and below 0 at
    (169.625, 20.5, 67.5), [turbulence] is above 1 at the former, and with
    two octaves and persistence -1 the total amplitude of [fbm] is 0, so
    that its quotient is no finite number. *)
Lemma fractals_leave_unit_interval :
  (exists v, fbm (Noise3D_new 12345) (15 # 2) (249 # 2) (1139 # 8) 1 0.5 = Some v
             /\ (v == 266653 # 262144)%Q /\ ~ (0 <= v <= 1)%Q) /\
  (exists v, fbm (Noise3D_new 12345) (1357 # 8) (41 # 2) (135 # 2) 1 0.5 = Some v
             /\ (v == - (4509 # 262144))%Q /\ ~ (0 <= v <= 1)%Q) /\
  (exists v, turbulence (Noise3D_new 12345) (15 # 2) (249 # 2) (1139 # 8) 1 = Some v
             /\ (v == 135581 # 131072)%Q /\ ~ (0 <= v <= 1)%Q) /\
  fbm (Noise3D_new 12345) (15 # 2) (249 # 2) (1139 # 8) 2 (- (1)) = None.
Proof.
  repeat split; try (vm_compute; reflexivity);
    eexists; (split; [vm_compute; reflexivity|]);
    (split; [vm_compute; reflexivity|]); intros [Hlo Hhi]; vm_compute in Hlo, Hhi;
    first [by apply Hhi | by apply Hlo].
Qed.

(** C3, amended. For every seed, from 1 to 1024 octaves, at an input
    whose coordinates stay doubles through all the octaves
    ([octaves_finite]): [ridged] returns a number in [0,1], [turbulence] a
    number in [0,3/2], and [fbm], when its persistence lies in [0,1], a
    number in [-1/4,5/4]. The model has no infinity, and the three bounds
    hold in it without the restriction; the source overflows outside it and
    returns [NaN], so that nothing is stated there. *)
Theorem fractal_ranges (s : Z) (x y z : Q) (octaves : nat) (persistence : Q) :
  (1 <= octaves)%nat ->
  octaves_finite octaves x -> octaves_finite octaves y -> octaves_finite octaves z ->
  (0 <= persistence <= 1)%Q ->
  (exists v, fbm (Noise3D_new s) x y z octaves persistence = Some v
             /\ (- (1 # 4) <= v <= 5 # 4)%Q) /\
  (exists v, turbulence (Noise3D_new s) x y z octaves = Some v /\ (0 <= v <= 3 # 2)%Q) /\
  (exists v, ridged (Noise3D_new s) x y z octaves = Some v /\ (0 <= v <= 1)%Q).
Proof.
  intros Ho _ _ _ [Hp _]. pose proof (wf_perm_new s) as Hwf. repeat split.
  - by apply fbm_bounded.
  - by apply turbulence_bounded.
  - by apply ridged_bounded.
Qed.

Lemma fractal_ranges_witness :
  (exists v, fbm (Noise3D_new 12345) (15 # 2) (249 # 2) (1139 # 8) 8 0.5 = Some v
             /\ (- (1 # 4) <= v <= 5 # 4)%Q) /\
  (exists v, turbulence (Noise3D_new 12345) (15 # 2) (249 # 2) (1139 # 8) 8 = Some v
             /\ (0 <= v <= 3 # 2)%Q) /\
  (exists v, ridged (Noise3D_new 12345) (15 # 2) (249 # 2) (1139 # 8) 8 = Some v
             /\ (0 <= v <= 1)%Q).
Proof.
  apply (fractal_ranges 12345 (15 # 2) (249 # 2) (1139 # 8) 8 0.5);
    [ lia
    | split; [lia | vm_compute; reflexivity]
    | split; [lia | vm_compute; reflexivity]
    | split; [lia | vm_compute; reflexivity]
    | split; vm_compute; discriminate ].
Defined.

(** Why the amended claim keeps to those arguments: in binary64 the three
    sums are [NaN] at (2^1023, 0, 0) with two octaves, where the second
    frequency takes the coordinate to an infinity; [fbm] is [NaN] with 1025
    octaves at the origin, where the frequency itself is an infinity by the
    last round, and with three octaves and a persistence of 2^600, where the
    third amplitude is one. With two octaves and persistence -1 the
    quotient of [fbm] by the zero total amplitude is an infinity. *)
Section Overflow.

Import Stdlib.Floats.Floats.

Example fractals_overflow :
  let nf := Noise3D_new 12345 in
  Binary64.fbm nf 0x1p1023%float 0%float 0%float 2 0.5%float = Some nan /\
  Binary64.turbulence nf 0x1p1023%float 0%float 0%float 2 = Some nan /\
  Binary64.ridged nf 0x1p1023%float 0%float 0%float 2 = Some nan /\
  Binary64.fbm nf 0%float 0%float 0%float 1025 0.5%float = Some nan /\
  Binary64.fbm nf 0.5%float 0.25%float 0.125%float 3 0x1p600%float = Some nan /\
  Binary64.fbm nf 7.5%float 124.5%float 142.375%float 2 (-1)%float = Some infinity.
Proof.
  set (nf := Noise3D_new 12345). vm_compute in (value of nf).
  repeat split; vm_compute; reflexivity.
Qed.

(** At the edge of those arguments the sums are numbers within the bounds:
    1024 octaves at the origin, and at (1.5, 0, 0), whose last product is
    1.5 * 2^1023. *)
Example fractals_at_the_edge :
  let nf := Noise3D_new 12345 in
  Binary64.fbm nf 0%float 0%float 0%float 1024 0.5%float = Some 0.5%float /\
  Binary64.fbm nf 1.5%float 0%float 0%float 1024 1%float = Some 0.4998779296875%float /\
  Binary64.turbulence nf 1.5%float 0%float 0%float 1024 = Some 0.125%float /\
  Binary64.ridged nf 1.5%float 0%float 0%float 1024 = Some 0.78125%float.
Proof.
  set (nf := Noise3D_new 12345). vm_compute in (value of nf).
  repeat split; vm_compute; reflexivity.
Qed.

End Overflow.

(** ** Classification *)

Section Classification_facts.

Context `{Libm}.

Local Open Scope Q_scope.

Lemma ltQ_spec a b : reflect (a < b) (ltQ a b).
Proof.
  unfold ltQ. destruct (Qle_bool b a) eqn:E; constructor.
  - apply Qle_bool_iff in E. lra.
  - apply Qnot_le_lt. intros Hle. apply Qle_bool_iff in Hle. congruence.
Qed.

Lemma leQ_spec a b : reflect (a <= b) (leQ a b).
Proof.
  unfold leQ. destruct (Qle_bool a b) eqn:E; constructor.
  - by apply Qle_bool_iff.
  - intros Hle. apply Qle_bool_iff in Hle. congruence.
Qed.

(** The terran case follows the ladder of the specification. *)
Lemma terran_color_spec colors elevation moisture :
  exists band, terran_spec elevation moisture band /\
               terran_color colors elevation moisture
               = band_color colors band elevation moisture.
Proof.
  unfold terran_color.
  destruct (ltQ_spec elevation 0.35) as [Hsea|Hsea].
  - destruct (ltQ_spec 0.15 (0.35 - elevation)) as [Hd|Hd];
      [exists DeepOcean; split; [by constructor|done]|].
    destruct (ltQ_spec 0.08 (0.35 - elevation)) as [Ho|Ho].
    + exists Ocean. split; [constructor; lra|done].
    + exists Shallow. split; [constructor; lra|done].
  - destruct (ltQ_spec elevation 0.37) as [Hb|Hb];
      [exists Beach; split; [constructor; lra|done]|].
    destruct (ltQ_spec 0.8 elevation) as [Hm|Hm].
    + destruct (ltQ_spec 0.88 elevation) as [Hs|Hs].
      * exists Snow. split; [constructor; lra|done].
      * exists Mountain. split; [constructor; lra|done].
    + destruct (ltQ_spec 0.6 moisture) as [Hf|Hf].
      * exists Forest. split; [constructor; lra|done].
      * exists Grass. split; [constructor; lra|done].
Qed.

(** The ladder names one band for each pair of numbers. *)
Lemma terran_spec_functional elevation moisture band band' :
  terran_spec elevation moisture band -> terran_spec elevation moisture band' ->
  band = band'.
Proof. intros H1 H2. destruct H1; destruct H2; first [reflexivity | lra]. Qed.

End Classification_facts.

(** C5. On a terran planet that is no gas giant the colour is the one of the
    band the ladder names: water below 0.35 (deep ocean, ocean or shallow by
    the depth below 0.35), beach below 0.37, mountain above 0.8 and snow
    above 0.88, else forest when the moisture exceeds 0.6 and grass
    otherwise. The ladder names exactly one band, and at elevation 0.35 it
    is the beach: the test [elevation < 0.35] fails there, on every
    evaluation. *)
Theorem terran_ladder `{Libm} (colors : gmap string (list string))
        (elevation moisture temperature texU texV latitude : Q) (nf : Noise3D) :
  exists band,
    terran_spec elevation moisture band /\
    getPlanetSurfaceColor "terran" elevation moisture temperature colors false
                          texU texV latitude nf
    = band_color colors band elevation moisture /\
    (forall band', terran_spec elevation moisture band' -> band' = band) /\
    ((elevation == 0.35)%Q -> band = Beach) /\
    getPlanetSurfaceColor "terran" 0.35 moisture temperature colors false
                          texU texV latitude nf
    = palette_color colors "beach" 0.
Proof.
  destruct (terran_color_spec colors elevation moisture) as (band & Hspec & Hcol).
  exists band. split; [done|]. split.
  - unfold getPlanetSurfaceColor. cbn [negb]. by destruct (decide _).
  - split; [|split].
    + intros band' Hspec'. by eapply terran_spec_functional.
    + intros He. eapply terran_spec_functional; [exact Hspec|].
      apply spec_beach; rewrite He; [apply Qle_refl | reflexivity].
    + unfold getPlanetSurfaceColor. destruct (decide _); [reflexivity|done].
Qed.

Example hexToRgb_lower : hexToRgb (Some "#001428")
                          = {| Color.r := 0; Color.g := 20; Color.b := 40 |}.
Proof. reflexivity. Qed.

Example hexToRgb_upper : hexToRgb (Some "FFEECC")
                          = {| Color.r := 255; Color.g := 238; Color.b := 204 |}.
Proof. reflexivity. Qed.

Example hexToRgb_unmatched :
  hexToRgb (Some "#12345") = {| Color.r := 128; Color.g := 128; Color.b := 128 |} /\
  hexToRgb None = {| Color.r := 128; Color.g := 128; Color.b := 128 |}.
Proof. split; reflexivity. Qed.

(** ** Colour lookup and its fallback *)

Section Lookup_facts.

Context `{Libm}.

Local Open Scope Q_scope.

(** Two literals that differ. *)
Ltac literals_differ := let Heq := fresh in intros Heq; discriminate Heq.

(** Look a literal key up in a table written as a literal. *)
Ltac literal_lookup :=
  unfold list_to_map; cbn [foldr fst snd];
  repeat first [rewrite lookup_insert_eq | rewrite lookup_insert_ne by literals_differ];
  try reflexivity.

Lemma star_G : STAR_COLORS !! "G"
               = Some {| base := "#fff4ea"; bright := "#ffffaa"; glow := "#ffeecc" |}.
Proof. unfold STAR_COLORS. literal_lookup. Qed.

Lemma copy_terran_other tbl type key :
  key <> type -> copy_terran tbl type !! key = tbl !! key.
Proof.
  intros Hne. unfold copy_terran. destruct (tbl !! type); [done|].
  by rewrite lookup_insert_ne.
Qed.

Lemma copy_terran_fold_other key types : forall tbl,
  key ∉ types -> foldl copy_terran tbl types !! key = tbl !! key.
Proof.
  induction types as [|type types IH]; intros tbl Hnot; simpl; [done|].
  apply not_elem_of_cons in Hnot as [Hne Hnot].
  rewrite IH by done. by apply copy_terran_other.
Qed.

(** The types with a palette of their own keep it when the module loads. *)
Lemma PLANET_COLORS_own key :
  key ∉ moreTypes -> PLANET_COLORS !! key = PLANET_COLORS_literal !! key.
Proof. apply copy_terran_fold_other. Qed.

Ltac not_in_moreTypes :=
  unfold moreTypes; rewrite !not_elem_of_cons;
  repeat split; first [literals_differ | apply not_elem_of_nil].

Lemma planet_terran : PLANET_COLORS !! "terran" = Some terran_palette.
Proof.
  rewrite PLANET_COLORS_own by not_in_moreTypes.
  unfold PLANET_COLORS_literal. literal_lookup.
Qed.

Lemma planet_colors_for_own key colors :
  key ∉ moreTypes -> PLANET_COLORS_literal !! key = Some colors ->
  planet_colors_for key = Some (Own colors).
Proof.
  intros Hnot Hlit. unfold planet_colors_for, property_get.
  by rewrite PLANET_COLORS_own, Hlit.
Qed.

(** Settle which palette a literal type is handed. *)
Ltac own_palette Hcol :=
  erewrite planet_colors_for_own in Hcol;
  [ | not_in_moreTypes | unfold PLANET_COLORS_literal; literal_lookup ];
  injection Hcol as <-.

(** Replace the lookups of literal keys in literal palettes by their values. *)
Ltac eval_lookups :=
  repeat match goal with
         | |- context [@lookup string (list string) _ _ ?k ?pal] =>
             let v := eval vm_compute in (pal !! k) in
             change (pal !! k) with v
         end;
  cbn [mbind option_bind default].

Ltac split_conditions :=
  repeat match goal with
         | |- context [if ltQ ?a ?b then _ else _] => destruct (ltQ a b)
         | |- context [if (?c && ?d)%bool then _ else _] => destruct c, d; cbn [andb]
         end.

Lemma gas_giant_color_total nf texU texV latitude :
  wf_perm (perm nf) -> is_Some (gas_giant_color gas_giant_palette texU texV latitude nf).
Proof.
  intros Hwf. unfold gas_giant_color.
  destruct (fbm_bounded nf Hwf (texU * 1) (texV * 8) 0 6 0.5) as (bn & -> & _);
    [lia|lra|]. cbn [mbind option_bind].
  destruct (turbulence_bounded nf Hwf (texU * 4) (texV * 2) 0 6) as (t & -> & _);
    [lia|]. cbn [mbind option_bind].
  destruct (fbm_bounded nf Hwf (texU * 3) (texV * 3) 50 5 0.5) as (sn & -> & _);
    [lia|lra|]. cbn [mbind option_bind].
  by destruct (_ && _)%bool.
Qed.

Lemma rocky_color_total colors elevation : is_Some (rocky_color colors elevation).
Proof. done. Qed.

(** With the palette [generatePlanet] hands over, every type finds the
    palette entries its case reads. *)
Lemma getPlanetSurfaceColor_total type colors nf elevation moisture temperature
      texU texV latitude :
  wf_perm (perm nf) -> planet_colors_for type = Some (Own colors) ->
  is_Some (getPlanetSurfaceColor type elevation moisture temperature colors
             (bool_decide (type = "gas_giant")) texU texV latitude nf).
Proof.
  intros Hwf Hcol. unfold getPlanetSurfaceColor.
  case_bool_decide as Hgas.
  { subst type. own_palette Hcol. by apply gas_giant_color_total. }
  repeat match goal with
         | |- context [decide (type = ?k)] =>
             destruct (decide (type = k)) as [->|?]; [own_palette Hcol|]
         end.
  - unfold terran_color, palette_color, palette_color_at.
    split_conditions; by eval_lookups.
  - unfold desert_color, palette_color. split_conditions; by eval_lookups.
  - unfold ice_color, palette_color, palette_color_at. split_conditions; by eval_lookups.
  - unfold lava_color, palette_color. split_conditions; by eval_lookups.
  - unfold ocean_color, palette_color. cbv zeta. split_conditions; by eval_lookups.
  - unfold jungle_color, palette_color, palette_color_at.
    split_conditions; by eval_lookups.
  - apply rocky_color_total.
Qed.

(** A key that is no name of [Object.prototype] finds its own entry, or
    nothing, in which case the default is taken. *)
Lemma property_get_own {A} (obj : gmap string A) key :
  key ∉ Object_prototype -> property_get obj key = Own <$> obj !! key.
Proof.
  intros Hnot. unfold property_get. destruct (obj !! key); [done|].
  by rewrite bool_decide_eq_false_2.
Qed.


Lemma planet_colors_for_total type :
  type ∉ Object_prototype ->
  planet_colors_for type = Some (Own (default terran_palette (PLANET_COLORS !! type))).
Proof.
  intros Hnot. unfold planet_colors_for. rewrite (property_get_own _ type Hnot).
  destruct (PLANET_COLORS !! type); [done|]. cbn [fmap option_fmap option_map default].
  unfold property_get. by rewrite planet_terran.
Qed.

Lemma star_colors_for_total key :
  key ∉ Object_prototype ->
  star_colors_for key
  = Some (Own (default {| base := "#fff4ea"; bright := "#ffffaa"; glow := "#ffeecc" |}
                       (STAR_COLORS !! key))).
Proof.
  intros Hnot. unfold star_colors_for. rewrite (property_get_own _ key Hnot).
  destruct (STAR_COLORS !! key); [done|]. cbn [fmap option_fmap option_map default].
  unfold property_get. by rewrite star_G.
Qed.

Ltac not_inherited :=
  unfold Object_prototype; rewrite !not_elem_of_cons;
  repeat split; first [literals_differ | apply not_elem_of_nil].

(** No planet type and no stellar class of the configuration is a name of
    [Object.prototype]. *)
Lemma planetTypes_own type : type ∈ CONFIG.planetTypes -> type ∉ Object_prototype.
Proof.
  intros Hin. unfold CONFIG.planetTypes in Hin.
  repeat (apply elem_of_cons in Hin as [->|Hin]; [not_inherited|]).
  by apply elem_of_nil in Hin.
Qed.

Lemma stellarClasses_own stellarClass :
  stellarClass ∈ CONFIG.stellarClasses -> stellarClass ∉ Object_prototype.
Proof.
  intros Hin. unfold CONFIG.stellarClasses in Hin.
  repeat (apply elem_of_cons in Hin as [->|Hin]; [not_inherited|]).
  by apply elem_of_nil in Hin.
Qed.




End Lookup_facts.


(** ** Rotation and the asteroid outline *)

Section Geometry_facts.

Context `{Libm}.

Local Open Scope Q_scope.

Lemma PI_nonzero : ~ Math.PI == 0.
Proof. intros HPI. vm_compute in HPI. discriminate HPI. Qed.

(** A whole turn: the rotation of frame [frames] is twice [Math.PI], the
    rotation of frame 0 is 0. *)
Lemma rotation_full_turn frames : (0 < frames)%Z -> rotation_at frames frames == Math.PI * 2.
Proof.
  intros Hf. unfold rotation_at.
  assert (Hnz : ~ inject_Z frames == 0).
  { change 0 with (inject_Z 0). rewrite inject_Z_injective. lia. }
  field. exact Hnz.
Qed.

Lemma rotation_start frames : rotation_at 0 frames == 0.
Proof. unfold rotation_at. change (inject_Z 0) with 0. unfold Qdiv. ring. Qed.

Lemma irregularity_range rnd :
  0 <= rnd < 1 -> 0.3 <= asteroid_irregularity rnd <= 0.6.
Proof. intros Hr. unfold asteroid_irregularity. lra. Qed.

Lemma baseSize_range rnd : 0 <= rnd < 1 -> (180 <= asteroid_baseSize rnd < 350)%Z.
Proof.
  intros [H0 H1]. unfold asteroid_baseSize, Math.floor.
  change (CONFIG.asteroidSizes_max - CONFIG.asteroidSizes_min)%Z with 170%Z.
  change CONFIG.asteroidSizes_min with 180%Z.
  assert (Hlo : (Qfloor 0 <= Qfloor (rnd * inject_Z 170))%Z).
  { apply Qfloor_resp_le. change (inject_Z 170) with 170. lra. }
  assert (Hhi : (Qfloor (rnd * inject_Z 170) < 170)%Z).
  { rewrite Zlt_Qlt. pose proof (Qfloor_le (rnd * inject_Z 170)) as Hfl.
    change (inject_Z 170) with 170 in *. lra. }
  change (Qfloor 0) with 0%Z in Hlo. lia.
Qed.

End Geometry_facts.

(** C7, as the claim states it, fails: two values of [texU] that are 2
    apart, as those of frame 0 and of frame index [frames] are, do not
    sample the same surface. With seed 12345 the first sample of
    [generatePlanet], [fbm(texU * 2, texV * 2, 0, 8)], is 287/510 at
    [texU = 1/4], [texV = 0] and 1/2 at [texU = 1/4 + 2]: the rotation does
    not come back to the picture it started from. *)
Lemma full_turn_not_seamless :
  let nf := Noise3D_new 12345 in
  let texU := (1 # 4)%Q in
  let texV := 0%Q in
  exists first last,
    fbm nf (texU * 2) (texV * 2) 0 8 0.5 = Some first /\
    fbm nf ((texU + 2) * 2) (texV * 2) 0 8 0.5 = Some last /\
    (first == 287 # 510)%Q /\ (last == 1 # 2)%Q /\ ~ (first == last)%Q.
Proof.
  cbv zeta. eexists. eexists.
  split; [vm_compute; reflexivity|]. split; [vm_compute; reflexivity|].
  split; [vm_compute; reflexivity|]. split; [vm_compute; reflexivity|].
  intros Heq. vm_compute in Heq. discriminate Heq.
Qed.

(** That the two values of [texU] are exactly 2 apart holds in exact
    arithmetic only. In binary64, for a block whose angle [theta] is 1.5,
    the rotation of frame 24 of 24 is twice [Math.PI] to the bit, and
    [(theta + rotation) / Math.PI] is then not [theta / Math.PI + 2]. *)
Section Rounding.

Import Stdlib.Floats.Floats.

Example full_turn_rounded :
  let theta := 1.5%float in
  Binary64.rotation_at 24 24 = (Binary64.PI * 2)%float /\
  Binary64.rotation_at 0 24 = 0%float /\
  Binary64.texU theta (Binary64.rotation_at 24 24) = 0x1.3d1d91495d599p+1%float /\
  (Binary64.texU theta (Binary64.rotation_at 0 24) + 2)%float = 0x1.3d1d91495d598p+1%float.
Proof. cbv zeta. repeat split; vm_compute; reflexivity. Qed.

End Rounding.

(** C7, amended. For planets and moons the rotation of frame index
    [frames] is one whole turn, twice [Math.PI], and the rotation of frame 0
    is 0: [texU] of a block is [(theta + Math.PI * 2) / Math.PI] there and
    [theta / Math.PI] at frame 0, [theta] being the angle of the block,
    which no frame changes. *)
Theorem texU_whole_turn `{Libm} (size frames px py : Z) :
  (0 < frames)%Z ->
  let planet := block_offset size CONFIG.planetPixelSize px py in
  let moon := block_offset size CONFIG.moonPixelSize px py in
  let planet_theta := Math_atan2 (dx planet) (sphere_z planet (planet_radius size)) in
  let moon_theta := Math_atan2 (dx moon) (sphere_z moon (moon_radius size)) in
  (rotation_at frames frames == Math.PI * 2)%Q /\ (rotation_at 0 frames == 0)%Q /\
  (planet_texU size frames frames px py == (planet_theta + Math.PI * 2) / Math.PI)%Q /\
  (planet_texU size frames 0 px py == planet_theta / Math.PI)%Q /\
  (moon_texU size frames frames px py == (moon_theta + Math.PI * 2) / Math.PI)%Q /\
  (moon_texU size frames 0 px py == moon_theta / Math.PI)%Q.
Proof.
  intros Hf planet moon planet_theta moon_theta.
  pose proof (rotation_full_turn frames Hf) as Hturn.
  pose proof (rotation_start frames) as Hstart.
  split; [exact Hturn|]. split; [exact Hstart|].
  unfold planet_texU, moon_texU. cbv zeta.
  fold planet. fold moon. fold planet_theta. fold moon_theta.
  rewrite Hturn, Hstart.
  repeat split; try reflexivity; apply Qdiv_comp; try reflexivity; ring.
Qed.

Lemma texU_whole_turn_witness :
  let planet := @block_offset libm_zero 800 CONFIG.planetPixelSize 130 207 in
  let moon := @block_offset libm_zero 800 CONFIG.moonPixelSize 130 207 in
  let planet_theta :=
    @Math_atan2 libm_zero (dx planet) (@sphere_z libm_zero planet (planet_radius 800)) in
  let moon_theta :=
    @Math_atan2 libm_zero (dx moon) (@sphere_z libm_zero moon (moon_radius 800)) in
  (rotation_at 24 24 == Math.PI * 2)%Q /\ (rotation_at 0 24 == 0)%Q /\
  (@planet_texU libm_zero 800 24 24 130 207 == (planet_theta + Math.PI * 2) / Math.PI)%Q /\
  (@planet_texU libm_zero 800 24 0 130 207 == planet_theta / Math.PI)%Q /\
  (@moon_texU libm_zero 800 24 24 130 207 == (moon_theta + Math.PI * 2) / Math.PI)%Q /\
  (@moon_texU libm_zero 800 24 0 130 207 == moon_theta / Math.PI)%Q.
Proof.
  apply (@texU_whole_turn libm_zero 800 24 130 207). reflexivity.
Defined.

(** C8. For the draws of [Math.random()], numbers at least 0 and below 1:
    the irregularity lies in [0.3, 0.6]; the radius at an angle is
    [baseRadius * (1 + (shapeNoise - 0.5) * irregularity)], where
    [baseRadius] is [baseSize * 0.4] and [shapeNoise] is [fbm], five
    octaves, at [(Math.cos(angle) * 3, Math.sin(angle) * 3, 0)]; and the
    radius lies between [baseRadius * (1 - irregularity)] and
    [baseRadius * (1 + irregularity)]. *)
Theorem asteroid_radius_within `{Libm} (s : Z) (rnd_size rnd_shape angle : Q) :
  (0 <= rnd_size < 1)%Q -> (0 <= rnd_shape < 1)%Q ->
  let nf := Noise3D_new s in
  let baseSize := asteroid_baseSize rnd_size in
  let irregularity := asteroid_irregularity rnd_shape in
  let baseRadius := (inject_Z baseSize * 0.4)%Q in
  (0.3 <= irregularity <= 0.6)%Q /\
  exists shapeNoise radius,
    fbm nf (Math_cos angle * 3) (Math_sin angle * 3) 0 5 0.5 = Some shapeNoise /\
    asteroid_radius nf baseSize irregularity angle = Some radius /\
    (radius == baseRadius * (1 + (shapeNoise - 0.5) * irregularity))%Q /\
    (baseRadius * (1 - irregularity) <= radius <= baseRadius * (1 + irregularity))%Q.
Proof.
  intros Hsize Hshape nf baseSize irregularity baseRadius.
  pose proof (irregularity_range rnd_shape Hshape) as Hirr.
  pose proof (baseSize_range rnd_size Hsize) as Hbase.
  fold baseSize in Hbase. fold irregularity in Hirr.
  split; [exact Hirr|].
  destruct (fbm_bounded nf (wf_perm_new s) (Math_cos angle * 3) (Math_sin angle * 3) 0 5 0.5)
    as (sn & Hsn & Hrange); [lia|lra|].
  exists sn. eexists. split; [exact Hsn|].
  unfold asteroid_radius, asteroid_shapeNoise. rewrite Hsn. cbn [mbind option_bind].
  split; [reflexivity|]. split; [reflexivity|]. fold baseRadius.
  assert (Hpos : (0 <= baseRadius)%Q).
  { unfold baseRadius. assert (inject_Z 180 <= inject_Z baseSize)%Q
      by (rewrite <- Zle_Qle; lia).
    change (inject_Z 180) with 180%Q in *. lra. }
  assert (Hd : (- irregularity <= (sn - 0.5) * irregularity <= irregularity)%Q) by nra.
  assert (Hlo : (0 <= baseRadius * ((sn - 0.5) * irregularity + irregularity))%Q)
    by (apply Qmult_le_0_compat; lra).
  assert (Hhi : (0 <= baseRadius * (irregularity - (sn - 0.5) * irregularity))%Q)
    by (apply Qmult_le_0_compat; lra).
  split; lra.
Qed.

Lemma asteroid_radius_within_witness :
  (0.3 <= asteroid_irregularity (1 # 2) <= 0.6)%Q /\
  exists shapeNoise radius,
    fbm (Noise3D_new 12345) (@Math_cos libm_zero 0 * 3) (@Math_sin libm_zero 0 * 3) 0 5 0.5
    = Some shapeNoise /\
    @asteroid_radius libm_zero (Noise3D_new 12345) (asteroid_baseSize (1 # 2))
                     (asteroid_irregularity (1 # 2)) 0 = Some radius /\
    (radius == inject_Z (asteroid_baseSize (1 # 2)) * 0.4
               * (1 + (shapeNoise - 0.5) * asteroid_irregularity (1 # 2)))%Q /\
    (inject_Z (asteroid_baseSize (1 # 2)) * 0.4 * (1 - asteroid_irregularity (1 # 2))
     <= radius
     <= inject_Z (asteroid_baseSize (1 # 2)) * 0.4 * (1 + asteroid_irregularity (1 # 2)))%Q.
Proof.
  apply (@asteroid_radius_within libm_zero 12345 (1 # 2) (1 # 2) 0); lra.
Defined.

(** ** The planet atlas *)

Section Planet_block_facts.

Context `{Libm}.

Local Open Scope Q_scope.

Variables (type : string) (colors : gmap string (list string)) (nf : Noise3D).
Variables (size frames : Z).
Hypothesis Hwf : wf_perm (perm nf).
Hypothesis Hcol : planet_colors_for type = Some (Own colors).

(** A block inside the disc is styled with numbers, and with [a = 255]. *)
Lemma planet_surface_total frame px py :
  exists r g b,
    planet_surface type colors nf size frames frame px py
    = Some {| Color.R := r; Color.G := g; Color.B := b; Color.A := 255 |}.
Proof using Hwf Hcol.
  unfold planet_surface. cbv zeta.
  repeat match goal with
         | |- context [fbm nf ?x ?y ?z ?o ?p ≫= _] =>
             let v := fresh "v" in let Hv := fresh "Hv" in
             destruct (fbm_bounded nf Hwf x y z o p) as (v & Hv & _);
             [lia | lra | rewrite Hv; cbn [mbind option_bind]]
         end.
  match goal with
  | |- context [getPlanetSurfaceColor type ?e ?m ?t colors _ ?u ?v ?l nf] =>
      destruct (getPlanetSurfaceColor_total type colors nf e m t u v l Hwf Hcol)
        as [surfaceColor Hsurf]
  end.
  rewrite Hsurf. cbn [mbind option_bind].
  destruct (if hasAtmosphere type then colors !! "cloud" else None) as [cloud|].
  - cbn [mbind option_bind].
    match goal with |- context [ltQ 0.6 ?cn] => destruct (ltQ 0.6 cn) end;
      cbn [mbind option_bind]; by repeat eexists.
  - cbn [mbind option_bind]. by repeat eexists.
Qed.

(** Outside the band of the glow the four variables stay 0. *)
Lemma planet_glow_none o radius :
  hasAtmosphere type = false \/ dist o <= radius \/ radius * 1.15 <= dist o ->
  Color.A (planet_glow type o radius) = 0.
Proof.
  intros Hout. unfold planet_glow.
  destruct (hasAtmosphere type); cbn [andb]; [|done].
  destruct (ltQ_spec radius (dist o)); cbn [andb]; [|done].
  destruct (ltQ_spec (dist o) (radius * 1.15)); [|done].
  destruct Hout as [|[|]]; [done|lra|lra].
Qed.

(** What a block is styled with, by its distance from the centre. *)
Lemma planet_block_total frame px py :
  let o := block_offset size CONFIG.planetPixelSize px py in
  let radius := planet_radius size in
  exists c, planet_block type colors nf size frames frame px py = Some c /\
            (dist o <= radius -> Color.A c = 255) /\
            (radius < dist o ->
             hasAtmosphere type = false \/ radius * 1.15 <= dist o -> Color.A c = 0).
Proof using Hwf Hcol.
  intros o radius. unfold planet_block. cbv zeta. fold o. fold radius.
  destruct (leQ_spec (dist o) radius) as [Hin|Hout].
  - destruct (planet_surface_total frame px py) as (r & g & b & ->).
    eexists. split; [reflexivity|]. split; [intros _; reflexivity|]. intros Hlt. lra.
  - eexists. split; [reflexivity|]. split; [intros Hin; contradiction|]. intros _ Hband.
    apply planet_glow_none. tauto.
Qed.

End Planet_block_facts.

Section Painting_facts.

Local Open Scope Q_scope.

Variable blk : Z -> Z -> Z -> option Color.rgba.
Variables size pixelSize : Z.
Variables w h : Z.
Hypothesis blk_total : forall frame px py, is_Some (blk frame px py).

Lemma painted_ext (D D' : Z -> Z -> Z -> Prop) cv :
  (forall f p q, D f p q <-> D' f p q) ->
  painted blk size pixelSize D w h cv -> painted blk size pixelSize D' w h cv.
Proof.
  intros Hext (Hw & Hh & Hop & Htr). repeat split; [done|done| |].
  - intros f p q c X Y HD. apply Hop. by apply Hext.
  - intros X Y Hne. destruct (Htr X Y Hne) as (f & p & q & c & HD & Hrest).
    exists f, p, q, c. split; [by apply Hext|done].
Qed.

Lemma painted_start : painted blk size pixelSize (fun _ _ _ => False) w h (createCanvas w h).
Proof.
  repeat split; [intros; contradiction|].
  intros X Y Hne. exfalso. apply Hne. reflexivity.
Qed.

Lemma style_alpha_opaque a : a == 255 -> style_alpha a == 1.
Proof.
  intros Ha. unfold style_alpha, Math.min, Math.max.
  assert (Hq : a / 255 == 1) by (rewrite Ha; reflexivity).
  rewrite Hq. reflexivity.
Qed.

(** Going through one more block keeps the canvas painted. *)
Lemma draw_block_painted D cv frame px py c :
  painted blk size pixelSize D w h cv -> blk frame px py = Some c ->
  painted blk size pixelSize
          (fun f p q => D f p q \/ (f = frame /\ p = px /\ q = py)) w h
          (draw_block cv c (frame * size) px py pixelSize).
Proof.
  intros (Hw & Hh & Hop & Htr) Hblk. unfold draw_block.
  destruct (ltQ_spec 0 (Color.A c)) as [Hdrawn|Hblank].
  - split; [exact Hw|]. split; [exact Hh|]. split.
    + intros f p q c' X Y HD Hc' HA Hin HX HY. cbn [alpha fillRect].
      case_bool_decide as Hrect.
      * destruct HD as [HD|(-> & -> & ->)].
        -- rewrite (Hop f p q c' X Y HD Hc' HA Hin HX HY). ring.
        -- assert (c' = c) as -> by congruence.
           rewrite (style_alpha_opaque _ HA). ring.
      * destruct HD as [HD|(-> & -> & ->)]; [by eapply Hop|].
        exfalso. apply Hrect. unfold in_block in Hin. rewrite Hw, Hh. lia.
    + intros X Y Hne. cbn [alpha fillRect] in Hne.
      case_bool_decide as Hrect.
      * exists frame, px, py, c. split; [by right|]. split; [done|]. split; [done|].
        unfold in_block. lia.
      * destruct (Htr X Y Hne) as (f & p & q & c' & HD & Hrest).
        exists f, p, q, c'. split; [by left|done].
  - split; [exact Hw|]. split; [exact Hh|]. split.
    + intros f p q c' X Y [HD|(-> & -> & ->)] Hc' HA Hin HX HY; [by eapply Hop|].
      assert (c' = c) as -> by congruence. lra.
    + intros X Y Hne. destruct (Htr X Y Hne) as (f & p & q & c' & HD & Hrest).
      exists f, p, q, c'. split; [by left|done].
Qed.

(** A loop whose rounds each go through the blocks [E j] goes through all
    of them. *)
Lemma for_range_painted (E : Z -> Z -> Z -> Z -> Prop) body :
  (forall j D cv, painted blk size pixelSize D w h cv ->
     exists cv', body j cv = Some cv' /\
                 painted blk size pixelSize (fun f p q => D f p q \/ E j f p q) w h cv') ->
  forall n i D cv, painted blk size pixelSize D w h cv ->
     exists cv', for_range body i n cv = Some cv' /\
                 painted blk size pixelSize
                   (fun f p q => D f p q \/
                                 exists j, (i <= j < i + Z.of_nat n)%Z /\ E j f p q)
                   w h cv'.
Proof.
  intros Hbody n. induction n as [|n IH]; intros i D cv Hcv.
  - exists cv. split; [done|]. eapply painted_ext; [|exact Hcv].
    intros f p q. split; [tauto|]. intros [?|(j & ? & _)]; [done|lia].
  - simpl for_range. destruct (Hbody i D cv Hcv) as (cv1 & -> & H1).
    cbn [mbind option_bind].
    destruct (IH (i + 1)%Z _ cv1 H1) as (cv' & -> & H').
    exists cv'. split; [done|]. eapply painted_ext; [|exact H'].
    intros f p q. split.
    + intros [[HD|HE]|(j & Hj & HE)]; [tauto| |].
      * right. exists i. split; [lia|done].
      * right. exists j. split; [lia|done].
    + intros [HD|(j & Hj & HE)]; [tauto|].
      destruct (decide (j = i)) as [->|Hne]; [by left; right|].
      right. exists j. split; [lia|done].
Qed.

(** The three loops go through every block of the atlas. *)
Lemma paint_frames_painted pixelWidth pixelHeight frames :
  exists cv, paint_frames blk size pixelSize pixelWidth pixelHeight frames (createCanvas w h)
             = Some cv /\
             painted blk size pixelSize (all_blocks pixelWidth pixelHeight frames) w h cv.
Proof.
  set (step := fun frame py px (cv : canvas) =>
                 c ← blk frame px py;
                 Some (draw_block cv c (frame * size) px py pixelSize)).
  set (row := fun frame py cv => for_range (step frame py) 0%Z (Z.to_nat pixelWidth) cv).
  set (grid := fun frame cv => for_range (row frame) 0%Z (Z.to_nat pixelHeight) cv).
  set (Estep := fun frame py px (f p q : Z) => f = frame /\ p = px /\ q = py).
  set (Erow := fun frame py (f p q : Z) =>
                 exists px, (0 <= px < 0 + Z.of_nat (Z.to_nat pixelWidth))%Z /\
                            Estep frame py px f p q).
  set (Egrid := fun frame (f p q : Z) =>
                  exists py, (0 <= py < 0 + Z.of_nat (Z.to_nat pixelHeight))%Z /\
                             Erow frame py f p q).
  assert (Hstep : forall frame py px D cv,
             painted blk size pixelSize D w h cv ->
             exists cv', step frame py px cv = Some cv' /\
                         painted blk size pixelSize
                                 (fun f p q => D f p q \/ Estep frame py px f p q) w h cv').
  { intros frame py px D cv Hcv. unfold step.
    destruct (blk_total frame px py) as [c Hc]. rewrite Hc. cbn [mbind option_bind].
    eexists. split; [reflexivity|]. by apply draw_block_painted. }
  assert (Hrow : forall frame py D cv,
             painted blk size pixelSize D w h cv ->
             exists cv', row frame py cv = Some cv' /\
                         painted blk size pixelSize
                                 (fun f p q => D f p q \/ Erow frame py f p q) w h cv').
  { intros frame py D cv Hcv.
    exact (for_range_painted (Estep frame py) (step frame py) (Hstep frame py)
             (Z.to_nat pixelWidth) 0%Z D cv Hcv). }
  assert (Hgrid : forall frame D cv,
             painted blk size pixelSize D w h cv ->
             exists cv', grid frame cv = Some cv' /\
                         painted blk size pixelSize
                                 (fun f p q => D f p q \/ Egrid frame f p q) w h cv').
  { intros frame D cv Hcv.
    exact (for_range_painted (Erow frame) (row frame) (Hrow frame)
             (Z.to_nat pixelHeight) 0%Z D cv Hcv). }
  destruct (for_range_painted Egrid grid Hgrid (Z.to_nat frames) 0%Z
              (fun _ _ _ => False) (createCanvas w h) painted_start) as (cv & Hcv & Hp).
  exists cv. split; [exact Hcv|]. eapply painted_ext; [|exact Hp].
  intros f p q. unfold all_blocks, Egrid, Erow, Estep. split.
  - intros [[]|(j & Hj & py & Hpy & px & Hpx & -> & -> & ->)]. lia.
  - intros (Hf & Hp' & Hq). right. exists f. split; [lia|].
    exists q. split; [lia|]. exists p. split; [lia|done].
Qed.

End Painting_facts.

Section Atlas_facts.

Context `{Libm}.

Local Open Scope Q_scope.

(** The sizes of the table are positive and even. *)
Lemma planetSizes_even type size :
  CONFIG.planetSizes !! type = Some size -> exists k, (0 < k)%Z /\ size = (2 * k)%Z.
Proof.
  intros Hsize. apply elem_of_list_to_map_2 in Hsize.
  repeat (apply elem_of_cons in Hsize as [[= _ ->]|Hsize];
          [match goal with
           | |- exists k, _ /\ ?s = _ => exists (s / 2)%Z; split; reflexivity
           end|]).
  by apply elem_of_nil in Hsize.
Qed.

(** Every type of the list has a size in the table. *)
Lemma planetTypes_sized type :
  type ∈ CONFIG.planetTypes -> is_Some (CONFIG.planetSizes !! type).
Proof.
  intros Hin. unfold CONFIG.planetTypes in Hin.
  repeat (apply elem_of_cons in Hin as [->|Hin]; [eexists; vm_compute; reflexivity|]).
  by apply elem_of_nil in Hin.
Qed.

Lemma pixel_count_even k : pixel_count (2 * k) 2 = k.
Proof.
  unfold pixel_count.
  assert (Hq : inject_Z (2 * k) / inject_Z 2 == inject_Z k).
  { rewrite inject_Z_mult. field. }
  rewrite (Qceiling_comp _ _ Hq). apply Qceiling_Z.
Qed.

(** With an even size the squares of the blocks do not overlap. *)
Lemma in_block_unique k frame px py frame' px' py' X Y :
  (0 < k)%Z -> (0 <= px < k)%Z -> (0 <= px' < k)%Z ->
  in_block (2 * k) 2 frame px py X Y -> in_block (2 * k) 2 frame' px' py' X Y ->
  frame = frame' /\ px = px' /\ py = py'.
Proof.
  unfold in_block. intros Hk Hpx Hpx' [HX HY] [HX' HY'].
  assert (frame = frame') as -> by nia.
  split; [done|]. lia.
Qed.

(** The pixels of a block inside the atlas lie on the canvas. *)
Lemma in_block_on_canvas k frames frame px py X Y :
  (0 < k)%Z -> (0 <= frame < frames)%Z -> (0 <= px < k)%Z -> (0 <= py < k)%Z ->
  in_block (2 * k) 2 frame px py X Y ->
  (0 <= X < 2 * k * frames)%Z /\ (0 <= Y < 2 * k)%Z.
Proof. unfold in_block. intros Hk Hf Hpx Hpy [HX HY]. split; nia. Qed.

Lemma planet_frames_paint type colors nf size frames cv :
  planet_frames type colors nf size frames cv
  = paint_frames (fun frame px py => planet_block type colors nf size frames frame px py)
                 size CONFIG.planetPixelSize
                 (pixel_count size CONFIG.planetPixelSize)
                 (pixel_count size CONFIG.planetPixelSize) frames cv.
Proof. reflexivity. Qed.

Lemma planet_radius_pos k : (0 < k)%Z -> 0 < planet_radius (2 * k).
Proof.
  intros Hk. unfold planet_radius.
  assert (inject_Z 0 < inject_Z (2 * k)) by (rewrite <- Zlt_Qlt; lia).
  change (inject_Z 0) with 0 in *. lra.
Qed.

End Atlas_facts.

(** C6. For every planet type of the configuration, [generatePlanet]
    returns an atlas [size * frames] wide and [size] high, [size] being the
    size of the type. In it every pixel of a block whose distance [dist]
    from the centre is at most [radius] is fully opaque, and every pixel of
    a block with [dist] at least [radius * 1.15], the outer edge of the
    glow, is fully transparent; on a planet without atmosphere so is every
    pixel of a block with [dist] above [radius]. *)
Theorem planet_atlas `{Libm} (type : string) (index : Z) (rnd : Q) :
  type ∈ CONFIG.planetTypes ->
  exists size cv,
    CONFIG.planetSizes !! type = Some size /\
    generatePlanet type index rnd = Some cv /\
    width cv = (size * CONFIG.planetFrames)%Z /\ height cv = size /\
    forall frame px py X Y,
      (0 <= frame < CONFIG.planetFrames)%Z ->
      (0 <= px < pixel_count size CONFIG.planetPixelSize)%Z ->
      (0 <= py < pixel_count size CONFIG.planetPixelSize)%Z ->
      in_block size CONFIG.planetPixelSize frame px py X Y ->
      let o := block_offset size CONFIG.planetPixelSize px py in
      ((dist o <= planet_radius size)%Q -> (alpha cv X Y == 1)%Q) /\
      ((planet_radius size * 1.15 <= dist o)%Q -> (alpha cv X Y == 0)%Q) /\
      (hasAtmosphere type = false -> (planet_radius size < dist o)%Q ->
       (alpha cv X Y == 0)%Q).
Proof.
  intros Htype. destruct (planetTypes_sized type Htype) as [size Hsize].
  exists size. destruct (planetSizes_even type size Hsize) as (k & Hk & ->).
  unfold generatePlanet. rewrite Hsize. cbn [mbind option_bind].
  rewrite (planet_colors_for_total type (planetTypes_own type Htype)).
  cbn [mbind option_bind palette_of].
  set (colors := default terran_palette (PLANET_COLORS !! type)).
  set (nf := Noise3D_new _).
  assert (Hwf : wf_perm (perm nf)) by apply wf_perm_new.
  assert (Hcol : planet_colors_for type = Some (Own colors))
    by apply (planet_colors_for_total type (planetTypes_own type Htype)).
  rewrite planet_frames_paint.
  set (blk := fun frame px py =>
                planet_block type colors nf (2 * k) CONFIG.planetFrames frame px py).
  assert (Htotal : forall frame px py, is_Some (blk frame px py)).
  { intros frame px py.
    destruct (planet_block_total type colors nf (2 * k) CONFIG.planetFrames Hwf Hcol
                frame px py) as (c & Hc & _).
    by exists c. }
  destruct (paint_frames_painted blk (2 * k) CONFIG.planetPixelSize
              (2 * k * CONFIG.planetFrames) (2 * k) Htotal
              (pixel_count (2 * k) CONFIG.planetPixelSize)
              (pixel_count (2 * k) CONFIG.planetPixelSize) CONFIG.planetFrames)
    as (cv & Hcv & Hw & Hh & Hopaque & Hclear).
  exists cv. split; [reflexivity|]. split; [exact Hcv|]. split; [exact Hw|].
  split; [exact Hh|].
  change CONFIG.planetPixelSize with 2%Z in *. rewrite pixel_count_even in *.
  intros frame px py X Y Hframe Hpx Hpy Hin.
  destruct (planet_block_total type colors nf (2 * k) CONFIG.planetFrames Hwf Hcol
              frame px py) as (c & Hc & Hinside & Houtside).
  change CONFIG.planetPixelSize with 2%Z in *.
  set (o := block_offset (2 * k) 2 px py) in *.
  destruct (in_block_on_canvas k CONFIG.planetFrames frame px py X Y Hk Hframe Hpx Hpy Hin)
    as [HX HY].
  pose proof (planet_radius_pos k Hk) as Hrad.
  assert (Hblank : Color.A c = 0%Q -> (alpha cv X Y == 0)%Q).
  { intros Hzero. destruct (Qeq_dec (alpha cv X Y) 0) as [|Hne]; [done|].
    destruct (Hclear X Y Hne) as (f' & p' & q' & c' & (Hf' & Hp' & Hq') & Hc' & Hdrawn & Hin').
    destruct (in_block_unique k frame px py f' p' q' X Y Hk Hpx Hp' Hin Hin')
      as (<- & <- & <-).
    unfold blk in Hc'. rewrite Hc in Hc'. injection Hc' as <-.
    rewrite Hzero in Hdrawn. destruct (Qlt_irrefl 0 Hdrawn). }
  split; [|split].
  - intros Hdist.
    apply (Hopaque frame px py c X Y);
      [split; [exact Hframe|split; [exact Hpx|exact Hpy]] | exact Hc | | exact Hin
       | exact HX | exact HY].
    rewrite (Hinside Hdist). reflexivity.
  - intros Hdist. apply Hblank, Houtside; [lra|by right].
  - intros Hatm Hdist. apply Hblank, Houtside; [done|by left].
Qed.

Lemma planet_atlas_witness :
  exists size cv,
    CONFIG.planetSizes !! "terran" = Some size /\
    @generatePlanet libm_zero "terran" 0 0 = Some cv /\
    width cv = (size * CONFIG.planetFrames)%Z /\ height cv = size /\
    forall frame px py X Y,
      (0 <= frame < CONFIG.planetFrames)%Z ->
      (0 <= px < pixel_count size CONFIG.planetPixelSize)%Z ->
      (0 <= py < pixel_count size CONFIG.planetPixelSize)%Z ->
      in_block size CONFIG.planetPixelSize frame px py X Y ->
      let o := @block_offset libm_zero size CONFIG.planetPixelSize px py in
      ((dist o <= planet_radius size)%Q -> (alpha cv X Y == 1)%Q) /\
      ((planet_radius size * 1.15 <= dist o)%Q -> (alpha cv X Y == 0)%Q) /\
      (hasAtmosphere "terran" = false -> (planet_radius size < dist o)%Q ->
       (alpha cv X Y == 0)%Q).
Proof.
  apply (@planet_atlas libm_zero "terran" 0 0). apply list_elem_of_here.
Defined.

(** ** More on the noise primitive *)

Section Noise_more.

Local Open Scope Q_scope.

Lemma grad_origin h : grad h 0 0 0 == 0.
Proof.
  unfold grad.
  repeat match goal with |- context [if ?c then _ else _] => destruct c end; reflexivity.
Qed.

Lemma blend8_corner g000 g100 g010 g110 g001 g101 g011 g111 u v w :
  u == 0 -> v == 0 -> w == 0 ->
  blend8 g000 g100 g010 g110 g001 g101 g011 g111 u v w == g000.
Proof. intros Hu Hv Hw. unfold blend8, lerp. rewrite Hu, Hv, Hw. ring. Qed.

Lemma Qfloor_unique x (n : Z) : inject_Z n <= x -> x < inject_Z (n + 1) -> Qfloor x = n.
Proof.
  intros Hlo Hhi.
  pose proof (Qfloor_le x) as H1. pose proof (Qlt_floor x) as H2.
  assert (Ha : (n < Qfloor x + 1)%Z) by (rewrite Zlt_Qlt; lra).
  assert (Hb : (Qfloor x < n + 1)%Z) by (rewrite Zlt_Qlt; lra).
  lia.
Qed.

Lemma Qfloor_shift x (m : Z) : Qfloor (x + inject_Z m) = (Qfloor x + m)%Z.
Proof.
  apply Qfloor_unique.
  - rewrite inject_Z_plus. pose proof (Qfloor_le x). lra.
  - rewrite !inject_Z_plus. pose proof (Qlt_floor x) as H2.
    rewrite inject_Z_plus in H2. lra.
Qed.

Lemma frac_integral x : integral x -> frac x == 0.
Proof.
  intros [i Hi]. unfold frac, Math.floor.
  rewrite (Qfloor_comp _ _ Hi), Qfloor_Z, Hi. ring.
Qed.

Lemma frac_shift x (m : Z) : frac (x + inject_Z m) == frac x.
Proof. unfold frac, Math.floor. rewrite Qfloor_shift, inject_Z_plus. ring. Qed.

Lemma cell_shift x (m : Z) : cell (x + inject_Z (256 * m)) = cell x.
Proof.
  unfold cell, Math.floor. rewrite Qfloor_shift.
  change 255%Z with (Z.ones 8). rewrite !Z.land_ones by lia.
  change (2 ^ 8)%Z with 256%Z. rewrite (Z.mul_comm 256 m). apply Z.mod_add. lia.
Qed.

(** Samples whose cells and offsets agree are the same number. *)
Lemma noise_cell_frac nf x y z x' y' z' :
  cell x = cell x' -> cell y = cell y' -> cell z = cell z' ->
  frac x == frac x' -> frac y == frac y' -> frac z == frac z' ->
  option_Forall2 Qeq (noise nf x y z) (noise nf x' y' z').
Proof.
  intros Cx Cy Cz Fx Fy Fz. unfold noise. cbv zeta. rewrite <- Cx, <- Cy, <- Cz.
  repeat match goal with
         | |- context [Uint8Array.get ?t ?i ≫= _] =>
             destruct (Uint8Array.get t i); cbn [mbind option_bind]; [|constructor]
         end.
  constructor.
  repeat apply lerp_comp; try apply grad_comp; try apply fade_comp;
    rewrite ?Fx, ?Fy, ?Fz; reflexivity.
Qed.

(** On a well-formed table the sample at a lattice point is 0. *)
Lemma noise_lattice_wf nf x y z :
  wf_perm (perm nf) -> integral x -> integral y -> integral z ->
  exists v, noise nf x y z = Some v /\ v == 0.
Proof.
  intros Hwf Hx%frac_integral Hy%frac_integral Hz%frac_integral.
  destruct (noise_defined nf x y z Hwf)
    as (h000 & h100 & h010 & h110 & h001 & h101 & h011 & h111 & ->).
  eexists. split; [reflexivity|].
  rewrite blend8_corner.
  - rewrite (grad_comp h000 _ 0 _ 0 _ 0 Hx Hy Hz). apply grad_origin.
  - by rewrite (fade_comp _ 0 Hx).
  - by rewrite (fade_comp _ 0 Hy).
  - by rewrite (fade_comp _ 0 Hz).
Qed.

End Noise_more.

(** X1. For every seed, the sample at a point whose three coordinates are
    integers is 0: there every offset from the near corner is 0 and the far
    corners weigh nothing. *)
Theorem noise_zero_on_lattice (s : Z) (i j k : Z) :
  exists v, noise (Noise3D_new s) (inject_Z i) (inject_Z j) (inject_Z k) = Some v
            /\ (v == 0)%Q.
Proof.
  apply noise_lattice_wf; [apply wf_perm_new|..]; eexists; reflexivity.
Qed.

(** X2. The field repeats every 256 units along each axis: shifting the
    coordinates by multiples of 256 leaves the sample as it is, a number
    equal to the one before or nothing in both cases. *)
Theorem noise_period_256 (nf : Noise3D) (x y z : Q) (a b c : Z) :
  option_Forall2 Qeq
    (noise nf (x + inject_Z (256 * a)) (y + inject_Z (256 * b)) (z + inject_Z (256 * c)))
    (noise nf x y z).
Proof.
  apply noise_cell_frac; first [apply cell_shift | apply frac_shift].
Qed.

(** ** More on the octave loops *)

Section Octaves_more.

Local Open Scope Q_scope.

Variable nf : Noise3D.
Hypothesis Hwf : wf_perm (perm nf).

Lemma fbm_step_some x y z persistence st v :
  noise nf (x * frequency st) (y * frequency st) (z * frequency st) = Some v ->
  fbm_step nf x y z persistence st
  = Some {| value := value st + v * amplitude st;
            maxValue := maxValue st + amplitude st;
            amplitude := amplitude st * persistence;
            frequency := frequency st * 2 |}.
Proof. intros Hv. unfold fbm_step. by rewrite Hv. Qed.

Lemma turbulence_step_some x y z st v :
  noise nf (x * frequency st) (y * frequency st) (z * frequency st) = Some v ->
  turbulence_step nf x y z st
  = Some {| value := value st + Math.abs v * amplitude st;
            maxValue := maxValue st + amplitude st;
            amplitude := amplitude st * 0.5;
            frequency := frequency st * 2 |}.
Proof. intros Hv. unfold turbulence_step. by rewrite Hv. Qed.

Lemma ridged_step_some x y z st v :
  noise nf (x * Ridged.frequency st) (y * Ridged.frequency st) (z * Ridged.frequency st)
  = Some v ->
  ridged_step nf x y z st
  = Some {| Ridged.weight :=
              Math.min 1 (Math.max 0
                ((1 - Math.abs v) * ((1 - Math.abs v) * Ridged.weight st) * 2));
            Ridged.value :=
              Ridged.value st
              + (1 - Math.abs v) * ((1 - Math.abs v) * Ridged.weight st)
                * Ridged.amplitude st;
            Ridged.amplitude := Ridged.amplitude st * 0.5;
            Ridged.frequency := Ridged.frequency st * 2 |}.
Proof. intros Hv. unfold ridged_step. by rewrite Hv. Qed.

(** The loop of [fbm] adds the total amplitude of its octaves, scaled by
    the amplitude it starts with. *)
Lemma fbm_loop_amplitude x y z persistence octaves : forall st,
  exists st', octaves_loop (fbm_step nf x y z persistence) octaves st = Some st' /\
              maxValue st' == maxValue st + amplitude st * total_amplitude persistence octaves.
Proof using Hwf.
  induction octaves as [|n IH]; intros st; cbn [octaves_loop].
  - exists st. split; [done|]. cbn [total_amplitude]. ring.
  - destruct (noise_bounded nf (x * frequency st) (y * frequency st) (z * frequency st) Hwf)
      as (v & Hv & _). rewrite (fbm_step_some _ _ _ _ _ _ Hv). cbn [mbind option_bind].
    match goal with |- context [octaves_loop _ n ?st1] => destruct (IH st1) as (st' & -> & Hm) end.
    exists st'. split; [done|]. rewrite Hm. cbn [maxValue amplitude total_amplitude]. ring.
Qed.

Lemma div_none a b : Math.div a b = None <-> b == 0.
Proof.
  unfold Math.div. destruct (Qeq_bool b 0) eqn:E.
  - split; [intros _; by apply Qeq_bool_eq|done].
  - split; [done|]. intros Hb. apply Qeq_eq_bool in Hb. congruence.
Qed.

Lemma fbm_none x y z octaves persistence :
  fbm nf x y z octaves persistence = None <-> total_amplitude persistence octaves == 0.
Proof using Hwf.
  unfold fbm.
  destruct (fbm_loop_amplitude x y z persistence octaves
              {| value := 0; amplitude := 1; frequency := 1; maxValue := 0 |})
    as (st & -> & Hm). cbn [mbind option_bind maxValue amplitude] in *.
  assert (Hm' : maxValue st == total_amplitude persistence octaves) by (rewrite Hm; ring).
  destruct (Math.div (value st) (maxValue st)) as [q|] eqn:Hq; cbn [mbind option_bind].
  - split; [done|]. intros Hz. rewrite <- Hm' in Hz.
    apply (proj2 (div_none (value st) (maxValue st))) in Hz. congruence.
  - split; [|done]. intros _. rewrite <- Hm'.
    exact (proj1 (div_none (value st) (maxValue st)) Hq).
Qed.

(** A lattice point stays one when the frequency doubles. *)
Lemma integral_scale x f : integral x -> integral f -> integral (x * f).
Proof.
  intros [i Hi] [k Hk]. exists (i * k)%Z. by rewrite Hi, Hk, inject_Z_mult.
Qed.

Lemma integral_double f : integral f -> integral (f * 2).
Proof. intros Hf. apply integral_scale; [done|]. by exists 2%Z. Qed.

(** On the lattice every octave of [fbm] adds 0. *)
Lemma fbm_loop_lattice x y z persistence octaves : forall st,
  integral x -> integral y -> integral z -> integral (frequency st) -> value st == 0 ->
  exists st', octaves_loop (fbm_step nf x y z persistence) octaves st = Some st' /\
              value st' == 0.
Proof using Hwf.
  induction octaves as [|n IH]; intros st Hx Hy Hz Hf Hv; cbn [octaves_loop].
  - by exists st.
  - destruct (noise_lattice_wf nf (x * frequency st) (y * frequency st) (z * frequency st) Hwf)
      as (v & Hn & Hv0); [by apply integral_scale..|].
    rewrite (fbm_step_some _ _ _ _ _ _ Hn). cbn [mbind option_bind].
    apply IH; try done; cbn [frequency value].
    + by apply integral_double.
    + rewrite Hv, Hv0. ring.
Qed.

Lemma turbulence_loop_lattice x y z octaves : forall st,
  integral x -> integral y -> integral z -> integral (frequency st) -> value st == 0 ->
  exists st', octaves_loop (turbulence_step nf x y z) octaves st = Some st' /\
              value st' == 0.
Proof using Hwf.
  induction octaves as [|n IH]; intros st Hx Hy Hz Hf Hv; cbn [octaves_loop].
  - by exists st.
  - destruct (noise_lattice_wf nf (x * frequency st) (y * frequency st) (z * frequency st) Hwf)
      as (v & Hn & Hv0); [by apply integral_scale..|].
    rewrite (turbulence_step_some _ _ _ _ _ Hn). cbn [mbind option_bind].
    apply IH; try done; cbn [frequency value].
    + by apply integral_double.
    + unfold Math.abs. rewrite Hv, Hv0. reflexivity.
Qed.

(** On the lattice every octave of [ridged] adds its whole amplitude, and
    the weight stays 1. *)
Lemma ridged_loop_lattice x y z octaves : forall st,
  integral x -> integral y -> integral z ->
  integral (Ridged.frequency st) -> Ridged.weight st == 1 ->
  exists st', octaves_loop (ridged_step nf x y z) octaves st = Some st' /\
              Ridged.value st'
              == Ridged.value st + Ridged.amplitude st * total_amplitude (1 # 2) octaves.
Proof using Hwf.
  induction octaves as [|n IH]; intros st Hx Hy Hz Hf Hw; cbn [octaves_loop].
  - exists st. split; [done|]. cbn [total_amplitude]. ring.
  - destruct (noise_lattice_wf nf (x * Ridged.frequency st) (y * Ridged.frequency st)
                (z * Ridged.frequency st) Hwf)
      as (v & Hn & Hv0); [by apply integral_scale..|].
    rewrite (ridged_step_some _ _ _ _ _ Hn). cbn [mbind option_bind].
    assert (Hsig : (1 - Math.abs v) * ((1 - Math.abs v) * Ridged.weight st) == 1).
    { unfold Math.abs. rewrite Hv0, Hw. reflexivity. }
    match goal with |- context [octaves_loop _ n ?st1] =>
      destruct (IH st1) as (st' & -> & Hm); try done
    end.
    + cbn [Ridged.frequency]. by apply integral_double.
    + cbn [Ridged.weight]. unfold Math.min, Math.max. apply Q.min_l.
      eapply Qle_trans; [|apply Q.le_max_r]. rewrite Hsig. discriminate.
    + exists st'. split; [done|]. rewrite Hm.
      cbn [Ridged.value Ridged.amplitude total_amplitude]. rewrite Hsig. ring.
Qed.

Lemma total_amplitude_cancel pairs : total_amplitude (- (1)) (2 * pairs) == 0.
Proof.
  induction pairs as [|n IH]; [reflexivity|].
  replace (2 * S n)%nat with (S (S (2 * n))) by lia.
  cbn [total_amplitude]. rewrite IH. ring.
Qed.

Lemma total_amplitude_half octaves :
  total_amplitude (1 # 2) octaves == 2 - 2 * (1 # 2) ^ Z.of_nat octaves.
Proof.
  induction octaves as [|n IH]; [reflexivity|].
  cbn [total_amplitude]. rewrite IH, Nat2Z.inj_succ. unfold Z.succ.
  rewrite Qpower_plus by discriminate. change ((1 # 2) ^ 1) with (1 # 2). ring.
Qed.

Lemma half_power_range (n : nat) : 0 < (1 # 2) ^ Z.of_nat n <= 1.
Proof.
  induction n as [|n IH]; [split; [reflexivity|discriminate]|].
  rewrite Nat2Z.inj_succ. unfold Z.succ.
  rewrite Qpower_plus by discriminate. change ((1 # 2) ^ 1) with (1 # 2). lra.
Qed.

End Octaves_more.

(** X4. [fbm] does not guard its quotient: with persistence -1 and an
    even number of octaves, none included, the amplitudes 1, -1, 1, -1, ...
    cancel, [maxValue] is 0, and what [fbm] returns is no finite number,
    for every seed and every input. *)
Theorem fbm_amplitudes_cancel (s : Z) (x y z : Q) (pairs : nat) :
  fbm (Noise3D_new s) x y z (2 * pairs) (- (1)) = None.
Proof.
  apply fbm_none; [apply wf_perm_new|]. apply total_amplitude_cancel.
Qed.

(** X5. At a point whose coordinates are integers all octaves sample the
    lattice. For integers up to 2^53 in size, which are doubles, and from 1
    to 53 octaves, where the sums below are formed without rounding and no
    product overflows: [fbm] is 1/2 when its persistence lies in [0,1],
    [turbulence] is 0, and [ridged] is [1 - (1/2) ^ octaves]. *)
Theorem fractals_on_lattice (s : Z) (i j k : Z) (octaves : nat) (persistence : Q) :
  (1 <= octaves <= 53)%nat ->
  safe_integer i -> safe_integer j -> safe_integer k ->
  (0 <= persistence <= 1)%Q ->
  let nf := Noise3D_new s in
  (exists v, fbm nf (inject_Z i) (inject_Z j) (inject_Z k) octaves persistence = Some v
             /\ (v == 1 # 2)%Q) /\
  (exists v, turbulence nf (inject_Z i) (inject_Z j) (inject_Z k) octaves = Some v
             /\ (v == 0)%Q) /\
  (exists v, ridged nf (inject_Z i) (inject_Z j) (inject_Z k) octaves = Some v
             /\ (v == 1 - (1 # 2) ^ Z.of_nat octaves)%Q).
Proof.
  intros [Ho _] _ _ _ [Hp _] nf. pose proof (wf_perm_new s : wf_perm (perm nf)) as Hwf.
  assert (Hi : integral (inject_Z i)) by by exists i.
  assert (Hj : integral (inject_Z j)) by by exists j.
  assert (Hk : integral (inject_Z k)) by by exists k.
  assert (H1 : integral 1) by by exists 1%Z.
  split; [|split].
  - destruct (fbm_bounded nf Hwf (inject_Z i) (inject_Z j) (inject_Z k) octaves persistence
                Ho Hp) as (v & Hv & _).
    exists v. split; [done|]. revert Hv. unfold fbm.
    destruct (fbm_loop_lattice nf Hwf (inject_Z i) (inject_Z j) (inject_Z k) persistence octaves
                {| value := 0; amplitude := 1; frequency := 1; maxValue := 0 |})
      as (st & -> & Hval); [done..|reflexivity|].
    cbn [mbind option_bind]. unfold Math.div.
    destruct (Qeq_bool (maxValue st) 0); cbn [mbind option_bind]; [done|].
    intros [= <-]. rewrite Hval. unfold Qdiv. ring.
  - destruct (turbulence_bounded nf Hwf (inject_Z i) (inject_Z j) (inject_Z k) octaves Ho)
      as (v & Hv & _).
    exists v. split; [done|]. revert Hv. unfold turbulence.
    destruct (turbulence_loop_lattice nf Hwf (inject_Z i) (inject_Z j) (inject_Z k) octaves
                {| value := 0; amplitude := 1; frequency := 1; maxValue := 0 |})
      as (st & -> & Hval); [done..|reflexivity|].
    cbn [mbind option_bind]. unfold Math.div.
    destruct (Qeq_bool (maxValue st) 0); [done|].
    intros [= <-]. rewrite Hval. unfold Qdiv. ring.
  - unfold ridged.
    destruct (ridged_loop_lattice nf Hwf (inject_Z i) (inject_Z j) (inject_Z k) octaves
                {| Ridged.value := 0; Ridged.amplitude := 1; Ridged.frequency := 1;
                   Ridged.weight := 1 |})
      as (st & -> & Hval); [done..|reflexivity|].
    cbn [mbind option_bind Ridged.value Ridged.amplitude] in *.
    eexists. split; [reflexivity|].
    pose proof (total_amplitude_half octaves) as Ht.
    pose proof (half_power_range octaves) as Hr.
    assert (Hhalf : Ridged.value st * 0.5 == 1 - (1 # 2) ^ Z.of_nat octaves)
      by (rewrite Hval, Ht; ring).
    unfold Math.min, Math.max.
    rewrite Q.max_r by (rewrite Hhalf; lra).
    rewrite Q.min_r by (rewrite Hhalf; lra). exact Hhalf.
Qed.

Lemma fractals_on_lattice_witness :
  (exists v, fbm (Noise3D_new 12345) (inject_Z 3) (inject_Z 0) (inject_Z (-7)) 4 0.5 = Some v
             /\ (v == 1 # 2)%Q) /\
  (exists v, turbulence (Noise3D_new 12345) (inject_Z 3) (inject_Z 0) (inject_Z (-7)) 4
             = Some v /\ (v == 0)%Q) /\
  (exists v, ridged (Noise3D_new 12345) (inject_Z 3) (inject_Z 0) (inject_Z (-7)) 4 = Some v
             /\ (v == 1 - (1 # 2) ^ Z.of_nat 4)%Q).
Proof.
  apply (fractals_on_lattice 12345 3 0 (-7) 4 0.5);
    [ lia
    | unfold safe_integer; lia
    | unfold safe_integer; lia
    | unfold safe_integer; lia
    | split; vm_compute; discriminate ].
Defined.

(** X6. The generator of the shuffle stays within exact integer
    arithmetic: from a state below 2^32 the product and sum it forms stay
    below 2^53, and the next state is again below 2^32; and every seed
    enters the shuffle as such a state. *)
Theorem lcg_exact (s : Z) (n : nat) :
  let rng := Nat.iter n lcg_next (ToUint32 s) in
  (0 <= rng < 2 ^ 32)%Z /\
  (0 <= rng * 1664525 + 1013904223 < 2 ^ 53)%Z /\
  (0 <= lcg_next rng < 2 ^ 32)%Z.
Proof.
  intros rng.
  assert (Hr : (0 <= rng < 2 ^ 32)%Z).
  { subst rng. destruct n as [|n]; simpl.
    - unfold ToUint32. apply Z.mod_pos_bound. lia.
    - unfold lcg_next at 1. apply Z.mod_pos_bound. lia. }
  split; [exact Hr|]. split; [lia|].
  unfold lcg_next. apply Z.mod_pos_bound. lia.
Qed.

(** ** Colour utilities *)

Section Color_facts.

Lemma hex_digit_range c d : hex_digit c = Some d -> (0 <= d < 16)%Z.
Proof.
  unfold hex_digit. set (n := Z.of_N (N_of_ascii c)).
  repeat match goal with
         | |- context [if (?a && ?b)%bool then _ else _] =>
             destruct (Z.leb_spec0 48 n), (Z.leb_spec0 n 57),
               (Z.leb_spec0 97 n), (Z.leb_spec0 n 102),
               (Z.leb_spec0 65 n), (Z.leb_spec0 n 70); cbn [andb]
         end; intros [= <-]; lia.
Qed.

Lemma hex_pair_range c1 c2 v : hex_pair c1 c2 = Some v -> (0 <= v < 256)%Z.
Proof.
  unfold hex_pair. destruct (hex_digit c1) as [d1|] eqn:H1; [|done].
  destruct (hex_digit c2) as [d2|] eqn:H2; [|done]. cbn [mbind option_bind].
  apply hex_digit_range in H1, H2. intros [= <-]. lia.
Qed.

Lemma hex_exec_range hex r g b :
  hex_exec hex = Some (r, g, b) -> (0 <= r < 256 /\ 0 <= g < 256 /\ 0 <= b < 256)%Z.
Proof.
  unfold hex_exec.
  set (digits := match hex with String "#"%char rest => rest | _ => hex end).
  destruct digits as [|c1 [|c2 [|c3 [|c4 [|c5 [|c6 [|]]]]]]]; try done.
  destruct (hex_pair c1 c2) as [r'|] eqn:Hr; [|done].
  destruct (hex_pair c3 c4) as [g'|] eqn:Hg; [|done].
  destruct (hex_pair c5 c6) as [b'|] eqn:Hb; [|done]. cbn [mbind option_bind].
  intros [= <- <- <-].
  split; [|split]; eapply hex_pair_range; eassumption.
Qed.

Lemma byte_grey : byte_color grey.
Proof. unfold byte_color, grey. cbn. lia. Qed.

Lemma hexToRgb_byte hex : byte_color (hexToRgb hex).
Proof.
  unfold hexToRgb. destruct (hex ≫= hex_exec) as [[[r g] b]|] eqn:E; [|apply byte_grey].
  destruct hex as [s|]; [|done]. cbn [mbind option_bind] in E.
  apply hex_exec_range in E. exact E.
Qed.

(** The digits of the notation parse back. *)
Lemma hex_digit_char d : (0 <= d < 16)%Z -> hex_digit (hex_char d) = Some d.
Proof.
  intros Hd.
  assert (Hcases : d ∈ (Z.of_nat <$> seq 0 16)).
  { apply list_elem_of_fmap. exists (Z.to_nat d). split; [lia|]. apply elem_of_seq. lia. }
  cbn in Hcases.
  repeat (apply elem_of_cons in Hcases as [->|Hcases]; [reflexivity|]).
  by apply elem_of_nil in Hcases.
Qed.

Lemma hex_pair_byte v :
  (0 <= v < 256)%Z -> hex_pair (hex_char (v / 16)) (hex_char (v mod 16)) = Some v.
Proof.
  intros Hv. unfold hex_pair.
  rewrite !hex_digit_char by (pose proof (Z.mod_pos_bound v 16);
                              pose proof (Z.div_pos v 16);
                              pose proof (Z.div_lt_upper_bound v 16 16); lia).
  cbn [mbind option_bind]. f_equal. pose proof (Z.div_mod v 16). lia.
Qed.

Lemma hex_char_not_hash d : (0 <= d < 16)%Z -> hex_char d <> "#"%char.
Proof.
  intros Hd.
  assert (Hcases : d ∈ (Z.of_nat <$> seq 0 16)).
  { apply list_elem_of_fmap. exists (Z.to_nat d). split; [lia|]. apply elem_of_seq. lia. }
  cbn in Hcases.
  repeat (apply elem_of_cons in Hcases as [->|Hcases]; [discriminate|]).
  by apply elem_of_nil in Hcases.
Qed.

Lemma strip_hash c s :
  c <> "#"%char ->
  match String c s with
  | String "#"%char rest => rest
  | _ => String c s
  end = String c s.
Proof.
  intros Hc. destruct c as [b0 b1 b2 b3 b4 b5 b6 b7].
  destruct b0, b1, b2, b3, b4, b5, b6, b7; try reflexivity. by destruct Hc.
Qed.

Lemma hex_exec_six c1 c2 c3 c4 c5 c6 :
  c1 <> "#"%char ->
  hex_exec (String c1 (String c2 (String c3 (String c4 (String c5 (String c6 EmptyString))))))
  = (r ← hex_pair c1 c2; g ← hex_pair c3 c4; b ← hex_pair c5 c6; Some (r, g, b)).
Proof. intros Hc. unfold hex_exec. by rewrite strip_hash. Qed.

Lemma hex_exec_hash_six c1 c2 c3 c4 c5 c6 :
  hex_exec (String "#" (String c1 (String c2 (String c3 (String c4 (String c5
             (String c6 EmptyString)))))))
  = (r ← hex_pair c1 c2; g ← hex_pair c3 c4; b ← hex_pair c5 c6; Some (r, g, b)).
Proof. reflexivity. Qed.

Lemma Math_round_integer (n : Z) : Math_round (inject_Z n) = n.
Proof.
  unfold Math_round. apply Qfloor_unique.
  - lra.
  - rewrite inject_Z_plus. change (inject_Z 1) with 1%Q. lra.
Qed.

Lemma Math_round_between (lo hi : Z) x :
  (inject_Z lo <= x <= inject_Z hi)%Q -> (lo <= Math_round x <= hi)%Z.
Proof.
  intros [Hlo Hhi]. unfold Math_round.
  pose proof (Qfloor_le (x + (1 # 2))) as H1.
  pose proof (Qlt_floor (x + (1 # 2))) as H2.
  rewrite inject_Z_plus in H2. change (inject_Z 1) with 1%Q in H2.
  split.
  - assert (lo < Qfloor (x + (1 # 2)) + 1)%Z; [|lia].
    rewrite Zlt_Qlt, inject_Z_plus. change (inject_Z 1) with 1%Q. lra.
  - assert (Qfloor (x + (1 # 2)) < hi + 1)%Z; [|lia].
    rewrite Zlt_Qlt, inject_Z_plus. change (inject_Z 1) with 1%Q. lra.
Qed.

(** A blend of two numbers lies between them. *)
Lemma blend_between (a b : Z) t :
  (0 <= t <= 1)%Q ->
  (Z.min a b <= Math_round (inject_Z a + (inject_Z b - inject_Z a) * t) <= Z.max a b)%Z.
Proof.
  intros Ht. apply Math_round_between.
  assert (Hmin : (inject_Z (Z.min a b) <= inject_Z a /\ inject_Z (Z.min a b) <= inject_Z b)%Q)
    by (rewrite <- !Zle_Qle; lia).
  assert (Hmax : (inject_Z a <= inject_Z (Z.max a b) /\ inject_Z b <= inject_Z (Z.max a b))%Q)
    by (rewrite <- !Zle_Qle; lia).
  set (x := inject_Z a) in *. set (y := inject_Z b) in *.
  set (lo := inject_Z (Z.min a b)) in *. set (hi := inject_Z (Z.max a b)) in *.
  assert (Heq : (x + (y - x) * t == x * (1 - t) + y * t)%Q) by ring.
  assert (0 <= (x - lo) * (1 - t))%Q by (apply Qmult_le_0_compat; lra).
  assert (0 <= (y - lo) * t)%Q by (apply Qmult_le_0_compat; lra).
  assert (0 <= (hi - x) * (1 - t))%Q by (apply Qmult_le_0_compat; lra).
  assert (0 <= (hi - y) * t)%Q by (apply Qmult_le_0_compat; lra).
  split; lra.
Qed.

End Color_facts.

(** X7. Whatever it is given, a string of any form or [undefined],
    [hexToRgb] returns three channels that are bytes, between 0 and 255. *)
Theorem hexToRgb_bytes (hex : option string) : byte_color (hexToRgb hex).
Proof. apply hexToRgb_byte. Qed.

(** X8. [hexToRgb] reads the notation of the colour tables back: for a
    colour of three bytes, the six lower-case hexadecimal digits of its
    channels, with a leading [#] or without, parse to that colour. *)
Theorem hexToRgb_notation (c : Color.rgb) :
  byte_color c ->
  hexToRgb (Some (String "#" (hex_notation c))) = c /\
  hexToRgb (Some (hex_notation c)) = c.
Proof.
  intros (Hr & Hg & Hb). destruct c as [r g b]. cbn [Color.r Color.g Color.b] in *.
  assert (Hnot : hex_char (r / 16) <> "#"%char).
  { apply hex_char_not_hash.
    pose proof (Z.div_pos r 16). pose proof (Z.div_lt_upper_bound r 16 16). lia. }
  unfold hexToRgb, hex_notation.
  cbn [mbind option_bind Color.r Color.g Color.b].
  rewrite hex_exec_hash_six, (hex_exec_six _ _ _ _ _ _ Hnot).
  rewrite !hex_pair_byte by done. by cbn [mbind option_bind].
Qed.

Lemma hexToRgb_notation_witness :
  hexToRgb (Some (String "#" (hex_notation {| Color.r := 255; Color.g := 238; Color.b := 204 |})))
  = {| Color.r := 255; Color.g := 238; Color.b := 204 |} /\
  hexToRgb (Some (hex_notation {| Color.r := 255; Color.g := 238; Color.b := 204 |}))
  = {| Color.r := 255; Color.g := 238; Color.b := 204 |}.
Proof.
  apply (hexToRgb_notation {| Color.r := 255; Color.g := 238; Color.b := 204 |}).
  unfold byte_color. cbn. lia.
Defined.

(** X9. [lerpColor] returns its first colour at [t = 0] and its second at
    [t = 1], and for [t] between 0 and 1 each channel lies between the
    channels of the two, so that the blend is again three bytes. *)
Theorem lerpColor_between (c1 c2 : option string) (t : Q) :
  (0 <= t <= 1)%Q ->
  lerpColor c1 c2 0 = hexToRgb c1 /\ lerpColor c1 c2 1 = hexToRgb c2 /\
  byte_color (lerpColor c1 c2 t) /\
  (Z.min (Color.r (hexToRgb c1)) (Color.r (hexToRgb c2))
   <= Color.r (lerpColor c1 c2 t)
   <= Z.max (Color.r (hexToRgb c1)) (Color.r (hexToRgb c2)))%Z /\
  (Z.min (Color.g (hexToRgb c1)) (Color.g (hexToRgb c2))
   <= Color.g (lerpColor c1 c2 t)
   <= Z.max (Color.g (hexToRgb c1)) (Color.g (hexToRgb c2)))%Z /\
  (Z.min (Color.b (hexToRgb c1)) (Color.b (hexToRgb c2))
   <= Color.b (lerpColor c1 c2 t)
   <= Z.max (Color.b (hexToRgb c1)) (Color.b (hexToRgb c2)))%Z.
Proof.
  intros Ht.
  pose proof (hexToRgb_byte c1) as (Hr1 & Hg1 & Hb1).
  pose proof (hexToRgb_byte c2) as (Hr2 & Hg2 & Hb2).
  assert (Hend : forall a b : Z,
             Math_round (inject_Z a + (inject_Z b - inject_Z a) * 0) = a /\
             Math_round (inject_Z a + (inject_Z b - inject_Z a) * 1) = b).
  { intros a b. split.
    - transitivity (Math_round (inject_Z a)); [|apply Math_round_integer].
      unfold Math_round. apply Qfloor_comp. ring.
    - transitivity (Math_round (inject_Z b)); [|apply Math_round_integer].
      unfold Math_round. apply Qfloor_comp. ring. }
  unfold lerpColor. cbv zeta.
  pose proof (blend_between (Color.r (hexToRgb c1)) (Color.r (hexToRgb c2)) t Ht) as Br.
  pose proof (blend_between (Color.g (hexToRgb c1)) (Color.g (hexToRgb c2)) t Ht) as Bg.
  pose proof (blend_between (Color.b (hexToRgb c1)) (Color.b (hexToRgb c2)) t Ht) as Bb.
  split; [|split; [|split; [|split; [|split]]]].
  - destruct (hexToRgb c1) as [r1 g1 b1], (hexToRgb c2) as [r2 g2 b2].
    cbn [Color.r Color.g Color.b]. f_equal; apply Hend.
  - destruct (hexToRgb c1) as [r1 g1 b1], (hexToRgb c2) as [r2 g2 b2].
    cbn [Color.r Color.g Color.b]. f_equal; apply Hend.
  - unfold byte_color. cbn [Color.r Color.g Color.b]. lia.
  - exact Br.
  - exact Bg.
  - exact Bb.
Qed.

Lemma lerpColor_between_witness :
  lerpColor (Some "#001428") (Some "#ffffff") 0 = hexToRgb (Some "#001428") /\
  lerpColor (Some "#001428") (Some "#ffffff") 1 = hexToRgb (Some "#ffffff") /\
  byte_color (lerpColor (Some "#001428") (Some "#ffffff") (1 # 3)) /\
  (Z.min (Color.r (hexToRgb (Some "#001428"))) (Color.r (hexToRgb (Some "#ffffff")))
   <= Color.r (lerpColor (Some "#001428") (Some "#ffffff") (1 # 3))
   <= Z.max (Color.r (hexToRgb (Some "#001428"))) (Color.r (hexToRgb (Some "#ffffff"))))%Z /\
  (Z.min (Color.g (hexToRgb (Some "#001428"))) (Color.g (hexToRgb (Some "#ffffff")))
   <= Color.g (lerpColor (Some "#001428") (Some "#ffffff") (1 # 3))
   <= Z.max (Color.g (hexToRgb (Some "#001428"))) (Color.g (hexToRgb (Some "#ffffff"))))%Z /\
  (Z.min (Color.b (hexToRgb (Some "#001428"))) (Color.b (hexToRgb (Some "#ffffff")))
   <= Color.b (lerpColor (Some "#001428") (Some "#ffffff") (1 # 3))
   <= Z.max (Color.b (hexToRgb (Some "#001428"))) (Color.b (hexToRgb (Some "#ffffff"))))%Z.
Proof.
  apply (lerpColor_between (Some "#001428") (Some "#ffffff") (1 # 3)). lra.
Defined.

(** ** Classification stays within the palette *)

Section Palette_facts.

Context `{Libm}.

Local Open Scope Q_scope.

Lemma wrap_index_range v (len : nat) :
  0 <= v -> (0 < len)%nat -> (0 <= wrap_index v len < Z.of_nat len)%Z.
Proof.
  intros Hv Hlen. unfold wrap_index, Math.floor.
  assert (Hfl : (0 <= Qfloor (v * inject_Z (Z.of_nat len)))%Z).
  { change 0%Z with (Qfloor 0). apply Qfloor_resp_le.
    apply Qmult_le_0_compat; [done|]. change 0 with (inject_Z 0).
    rewrite <- Zle_Qle. lia. }
  rewrite Z.rem_mod_nonneg by lia. apply Z.mod_pos_bound. lia.
Qed.

Lemma array_get_wrap (arr : list string) v :
  0 <= v -> arr <> [] ->
  exists hex, array_get arr (wrap_index v (length arr)) = Some hex /\ hex ∈ arr.
Proof.
  intros Hv Harr.
  assert (Hlen : (0 < length arr)%nat) by (destruct arr; [done|simpl; lia]).
  pose proof (wrap_index_range v (length arr) Hv Hlen) as Hidx.
  unfold array_get. destruct (decide (0 <= wrap_index v (length arr))%Z); [|lia].
  destruct (lookup_lt_is_Some_2 arr (Z.to_nat (wrap_index v (length arr)))) as [hex Hhex];
    [lia|].
  exists hex. split; [done|]. by eapply list_elem_of_lookup_2.
Qed.

Lemma from_palette_entry colors key arr hex :
  colors !! key = Some arr -> hex ∈ arr ->
  from_palette colors (Some (hexToRgb (Some hex))).
Proof. intros Hk Hin. by exists key, arr, hex. Qed.

Lemma from_palette_first colors key hex rest :
  colors !! key = Some (hex :: rest) -> from_palette colors (palette_color colors key 0).
Proof.
  intros Hk. unfold palette_color. rewrite Hk. cbn [mbind option_bind].
  eapply from_palette_entry; [exact Hk|apply list_elem_of_here].
Qed.

Lemma from_palette_at colors key arr v :
  colors !! key = Some arr -> arr <> [] -> 0 <= v ->
  from_palette colors (palette_color_at colors key v).
Proof.
  intros Hk Harr Hv. unfold palette_color_at. rewrite Hk. cbn [mbind option_bind].
  destruct (array_get_wrap arr v Hv Harr) as (hex & -> & Hin).
  by eapply from_palette_entry.
Qed.

Lemma from_palette_guarded colors key hex rest other :
  colors !! key = Some (hex :: rest) ->
  from_palette colors
    match colors !! key with
    | Some arr => Some (hexToRgb (array_get arr 0))
    | None => other
    end.
Proof.
  intros Hk. rewrite Hk. eapply from_palette_entry; [exact Hk|apply list_elem_of_here].
Qed.

(** Settle a leaf of a case: the entry read is there. *)
Ltac palette_leaf :=
  lazymatch goal with
  | |- from_palette ?c (palette_color ?c ?k 0) =>
      let v := eval vm_compute in (c !! k) in
      lazymatch v with
      | Some (?h :: ?r) => apply (from_palette_first c k h r); vm_compute; reflexivity
      end
  | |- from_palette ?c (palette_color_at ?c ?k ?x) =>
      let v := eval vm_compute in (c !! k) in
      lazymatch v with
      | Some ?arr =>
          apply (from_palette_at c k arr x);
          [vm_compute; reflexivity | discriminate | lra]
      end
  | |- from_palette ?c (match ?c !! ?k with Some _ => _ | None => _ end) =>
      let v := eval vm_compute in (c !! k) in
      lazymatch v with
      | Some (?h :: ?r) => apply (from_palette_guarded c k h r); vm_compute; reflexivity
      end
  end.

Ltac split_ltQ :=
  repeat match goal with
         | |- context [if ltQ ?a ?b then _ else _] => destruct (ltQ_spec a b)
         end.

Lemma terran_from_palette elevation moisture :
  from_palette terran_palette (terran_color terran_palette elevation moisture).
Proof. unfold terran_color. cbv zeta. split_ltQ; palette_leaf. Qed.

Lemma desert_from_palette elevation texU texV :
  from_palette desert_palette (desert_color desert_palette elevation texU texV).
Proof. unfold desert_color. cbv zeta. split_ltQ; palette_leaf. Qed.

Lemma ice_from_palette elevation :
  from_palette ice_palette (ice_color ice_palette elevation).
Proof. unfold ice_color. split_ltQ; palette_leaf. Qed.

Lemma lava_from_palette elevation :
  from_palette lava_palette (lava_color lava_palette elevation).
Proof. unfold lava_color. cbv zeta. split_ltQ; palette_leaf. Qed.

Lemma ocean_from_palette elevation :
  from_palette ocean_palette (ocean_color ocean_palette elevation).
Proof. unfold ocean_color. cbv zeta. split_ltQ; palette_leaf. Qed.

Lemma jungle_from_palette elevation moisture :
  from_palette jungle_palette (jungle_color jungle_palette elevation moisture).
Proof. unfold jungle_color. split_ltQ; palette_leaf. Qed.

Lemma rocky_from_palette colors elevation :
  colors = rocky_palette \/ colors = terran_palette -> 0 <= elevation ->
  from_palette colors (rocky_color colors elevation).
Proof.
  intros [-> | ->] He; unfold rocky_color; cbv zeta.
  - change (rocky_palette !! "surface")
      with (Some ["#3a2d22"; "#4a3d32"; "#6a5d52"; "#8a7d72"]). cbv iota beta.
    destruct (array_get_wrap ["#3a2d22"; "#4a3d32"; "#6a5d52"; "#8a7d72"] elevation He)
      as (hex & -> & Hin); [discriminate|].
    eapply (from_palette_entry _ "surface" _ hex); [vm_compute; reflexivity | exact Hin].
  - change (terran_palette !! "surface") with (@None (list string)).
    change (terran_palette !! "grass")
      with (Some ["#2d5016"; "#3d7026"; "#5d9046"; "#7daa66"; "#9dcc88"]). cbv iota beta.
    destruct (array_get_wrap ["#2d5016"; "#3d7026"; "#5d9046"; "#7daa66"; "#9dcc88"]
                elevation He) as (hex & -> & Hin); [discriminate|].
    eapply (from_palette_entry _ "grass" _ hex); [vm_compute; reflexivity | exact Hin].
Qed.

Lemma gas_giant_from_palette nf texU texV latitude :
  wf_perm (perm nf) -> (forall x, - (1) <= Math_sin x) ->
  from_palette gas_giant_palette (gas_giant_color gas_giant_palette texU texV latitude nf).
Proof.
  intros Hwf Hsin. unfold gas_giant_color.
  destruct (fbm_bounded nf Hwf (texU * 1) (texV * 8) 0 6 0.5) as (bn & -> & _);
    [lia|lra|]. cbn [mbind option_bind].
  destruct (turbulence_bounded nf Hwf (texU * 4) (texV * 2) 0 6) as (t & -> & Ht);
    [lia|]. cbn [mbind option_bind].
  destruct (fbm_bounded nf Hwf (texU * 3) (texV * 3) 50 5 0.5) as (sn & -> & _);
    [lia|lra|]. cbn [mbind option_bind]. cbv zeta.
  pose proof (Hsin (latitude * 15 + bn * 4)) as Hs.
  set (bandValue := (Math_sin (latitude * 15 + bn * 4) + 1) * 0.5 + t * 0.3).
  assert (Hband : 0 <= bandValue) by (unfold bandValue; lra).
  destruct (ltQ 0.75 sn && ltQ (Math.abs latitude) 0.5)%bool.
  - change (gas_giant_palette !! "storm") with (Some ["#cc3322"; "#ee6644"; "#ff8866"]).
    apply (from_palette_entry _ "storm" ["#cc3322"; "#ee6644"; "#ff8866"] "#cc3322");
      [vm_compute; reflexivity | apply list_elem_of_here].
  - destruct (ltQ bandValue 0.25); [|destruct (ltQ bandValue 0.5);
                                       [|destruct (ltQ bandValue 0.75)]].
    + change (gas_giant_palette !! "band1_dark") with (Some ["#6b4914"; "#7b5914"]).
      cbv iota beta.
      destruct (array_get_wrap ["#6b4914"; "#7b5914"] bandValue Hband)
        as (hex & -> & Hin); [discriminate|].
      eapply (from_palette_entry _ "band1_dark" _ hex); [vm_compute; reflexivity | exact Hin].
    + change (gas_giant_palette !! "band1") with (Some ["#8b6914"; "#9b7934"; "#ab8934"]).
      cbv iota beta.
      destruct (array_get_wrap ["#8b6914"; "#9b7934"; "#ab8934"] bandValue Hband)
        as (hex & -> & Hin); [discriminate|].
      eapply (from_palette_entry _ "band1" _ hex); [vm_compute; reflexivity | exact Hin].
    + change (gas_giant_palette !! "band2") with (Some ["#c49564"; "#d4a574"]).
      cbv iota beta.
      destruct (array_get_wrap ["#c49564"; "#d4a574"] bandValue Hband)
        as (hex & -> & Hin); [discriminate|].
      eapply (from_palette_entry _ "band2" _ hex); [vm_compute; reflexivity | exact Hin].
    + change (gas_giant_palette !! "band2_light")
        with (Some ["#e2c594"; "#f2d5a4"; "#fce5b4"]).
      cbv iota beta.
      destruct (array_get_wrap ["#e2c594"; "#f2d5a4"; "#fce5b4"] bandValue Hband)
        as (hex & -> & Hin); [discriminate|].
      eapply (from_palette_entry _ "band2_light" _ hex); [vm_compute; reflexivity | exact Hin].
Qed.

(** A table keeps its terran palette while the other types copy it. *)
Lemma copy_terran_fold_cases key pal terran types : forall tbl,
  tbl !! "terran" = Some terran ->
  foldl copy_terran tbl types !! key = Some pal ->
  tbl !! key = Some pal \/ pal = terran.
Proof.
  induction types as [|type types IH]; intros tbl Ht Hk; simpl in Hk; [by left|].
  assert (Ht' : copy_terran tbl type !! "terran" = Some terran).
  { unfold copy_terran. destruct (tbl !! type) eqn:E; [done|].
    rewrite lookup_insert_ne; [done|]. intros ->. congruence. }
  destruct (IH _ Ht' Hk) as [Hc | ->]; [|by right].
  unfold copy_terran in Hc. destruct (tbl !! type) eqn:E; [by left|].
  destruct (decide (type = key)) as [->|Hne].
  - rewrite lookup_insert_eq, Ht in Hc. right. by injection Hc.
  - rewrite lookup_insert_ne in Hc by done. by left.
Qed.

Ltac differ := let Heq := fresh in intros Heq; discriminate Heq.

Ltac lookup_literal :=
  unfold list_to_map; cbn [foldr fst snd];
  repeat first [rewrite lookup_insert_eq | rewrite lookup_insert_ne by differ];
  try reflexivity.

Ltac outside_moreTypes :=
  unfold moreTypes; rewrite !not_elem_of_cons;
  repeat split; first [differ | apply not_elem_of_nil].

(** The palette of a type with a case of its own. *)
Ltac own_case :=
  match goal with
  | |- context [PLANET_COLORS !! ?k] =>
      rewrite (PLANET_COLORS_own k) by outside_moreTypes;
      unfold PLANET_COLORS_literal; lookup_literal; cbn [default]
  end.

Lemma PLANET_COLORS_literal_terran : PLANET_COLORS_literal !! "terran" = Some terran_palette.
Proof. unfold PLANET_COLORS_literal; lookup_literal. Qed.

Lemma PLANET_COLORS_unfold :
  PLANET_COLORS = foldl copy_terran PLANET_COLORS_literal moreTypes.
Proof. reflexivity. Qed.

Lemma PLANET_COLORS_cases type pal :
  PLANET_COLORS !! type = Some pal ->
  PLANET_COLORS_literal !! type = Some pal \/ pal = terran_palette.
Proof.
  intros E. rewrite PLANET_COLORS_unfold in E.
  exact (copy_terran_fold_cases type pal terran_palette moreTypes PLANET_COLORS_literal
           PLANET_COLORS_literal_terran E).
Qed.

Lemma PLANET_COLORS_literal_rocky type pal :
  PLANET_COLORS_literal !! type = Some pal ->
  type <> "terran" -> type <> "desert" -> type <> "ice" -> type <> "lava" ->
  type <> "ocean" -> type <> "jungle" -> type <> "gas_giant" -> pal = rocky_palette.
Proof.
  intros E Ht Hd Hi Hl Ho Hj Hg. unfold PLANET_COLORS_literal in E.
  apply elem_of_list_to_map_2 in E.
  repeat (apply elem_of_cons in E as [E|E];
          [pose proof (f_equal fst E) as E1; pose proof (f_equal snd E) as E2;
           cbn [fst snd] in E1, E2; rewrite E2;
           first [contradiction | reflexivity]|]).
  by apply elem_of_nil in E.
Qed.

Lemma default_palette_cases type :
  type <> "terran" -> type <> "desert" -> type <> "ice" -> type <> "lava" ->
  type <> "ocean" -> type <> "jungle" -> type <> "gas_giant" ->
  default terran_palette (PLANET_COLORS !! type) = rocky_palette \/
  default terran_palette (PLANET_COLORS !! type) = terran_palette.
Proof.
  intros Ht Hd Hi Hl Ho Hj Hg.
  destruct (PLANET_COLORS !! type) as [pal|] eqn:E; cbn [default];
    [|right; reflexivity].
  destruct (PLANET_COLORS_cases type pal E) as [E' | ->]; [|right; reflexivity].
  left. by eapply PLANET_COLORS_literal_rocky.
Qed.

(** The colour of the surface, by the cases of the type. *)
Lemma surface_from_palette type nf elevation moisture temperature texU texV latitude :
  wf_perm (perm nf) -> 0 <= elevation -> (forall x, - (1) <= Math_sin x) ->
  from_palette (default terran_palette (PLANET_COLORS !! type))
    (getPlanetSurfaceColor type elevation moisture temperature
       (default terran_palette (PLANET_COLORS !! type))
       (bool_decide (type = "gas_giant")) texU texV latitude nf).
Proof.
  intros Hwf He Hsin. unfold getPlanetSurfaceColor.
  case_bool_decide as Hgas.
  { subst type. own_case. by apply gas_giant_from_palette. }
  destruct (decide (type = "terran")) as [->|?]; [own_case; apply terran_from_palette|].
  destruct (decide (type = "desert")) as [->|?]; [own_case; apply desert_from_palette|].
  destruct (decide (type = "ice")) as [->|?]; [own_case; apply ice_from_palette|].
  destruct (decide (type = "lava")) as [->|?]; [own_case; apply lava_from_palette|].
  destruct (decide (type = "ocean")) as [->|?]; [own_case; apply ocean_from_palette|].
  destruct (decide (type = "jungle")) as [->|?]; [own_case; apply jungle_from_palette|].
  apply rocky_from_palette; [by apply default_palette_cases|done].
Qed.

End Palette_facts.

(** X10. For a type that is no name of [Object.prototype], the palette
    [generatePlanet] hands over is the one of the type, or the terran one
    when the type has none; and with it, for arguments in the ranges of
    [planet_sample] and a sine between -1 and 1, the colour of the surface
    is the parse of an entry of that palette, not the grey of an entry that
    is missing. *)
Theorem surface_color_from_palette `{Libm} (type : string) (s : Z)
        (elevation moisture temperature texU texV latitude : Q) :
  type ∉ Object_prototype ->
  planet_sample elevation moisture texU texV latitude ->
  (forall x, (- (1) <= Math_sin x <= 1)%Q) ->
  let colors := default terran_palette (PLANET_COLORS !! type) in
  planet_colors_for type = Some (Own colors) /\
  from_palette colors
    (getPlanetSurfaceColor type elevation moisture temperature colors
       (bool_decide (type = "gas_giant")) texU texV latitude (Noise3D_new s)).
Proof.
  intros Htype ([He _] & _) Hsin colors. split; [by apply planet_colors_for_total|].
  apply surface_from_palette; [apply wf_perm_new|exact He|]. intros x. apply Hsin.
Qed.

Lemma surface_color_from_palette_witness :
  let colors := default terran_palette (PLANET_COLORS !! "ice") in
  planet_colors_for "ice" = Some (Own colors) /\
  from_palette colors
    (@getPlanetSurfaceColor libm_zero "ice" (1 # 2) (1 # 2) (1 # 2) colors
       (bool_decide ("ice" = "gas_giant")) 0 0 0 (Noise3D_new 12345)).
Proof.
  apply (@surface_color_from_palette libm_zero "ice" 12345 (1 # 2) (1 # 2) (1 # 2) 0 0 0).
  - unfold Object_prototype. rewrite !not_elem_of_cons.
    repeat split; try discriminate. apply not_elem_of_nil.
  - unfold planet_sample. repeat split; vm_compute; discriminate.
  - intros x. cbn. lra.
Defined.

(** X11. In the default case a value just below zero picks no entry: with
    a [surface] array of two entries or more, an elevation whose product
    with the length lies in [-1, 0) gives index -1, which the array does not
    have, and the colour is the grey fallback, not the last entry. *)
Theorem negative_elevation_is_grey `{Libm} (type : string) (colors : gmap string (list string))
        (arr : list string) (elevation moisture temperature texU texV latitude : Q)
        (nf : Noise3D) :
  type ∉ ["terran"; "desert"; "ice"; "lava"; "ocean"; "jungle"] ->
  colors !! "surface" = Some arr -> (2 <= length arr)%nat ->
  (- (1) <= elevation * inject_Z (Z.of_nat (length arr)) < 0)%Q ->
  getPlanetSurfaceColor type elevation moisture temperature colors false
                        texU texV latitude nf
  = Some grey.
Proof.
  intros Htype Hsurf Hlen [Hlo Hhi]. unfold getPlanetSurfaceColor.
  rewrite !not_elem_of_cons in Htype. destruct Htype as (? & ? & ? & ? & ? & ? & _).
  repeat (destruct (decide (type = _)) as [|_]; [done|]).
  unfold rocky_color. rewrite Hsurf. cbv zeta.
  assert (Hfloor : Math.floor (elevation * inject_Z (Z.of_nat (length arr))) = (-1)%Z).
  { unfold Math.floor. apply Qfloor_unique; [exact Hlo|exact Hhi]. }
  unfold wrap_index. rewrite Hfloor.
  assert (Hrem : Z.rem (-1) (Z.of_nat (length arr)) = (-1)%Z).
  { change (-1)%Z with (- (1))%Z. rewrite Z.rem_opp_l by lia.
    rewrite Z.rem_small by lia. reflexivity. }
  rewrite Hrem. reflexivity.
Qed.

Lemma negative_elevation_is_grey_witness :
  @getPlanetSurfaceColor libm_zero "rocky" (- (1 # 8)) 0 0 rocky_palette false 0 0 0
                         (Noise3D_new 12345)
  = Some grey.
Proof.
  apply (@negative_elevation_is_grey libm_zero "rocky" rocky_palette
           ["#3a2d22"; "#4a3d32"; "#6a5d52"; "#8a7d72"]).
  - rewrite !not_elem_of_cons. repeat split; try discriminate. apply not_elem_of_nil.
  - vm_compute. reflexivity.
  - simpl. lia.
  - split; vm_compute; [discriminate|reflexivity].
Defined.
(** ** Stars, moons and asteroids *)

Lemma for_range_ext {State : Type} (body body' : Z -> State -> option State) :
  (forall i s, body i s = body' i s) ->
  forall n i s, for_range body i n s = for_range body' i n s.
Proof.
  intros Hext n. induction n as [|n IH]; intros i s; [reflexivity|].
  cbn [for_range]. rewrite Hext. destruct (body' i s) as [s'|]; [|reflexivity].
  cbn [mbind option_bind]. apply IH.
Qed.

Lemma for_range_preserves {State : Type} (P : State -> Prop)
      (body : Z -> State -> option State) :
  (forall i s s', P s -> body i s = Some s' -> P s') ->
  forall n i s s', P s -> for_range body i n s = Some s' -> P s'.
Proof.
  intros Hbody n. induction n as [|n IH]; intros i s s' Hs Hrun.
  - injection Hrun as <-. exact Hs.
  - cbn [for_range] in Hrun. destruct (body i s) as [s1|] eqn:E; [|discriminate Hrun].
    cbn [mbind option_bind] in Hrun. exact (IH _ _ _ (Hbody _ _ _ Hs E) Hrun).
Qed.

Section Sprite_facts.

Context `{Libm}.

Local Open Scope Q_scope.

(** A block filled with an opaque style goes through [draw_block] with
    [a = 255], a skipped one with [a = 0]. *)
Lemma draw_block_as_rgba cv c offsetX px py pixelSize :
  draw_block cv (as_rgba c) offsetX px py pixelSize
  = match c with
    | Some _ => draw_opaque cv offsetX px py pixelSize
    | None => cv
    end.
Proof. destruct c; reflexivity. Qed.

Lemma moon_frames_paint baseColors nf size frames cv :
  moon_frames baseColors nf size frames cv
  = paint_frames (fun frame px py =>
                    c ← moon_block baseColors nf size frames frame px py; Some (as_rgba c))
                 size CONFIG.moonPixelSize
                 (pixel_count size CONFIG.moonPixelSize)
                 (pixel_count size CONFIG.moonPixelSize) frames cv.
Proof.
  unfold moon_frames, paint_frames. cbv zeta.
  apply for_range_ext. intros frame cv1.
  apply for_range_ext. intros py cv2.
  apply for_range_ext. intros px cv3.
  destruct (moon_block baseColors nf size frames frame px py) as [c|]; [|reflexivity].
  cbn [mbind option_bind]. by rewrite draw_block_as_rgba.
Qed.

Lemma asteroid_frames_paint nf irregularity baseSize frames cv :
  asteroid_frames nf irregularity baseSize frames cv
  = paint_frames (fun frame px py =>
                    c ← asteroid_block nf irregularity baseSize frames frame px py;
                    Some (as_rgba c))
                 baseSize CONFIG.asteroidPixelSize
                 (pixel_count baseSize CONFIG.asteroidPixelSize)
                 (pixel_count baseSize CONFIG.asteroidPixelSize) frames cv.
Proof.
  unfold asteroid_frames, paint_frames. cbv zeta.
  apply for_range_ext. intros frame cv1.
  apply for_range_ext. intros py cv2.
  apply for_range_ext. intros px cv3.
  destruct (asteroid_block nf irregularity baseSize frames frame px py) as [c|];
    [|reflexivity].
  cbn [mbind option_bind]. by rewrite draw_block_as_rgba.
Qed.

Lemma star_frames_paint colors nf size frames cv :
  star_frames colors nf size frames cv
  = paint_frames (fun frame px py => star_block colors nf size frames frame px py)
                 size CONFIG.starPixelSize
                 (pixel_count size CONFIG.starPixelSize)
                 (pixel_count size CONFIG.starPixelSize) frames cv.
Proof. reflexivity. Qed.

Lemma two_level_start w h : two_level (createCanvas w h).
Proof. intros X Y. left. reflexivity. Qed.

Lemma draw_block_two_level cv c offsetX px py pixelSize :
  two_level cv -> (0 < Color.A c -> Color.A c == 255) ->
  two_level (draw_block cv c offsetX px py pixelSize).
Proof.
  intros Hcv Hc. unfold draw_block.
  destruct (ltQ_spec 0 (Color.A c)) as [Hdrawn|_]; [|exact Hcv].
  intros X Y. cbn [alpha fillRect]. case_bool_decide; [|apply Hcv].
  right. rewrite (style_alpha_opaque _ (Hc Hdrawn)). ring.
Qed.

(** Where every block has [a = 255] or is not drawn, the loops keep every
    pixel fully transparent or fully opaque. *)
Lemma paint_frames_two_level (blk : Z -> Z -> Z -> option Color.rgba)
      size pixelSize pixelWidth pixelHeight frames cv cv' :
  (forall frame px py c, blk frame px py = Some c -> 0 < Color.A c -> Color.A c == 255) ->
  two_level cv ->
  paint_frames blk size pixelSize pixelWidth pixelHeight frames cv = Some cv' ->
  two_level cv'.
Proof.
  intros Hblk Hcv. unfold paint_frames.
  apply for_range_preserves; [|exact Hcv]. intros frame cv1 cv1' H1.
  apply for_range_preserves; [|exact H1]. intros py cv2 cv2' H2.
  apply for_range_preserves; [|exact H2]. intros px cv3 cv3' H3 Hstep.
  destruct (blk frame px py) as [c|] eqn:E; [|discriminate Hstep].
  cbn [mbind option_bind] in Hstep. injection Hstep as <-.
  apply draw_block_two_level; [exact H3|]. by apply (Hblk frame px py).
Qed.

Lemma size_range lo width rnd :
  (0 < width)%Z -> 0 <= rnd < 1 ->
  (lo <= lo + Math.floor (rnd * inject_Z width) < lo + width)%Z.
Proof.
  intros Hw [H0 H1]. unfold Math.floor.
  assert (Hpos : 0 < inject_Z width).
  { change 0 with (inject_Z 0). rewrite <- Zlt_Qlt. exact Hw. }
  assert (Hlo : (Qfloor 0 <= Qfloor (rnd * inject_Z width))%Z).
  { apply Qfloor_resp_le. apply Qmult_le_0_compat; lra. }
  assert (Hhi : (Qfloor (rnd * inject_Z width) < width)%Z).
  { rewrite Zlt_Qlt. pose proof (Qfloor_le (rnd * inject_Z width)) as Hfl.
    assert (rnd * inject_Z width < 1 * inject_Z width)
      by (apply Qmult_lt_compat_r; lra).
    lra. }
  change (Qfloor 0) with 0%Z in Hlo. lia.
Qed.

Lemma moon_size_range rnd : 0 <= rnd < 1 -> (250 <= moon_size rnd < 400)%Z.
Proof.
  intros Hr. unfold moon_size.
  change (CONFIG.moonSizes_max - CONFIG.moonSizes_min)%Z with 150%Z.
  change CONFIG.moonSizes_min with 250%Z.
  pose proof (size_range 250 150 rnd ltac:(lia) Hr). lia.
Qed.

Section Blocks.

Variable nf : Noise3D.
Hypothesis Hwf : wf_perm (perm nf).

Ltac run_noise :=
  repeat match goal with
         | |- context [fbm nf ?x ?y ?z ?o ?p ≫= _] =>
             let v := fresh "v" in let Hv := fresh "Hv" in let Hr := fresh "Hr" in
             destruct (fbm_bounded nf Hwf x y z o p) as (v & Hv & Hr);
             [lia | lra | rewrite Hv; cbn [mbind option_bind]]
         | |- context [turbulence nf ?x ?y ?z ?o ≫= _] =>
             let v := fresh "t" in let Hv := fresh "Ht" in let Hr := fresh "Htr" in
             destruct (turbulence_bounded nf Hwf x y z o) as (v & Hv & Hr);
             [lia | rewrite Hv; cbn [mbind option_bind]]
         | |- context [ridged nf ?x ?y ?z ?o ≫= _] =>
             let v := fresh "c" in let Hv := fresh "Hc" in let Hr := fresh "Hcr" in
             destruct (ridged_bounded nf Hwf x y z o) as (v & Hv & Hr);
             rewrite Hv; cbn [mbind option_bind]
         end.

Lemma moon_block_total baseColors size frames frame px py :
  let o := block_offset size CONFIG.moonPixelSize px py in
  exists c, moon_block baseColors nf size frames frame px py = Some c /\
            (is_Some c <-> dist o <= moon_radius size).
Proof using Hwf.
  intros o. unfold moon_block. cbv zeta. fold o.
  destruct (leQ_spec (dist o) (moon_radius size)) as [Hin|Hout].
  - run_noise. eexists. split; [reflexivity|]. split; [done|]. intros _. by eexists.
  - eexists. split; [reflexivity|]. split; [|done]. intros [? [=]].
Qed.

(** The radius of the outline lies within the irregularity of the base
    radius. *)
Lemma asteroid_radius_bounds baseSize irregularity angle :
  (0 <= baseSize)%Z -> 0 <= irregularity ->
  exists radius,
    asteroid_radius nf baseSize irregularity angle = Some radius /\
    inject_Z baseSize * 0.4 * (1 - irregularity) <= radius
    <= inject_Z baseSize * 0.4 * (1 + irregularity).
Proof using Hwf.
  intros Hsize Hirr. unfold asteroid_radius, asteroid_shapeNoise.
  destruct (fbm_bounded nf Hwf (Math_cos angle * 3) (Math_sin angle * 3) 0 5 0.5)
    as (sn & -> & Hsn); [lia|lra|].
  cbn [mbind option_bind]. eexists. split; [reflexivity|].
  assert (Hb : 0 <= inject_Z baseSize * 0.4).
  { assert (inject_Z 0 <= inject_Z baseSize) by (rewrite <- Zle_Qle; lia).
    change (inject_Z 0) with 0 in *. lra. }
  assert (Hup : (sn - 0.5) * irregularity <= irregularity).
  { assert (0 <= (1 - (sn - 0.5)) * irregularity) by (apply Qmult_le_0_compat; lra). lra. }
  assert (Hdn : - irregularity <= (sn - 0.5) * irregularity).
  { assert (0 <= (1 + (sn - 0.5)) * irregularity) by (apply Qmult_le_0_compat; lra). lra. }
  split.
  - rewrite !(Qmult_comm (inject_Z baseSize * 0.4)). apply Qmult_le_compat_r; lra.
  - rewrite !(Qmult_comm (inject_Z baseSize * 0.4)). apply Qmult_le_compat_r; lra.
Qed.

Lemma asteroid_block_total irregularity baseSize frames frame px py :
  (0 <= baseSize)%Z -> 0 <= irregularity ->
  let o := block_offset baseSize CONFIG.asteroidPixelSize px py in
  let baseRadius := inject_Z baseSize * 0.4 in
  exists c, asteroid_block nf irregularity baseSize frames frame px py = Some c /\
            (dist o <= baseRadius * (1 - irregularity) -> is_Some c) /\
            (is_Some c -> dist o <= baseRadius * (1 + irregularity)).
Proof using Hwf.
  intros Hsize Hirr o baseRadius. unfold asteroid_block. cbv zeta. fold o.
  destruct (asteroid_radius_bounds baseSize irregularity
              (asteroid_angle baseSize frames frame px py) Hsize Hirr)
    as (radius & -> & Hlo & Hhi).
  cbn [mbind option_bind]. fold baseRadius in Hlo, Hhi.
  destruct (leQ_spec (dist o) radius) as [Hin|Hout].
  - run_noise. eexists. split; [reflexivity|]. split; [intros _; by eexists|].
    intros _. lra.
  - eexists. split; [reflexivity|]. split; [intros Hd; lra|]. intros [? [=]].
Qed.

Lemma star_glow_total brightColor glowColor o radius time :
  exists c, star_glow brightColor glowColor nf o radius time = Some c.
Proof using Hwf.
  unfold star_glow.
  destruct (ltQ radius (dist o) && ltQ (dist o) (radius * 2.5)); [|by eexists].
  cbv zeta. run_noise. by eexists.
Qed.

Lemma Qmin_cap a b : Math.min a b <= a.
Proof. apply Q.le_min_l. Qed.

(** A channel of the surface: a mix of two bytes, raised by the core boost
    and capped. *)
Lemma star_channel_range (base bright : Z) mixFactor coreBoost :
  (0 <= base < 256)%Z -> (0 <= bright < 256)%Z ->
  0 <= mixFactor <= 1 -> 0 <= coreBoost ->
  0 <= Math.min 255 ((inject_Z base * (1 - mixFactor) + inject_Z bright * mixFactor
                      + inject_Z bright * coreBoost) * 1.3) <= 255.
Proof.
  intros [Hb _] [Hr _] [Hm0 Hm1] Hc. split; [|apply Qmin_cap].
  assert (Hb' : 0 <= inject_Z base) by (change 0 with (inject_Z 0); by rewrite <- Zle_Qle).
  assert (Hr' : 0 <= inject_Z bright) by (change 0 with (inject_Z 0); by rewrite <- Zle_Qle).
  assert (0 <= inject_Z base * (1 - mixFactor)) by (apply Qmult_le_0_compat; lra).
  assert (0 <= inject_Z bright * mixFactor) by (apply Qmult_le_0_compat; lra).
  assert (0 <= inject_Z bright * coreBoost) by (apply Qmult_le_0_compat; lra).
  unfold Math.min. apply Q.min_glb; lra.
Qed.

Lemma star_surface_total baseColor brightColor o radius time :
  exists r g b,
    star_surface baseColor brightColor nf o radius time
    = Some {| Color.R := r; Color.G := g; Color.B := b; Color.A := 255 |}.
Proof using Hwf.
  unfold star_surface. cbv zeta. run_noise. by repeat eexists.
Qed.

Lemma star_surface_range baseColor brightColor o radius time :
  (forall x, 0 <= x -> 0 <= Math_sqrt x) ->
  (forall x y, 0 <= x -> 0 <= Math_pow x y) ->
  byte_color baseColor -> byte_color brightColor ->
  exists c,
    star_surface baseColor brightColor nf o radius time = Some c /\
    Color.A c = 255 /\
    0 <= Color.R c <= 255 /\ 0 <= Color.G c <= 255 /\ 0 <= Color.B c <= 255.
Proof using Hwf.
  intros Hsqrt Hpow (Hbr & Hbg & Hbb) (Hrr & Hrg & Hrb).
  unfold star_surface. cbv zeta. run_noise.
  eexists. split; [reflexivity|]. cbn [Color.A Color.R Color.G Color.B].
  split; [reflexivity|].
  match goal with
  | |- context [Math.min 1 ?br] => set (brightness := br)
  end.
  match goal with
  | |- context [Math_pow ?a 2 * 0.6] => set (coreBoost := Math_pow a 2 * 0.6)
  end.
  assert (Hcore : 0 <= coreBoost).
  { unfold coreBoost.
    apply Qmult_le_0_compat; [apply Hpow; apply Q.le_max_l|lra]. }
  assert (Hbright : 0 <= brightness).
  { unfold brightness. apply Qmult_le_0_compat.
    - match goal with
      | |- 0 <= (if ltQ 0.8 ?c then Math.min 1.5 ?hi else ?lo) =>
          assert (Hlo : 0 <= lo);
          [ destruct (ltQ _ 0.25); lra
          | destruct (ltQ_spec 0.8 c);
            [unfold Math.min; apply Q.min_glb; lra | exact Hlo] ]
      end.
    - apply Qmult_le_0_compat.
      + assert (0 <= Math.max 0 (dx o / radius * 0.3 + dy o / radius * - 0.5
                                 + Math_sqrt (Math.max 0 (1 - dist o / radius * (dist o / radius)))
                                   * 0.8))
          by apply Q.le_max_l.
        lra.
      + match goal with
        | |- 0 <= 0.6 + 0.4 * Math_pow (Math_sqrt ?a) ?e =>
            pose proof (Hpow (Math_sqrt a) e (Hsqrt a (Q.le_max_l _ _)))
        end.
        lra. }
  assert (Hmix : 0 <= Math.min 1 brightness <= 1).
  { split; [unfold Math.min; apply Q.min_glb; lra | apply Qmin_cap]. }
  split; [|split]; by apply star_channel_range.
Qed.

Lemma star_block_total colors size frames frame px py :
  let o := block_offset size CONFIG.starPixelSize px py in
  exists c, star_block colors nf size frames frame px py = Some c /\
            (dist o <= star_radius size -> Color.A c = 255).
Proof using Hwf.
  intros o. unfold star_block. cbv zeta. fold o.
  match goal with
  | |- context [star_glow ?br ?gl nf o ?r ?t] =>
      destruct (star_glow_total br gl o r t) as [glow ->]
  end.
  cbn [mbind option_bind].
  destruct (leQ_spec (dist o) (star_radius size)) as [Hin|Hout].
  - match goal with
    | |- context [star_surface ?ba ?br nf o ?r ?t] =>
        destruct (star_surface_total ba br o r t) as (r' & g' & b' & ->)
    end.
    eexists. split; [reflexivity|]. intros _. reflexivity.
  - eexists. split; [reflexivity|]. intros Hin. contradiction.
Qed.

End Blocks.

Lemma starSizes_even stellarClass size :
  CONFIG.starSizes !! stellarClass = Some size -> exists k, (0 < k)%Z /\ size = (2 * k)%Z.
Proof.
  intros Hsize. apply elem_of_list_to_map_2 in Hsize.
  repeat (apply elem_of_cons in Hsize as [[= _ ->]|Hsize];
          [match goal with
           | |- exists k, _ /\ ?s = _ => exists (s / 2)%Z; split; reflexivity
           end|]).
  by apply elem_of_nil in Hsize.
Qed.

Lemma stellarClasses_sized stellarClass :
  stellarClass ∈ CONFIG.stellarClasses ->
  is_Some (CONFIG.starSizes !! stellarClass) /\ is_Some (STAR_COLORS !! stellarClass).
Proof.
  intros Hin. unfold CONFIG.stellarClasses in Hin.
  repeat (apply elem_of_cons in Hin as [->|Hin];
          [split; eexists; vm_compute; reflexivity|]).
  by apply elem_of_nil in Hin.
Qed.

Lemma as_rgba_drawn c : 0 < Color.A (as_rgba c) -> is_Some c /\ Color.A (as_rgba c) = 255.
Proof.
  destruct c as [c|]; cbn [as_rgba Color.A]; intros Hpos.
  - split; [by eexists|reflexivity].
  - destruct (Qlt_irrefl 0 Hpos).
Qed.

(** The loops of the moons and of the asteroids, whose blocks are filled
    with an opaque style or skipped. *)
Lemma opaque_atlas (block : Z -> Z -> Z -> option (option Color.rgb))
      (size pixelSize frames : Z) :
  (forall frame px py, is_Some (block frame px py)) ->
  exists cv,
    paint_frames (fun frame px py => c ← block frame px py; Some (as_rgba c))
                 size pixelSize (pixel_count size pixelSize) (pixel_count size pixelSize)
                 frames (createCanvas (size * frames) size) = Some cv /\
    width cv = (size * frames)%Z /\ height cv = size /\
    two_level cv /\
    (forall frame px py c X Y,
        all_blocks (pixel_count size pixelSize) (pixel_count size pixelSize) frames
                   frame px py ->
        block frame px py = Some (Some c) ->
        in_block size pixelSize frame px py X Y ->
        (0 <= X < size * frames)%Z -> (0 <= Y < size)%Z ->
        alpha cv X Y == 1) /\
    (forall X Y,
        ~ alpha cv X Y == 0 ->
        exists frame px py c,
          all_blocks (pixel_count size pixelSize) (pixel_count size pixelSize) frames
                     frame px py /\
          block frame px py = Some (Some c) /\
          in_block size pixelSize frame px py X Y).
Proof.
  intros Htotal.
  set (blk := fun frame px py => c ← block frame px py; Some (as_rgba c)).
  assert (Hblk : forall frame px py, is_Some (blk frame px py)).
  { intros frame px py. unfold blk. destruct (Htotal frame px py) as [c ->]. by eexists. }
  destruct (paint_frames_painted blk size pixelSize (size * frames) size Hblk
              (pixel_count size pixelSize) (pixel_count size pixelSize) frames)
    as (cv & Hcv & Hw & Hh & Hopaque & Hclear).
  exists cv. split; [exact Hcv|]. split; [exact Hw|]. split; [exact Hh|].
  split; [|split].
  - apply (paint_frames_two_level blk size pixelSize (pixel_count size pixelSize)
             (pixel_count size pixelSize) frames (createCanvas (size * frames) size) cv);
      [|apply two_level_start|exact Hcv].
    intros frame px py c Hc Hpos. unfold blk in Hc.
    destruct (block frame px py) as [c'|]; [|discriminate Hc].
    cbn [mbind option_bind] in Hc. injection Hc as <-.
    destruct (as_rgba_drawn c' Hpos) as [_ ->]. reflexivity.
  - intros frame px py c X Y HD Hc Hin HX HY.
    apply (Hopaque frame px py (as_rgba (Some c)) X Y HD); [|reflexivity|exact Hin|exact HX|exact HY].
    unfold blk. rewrite Hc. reflexivity.
  - intros X Y Hne.
    destruct (Hclear X Y Hne) as (frame & px & py & c & HD & Hc & Hpos & Hin).
    unfold blk in Hc. destruct (block frame px py) as [c'|] eqn:E; [|discriminate Hc].
    cbn [mbind option_bind] in Hc. injection Hc as <-.
    destruct (as_rgba_drawn c' Hpos) as [[c'' ->] _].
    exists frame, px, py, c''. split; [exact HD|]. split; [exact E|exact Hin].
Qed.

End Sprite_facts.

(** X12. For every stellar class of the configuration, [generateStar]
    returns an atlas [size * frames] wide and [size] high, [size] being the
    size of the class, whatever the seed drawn; in it every pixel of a block
    whose distance from the centre is at most [radius] is fully opaque. *)
Theorem star_atlas `{Libm} (stellarClass : string) (rnd : Q) :
  stellarClass ∈ CONFIG.stellarClasses ->
  exists size cv,
    CONFIG.starSizes !! stellarClass = Some size /\
    generateStar stellarClass rnd = Some cv /\
    width cv = (size * CONFIG.starFrames)%Z /\ height cv = size /\
    forall frame px py X Y,
      (0 <= frame < CONFIG.starFrames)%Z ->
      (0 <= px < pixel_count size CONFIG.starPixelSize)%Z ->
      (0 <= py < pixel_count size CONFIG.starPixelSize)%Z ->
      in_block size CONFIG.starPixelSize frame px py X Y ->
      (dist (block_offset size CONFIG.starPixelSize px py) <= star_radius size)%Q ->
      (alpha cv X Y == 1)%Q.
Proof.
  intros Hclass.
  destruct (stellarClasses_sized stellarClass Hclass) as [[size Hsize] _].
  exists size. destruct (starSizes_even stellarClass size Hsize) as (k & Hk & ->).
  unfold generateStar. rewrite Hsize. cbn [mbind option_bind].
  rewrite (star_colors_for_total stellarClass (stellarClasses_own stellarClass Hclass)).
  cbn [mbind option_bind].
  set (colors := Own _).
  set (nf := Noise3D_new _).
  assert (Hwf : wf_perm (perm nf)) by apply wf_perm_new.
  rewrite star_frames_paint.
  set (blk := fun frame px py =>
                star_block colors nf (2 * k) CONFIG.starFrames frame px py).
  assert (Htotal : forall frame px py, is_Some (blk frame px py)).
  { intros frame px py.
    destruct (star_block_total nf Hwf colors (2 * k) CONFIG.starFrames frame px py)
      as (c & Hc & _).
    by exists c. }
  destruct (paint_frames_painted blk (2 * k) CONFIG.starPixelSize
              (2 * k * CONFIG.starFrames) (2 * k) Htotal
              (pixel_count (2 * k) CONFIG.starPixelSize)
              (pixel_count (2 * k) CONFIG.starPixelSize) CONFIG.starFrames)
    as (cv & Hcv & Hw & Hh & Hopaque & _).
  exists cv. split; [reflexivity|]. split; [exact Hcv|]. split; [exact Hw|].
  split; [exact Hh|].
  change CONFIG.starPixelSize with 2%Z in *. rewrite pixel_count_even in *.
  intros frame px py X Y Hframe Hpx Hpy Hin Hdist.
  destruct (star_block_total nf Hwf colors (2 * k) CONFIG.starFrames frame px py)
    as (c & Hc & Hinside).
  change CONFIG.starPixelSize with 2%Z in *.
  destruct (in_block_on_canvas k CONFIG.starFrames frame px py X Y Hk Hframe Hpx Hpy Hin)
    as [HX HY].
  apply (Hopaque frame px py c X Y);
    [split; [exact Hframe|split; [exact Hpx|exact Hpy]] | exact Hc | | exact Hin
     | exact HX | exact HY].
  rewrite (Hinside Hdist). reflexivity.
Qed.

Lemma star_atlas_witness :
  exists size cv,
    CONFIG.starSizes !! "Pulsar" = Some size /\
    @generateStar libm_zero "Pulsar" (1 # 3) = Some cv /\
    width cv = (size * CONFIG.starFrames)%Z /\ height cv = size /\
    forall frame px py X Y,
      (0 <= frame < CONFIG.starFrames)%Z ->
      (0 <= px < pixel_count size CONFIG.starPixelSize)%Z ->
      (0 <= py < pixel_count size CONFIG.starPixelSize)%Z ->
      in_block size CONFIG.starPixelSize frame px py X Y ->
      (dist (@block_offset libm_zero size CONFIG.starPixelSize px py) <= star_radius size)%Q ->
      (alpha cv X Y == 1)%Q.
Proof.
  apply (@star_atlas libm_zero "Pulsar" (1 # 3)).
  unfold CONFIG.stellarClasses. rewrite !elem_of_cons. tauto.
Defined.

(** X13. On the disc of a star, whatever the colours found for the class
    and the seed, a block of a frame is styled with [a = 255] and with three
    channels between 0 and 255: the mix of the base and the bright colour is
    never below 0, and the cap keeps it at 255. This needs [Math.sqrt] and
    [Math.pow] to return no negative number where their first argument is
    not negative, as they do. *)
Theorem star_surface_channels `{Libm} (colors : property star_colors)
        (s size frames frame px py : Z) :
  (forall x, 0 <= x -> 0 <= Math_sqrt x)%Q ->
  (forall x y, 0 <= x -> 0 <= Math_pow x y)%Q ->
  (0 < size)%Z -> (0 <= frame < frames)%Z ->
  (dist (block_offset size CONFIG.starPixelSize px py) <= star_radius size)%Q ->
  exists c,
    star_block colors (Noise3D_new s) size frames frame px py = Some c /\
    Color.A c = 255%Q /\
    (0 <= Color.R c <= 255)%Q /\ (0 <= Color.G c <= 255)%Q /\ (0 <= Color.B c <= 255)%Q.
Proof.
  intros Hsqrt Hpow _ _ Hdist. unfold star_block. cbv zeta.
  match goal with
  | |- context [star_glow ?br ?gl ?nf ?o ?r ?t] =>
      destruct (star_glow_total nf (wf_perm_new s) br gl o r t) as [glow ->]
  end.
  cbn [mbind option_bind].
  destruct (leQ_spec (dist (block_offset size CONFIG.starPixelSize px py))
                     (star_radius size)) as [_|Hout]; [|contradiction].
  apply star_surface_range; [apply wf_perm_new|exact Hsqrt|exact Hpow| |];
    apply hexToRgb_byte.
Qed.

Lemma star_surface_channels_witness :
  exists c,
    @star_block libm_zero
                (Own {| base := "#fff4ea"; bright := "#ffffaa"; glow := "#ffeecc" |})
                (Noise3D_new 12345) 1200 8 3 10 20 = Some c /\
    Color.A c = 255%Q /\
    (0 <= Color.R c <= 255)%Q /\ (0 <= Color.G c <= 255)%Q /\ (0 <= Color.B c <= 255)%Q.
Proof.
  apply (@star_surface_channels libm_zero).
  - intros x _. cbn. lra.
  - intros x y _. cbn. lra.
  - lia.
  - lia.
  - vm_compute. discriminate.
Defined.

(** X14. [generateMoon], for a size draw in [0, 1), returns an atlas
    [size * frames] wide and [size] high with [size] from 250 to 399. Every
    pixel of it is fully transparent or fully opaque; the pixels, on the
    canvas, of a block whose distance from the centre is at most [radius]
    are opaque, and every opaque pixel lies in the square of such a block. *)
Theorem moon_atlas `{Libm} (index : Z) (rnd_size rnd_seed rnd_icy : Q) :
  (0 <= rnd_size < 1)%Q ->
  let size := moon_size rnd_size in
  let inside := fun px py =>
    (dist (block_offset size CONFIG.moonPixelSize px py) <= moon_radius size)%Q in
  (250 <= size < 400)%Z /\
  exists cv,
    generateMoon index rnd_size rnd_seed rnd_icy = Some cv /\
    width cv = (size * CONFIG.moonFrames)%Z /\ height cv = size /\
    (forall X Y, (alpha cv X Y == 0)%Q \/ (alpha cv X Y == 1)%Q) /\
    (forall frame px py X Y,
        (0 <= frame < CONFIG.moonFrames)%Z ->
        (0 <= px < pixel_count size CONFIG.moonPixelSize)%Z ->
        (0 <= py < pixel_count size CONFIG.moonPixelSize)%Z ->
        in_block size CONFIG.moonPixelSize frame px py X Y ->
        (0 <= X < size * CONFIG.moonFrames)%Z -> (0 <= Y < size)%Z ->
        inside px py -> (alpha cv X Y == 1)%Q) /\
    (forall X Y,
        ~ (alpha cv X Y == 0)%Q ->
        exists frame px py,
          (0 <= frame < CONFIG.moonFrames)%Z /\
          (0 <= px < pixel_count size CONFIG.moonPixelSize)%Z /\
          (0 <= py < pixel_count size CONFIG.moonPixelSize)%Z /\
          in_block size CONFIG.moonPixelSize frame px py X Y /\ inside px py).
Proof.
  intros Hrnd size inside. split; [by apply moon_size_range|].
  unfold generateMoon. cbv zeta. fold size. rewrite moon_frames_paint.
  set (nf := Noise3D_new _). set (baseColors := moon_baseColors rnd_icy).
  assert (Hwf : wf_perm (perm nf)) by apply wf_perm_new.
  assert (Hblock : forall frame px py,
             exists c, moon_block baseColors nf size CONFIG.moonFrames frame px py = Some c /\
                       (is_Some c <-> inside px py)).
  { intros frame px py.
    exact (moon_block_total nf Hwf baseColors size CONFIG.moonFrames frame px py). }
  destruct (opaque_atlas (moon_block baseColors nf size CONFIG.moonFrames)
              size CONFIG.moonPixelSize CONFIG.moonFrames)
    as (cv & Hcv & Hw & Hh & Htwo & Hopaque & Hclear).
  { intros frame px py. destruct (Hblock frame px py) as (c & -> & _). by eexists. }
  exists cv. split; [exact Hcv|]. split; [exact Hw|]. split; [exact Hh|].
  split; [exact Htwo|]. split.
  - intros frame px py X Y Hframe Hpx Hpy Hin HX HY Hinside.
    destruct (Hblock frame px py) as (c & Hc & Hiff).
    destruct (proj2 Hiff Hinside) as [c' ->].
    apply (Hopaque frame px py c' X Y);
      [split; [exact Hframe|split; [exact Hpx|exact Hpy]] | exact Hc | exact Hin
       | exact HX | exact HY].
  - intros X Y Hne.
    destruct (Hclear X Y Hne) as (frame & px & py & c & (Hframe & Hpx & Hpy) & Hc & Hin).
    exists frame, px, py. split; [exact Hframe|]. split; [exact Hpx|]. split; [exact Hpy|].
    split; [exact Hin|].
    destruct (Hblock frame px py) as (c' & Hc' & Hiff).
    apply Hiff. rewrite Hc in Hc'. injection Hc' as <-. by eexists.
Qed.

Lemma moon_atlas_witness :
  let size := moon_size (1 # 2) in
  let inside := fun px py =>
    (dist (@block_offset libm_zero size CONFIG.moonPixelSize px py) <= moon_radius size)%Q in
  (250 <= size < 400)%Z /\
  exists cv,
    @generateMoon libm_zero 3 (1 # 2) (1 # 4) (3 # 4) = Some cv /\
    width cv = (size * CONFIG.moonFrames)%Z /\ height cv = size /\
    (forall X Y, (alpha cv X Y == 0)%Q \/ (alpha cv X Y == 1)%Q) /\
    (forall frame px py X Y,
        (0 <= frame < CONFIG.moonFrames)%Z ->
        (0 <= px < pixel_count size CONFIG.moonPixelSize)%Z ->
        (0 <= py < pixel_count size CONFIG.moonPixelSize)%Z ->
        in_block size CONFIG.moonPixelSize frame px py X Y ->
        (0 <= X < size * CONFIG.moonFrames)%Z -> (0 <= Y < size)%Z ->
        inside px py -> (alpha cv X Y == 1)%Q) /\
    (forall X Y,
        ~ (alpha cv X Y == 0)%Q ->
        exists frame px py,
          (0 <= frame < CONFIG.moonFrames)%Z /\
          (0 <= px < pixel_count size CONFIG.moonPixelSize)%Z /\
          (0 <= py < pixel_count size CONFIG.moonPixelSize)%Z /\
          in_block size CONFIG.moonPixelSize frame px py X Y /\ inside px py).
Proof.
  apply (@moon_atlas libm_zero 3 (1 # 2) (1 # 4) (3 # 4)). lra.
Defined.

(** X15. [generateAsteroid], for draws in [0, 1), returns an atlas
    [baseSize * frames] wide and [baseSize] high. Every pixel of it is fully
    transparent or fully opaque; the pixels, on the canvas, of a block within
    [baseRadius * (1 - irregularity)] of the centre are opaque, and every
    opaque pixel lies in the square of a block within
    [baseRadius * (1 + irregularity)] of it, [baseRadius] being
    [baseSize * 0.4]. *)
Theorem asteroid_atlas `{Libm} (index : Z) (rnd_size rnd_seed rnd_shape : Q) :
  (0 <= rnd_size < 1)%Q -> (0 <= rnd_shape < 1)%Q ->
  let baseSize := asteroid_baseSize rnd_size in
  let irregularity := asteroid_irregularity rnd_shape in
  let baseRadius := (inject_Z baseSize * 0.4)%Q in
  let o := block_offset baseSize CONFIG.asteroidPixelSize in
  exists cv,
    generateAsteroid index rnd_size rnd_seed rnd_shape = Some cv /\
    width cv = (baseSize * CONFIG.asteroidFrames)%Z /\ height cv = baseSize /\
    (forall X Y, (alpha cv X Y == 0)%Q \/ (alpha cv X Y == 1)%Q) /\
    (forall frame px py X Y,
        (0 <= frame < CONFIG.asteroidFrames)%Z ->
        (0 <= px < pixel_count baseSize CONFIG.asteroidPixelSize)%Z ->
        (0 <= py < pixel_count baseSize CONFIG.asteroidPixelSize)%Z ->
        in_block baseSize CONFIG.asteroidPixelSize frame px py X Y ->
        (0 <= X < baseSize * CONFIG.asteroidFrames)%Z -> (0 <= Y < baseSize)%Z ->
        (dist (o px py) <= baseRadius * (1 - irregularity))%Q ->
        (alpha cv X Y == 1)%Q) /\
    (forall X Y,
        ~ (alpha cv X Y == 0)%Q ->
        exists frame px py,
          (0 <= frame < CONFIG.asteroidFrames)%Z /\
          (0 <= px < pixel_count baseSize CONFIG.asteroidPixelSize)%Z /\
          (0 <= py < pixel_count baseSize CONFIG.asteroidPixelSize)%Z /\
          in_block baseSize CONFIG.asteroidPixelSize frame px py X Y /\
          (dist (o px py) <= baseRadius * (1 + irregularity))%Q).
Proof.
  intros Hsize Hshape baseSize irregularity baseRadius o.
  pose proof (baseSize_range rnd_size Hsize) as Hbase. fold baseSize in Hbase.
  pose proof (irregularity_range rnd_shape Hshape) as Hirr. fold irregularity in Hirr.
  unfold generateAsteroid. cbv zeta. fold baseSize. fold irregularity.
  rewrite asteroid_frames_paint.
  set (nf := Noise3D_new _).
  assert (Hwf : wf_perm (perm nf)) by apply wf_perm_new.
  assert (Hblock : forall frame px py,
             exists c, asteroid_block nf irregularity baseSize CONFIG.asteroidFrames
                                      frame px py = Some c /\
                       ((dist (o px py) <= baseRadius * (1 - irregularity))%Q -> is_Some c) /\
                       (is_Some c -> (dist (o px py) <= baseRadius * (1 + irregularity))%Q)).
  { intros frame px py.
    apply (asteroid_block_total nf Hwf irregularity baseSize CONFIG.asteroidFrames
             frame px py); [lia|lra]. }
  destruct (opaque_atlas (asteroid_block nf irregularity baseSize CONFIG.asteroidFrames)
              baseSize CONFIG.asteroidPixelSize CONFIG.asteroidFrames)
    as (cv & Hcv & Hw & Hh & Htwo & Hopaque & Hclear).
  { intros frame px py. destruct (Hblock frame px py) as (c & -> & _). by eexists. }
  exists cv. split; [exact Hcv|]. split; [exact Hw|]. split; [exact Hh|].
  split; [exact Htwo|]. split.
  - intros frame px py X Y Hframe Hpx Hpy Hin HX HY Hinside.
    destruct (Hblock frame px py) as (c & Hc & Hinner & _).
    destruct (Hinner Hinside) as [c' ->].
    apply (Hopaque frame px py c' X Y);
      [split; [exact Hframe|split; [exact Hpx|exact Hpy]] | exact Hc | exact Hin
       | exact HX | exact HY].
  - intros X Y Hne.
    destruct (Hclear X Y Hne) as (frame & px & py & c & (Hframe & Hpx & Hpy) & Hc & Hin).
    exists frame, px, py. split; [exact Hframe|]. split; [exact Hpx|]. split; [exact Hpy|].
    split; [exact Hin|].
    destruct (Hblock frame px py) as (c' & Hc' & _ & Houter).
    apply Houter. rewrite Hc in Hc'. injection Hc' as <-. by eexists.
Qed.

Lemma asteroid_atlas_witness :
  let baseSize := asteroid_baseSize (1 # 2) in
  let irregularity := asteroid_irregularity (1 # 3) in
  let baseRadius := (inject_Z baseSize * 0.4)%Q in
  let o := @block_offset libm_zero baseSize CONFIG.asteroidPixelSize in
  exists cv,
    @generateAsteroid libm_zero 5 (1 # 2) (1 # 4) (1 # 3) = Some cv /\
    width cv = (baseSize * CONFIG.asteroidFrames)%Z /\ height cv = baseSize /\
    (forall X Y, (alpha cv X Y == 0)%Q \/ (alpha cv X Y == 1)%Q) /\
    (forall frame px py X Y,
        (0 <= frame < CONFIG.asteroidFrames)%Z ->
        (0 <= px < pixel_count baseSize CONFIG.asteroidPixelSize)%Z ->
        (0 <= py < pixel_count baseSize CONFIG.asteroidPixelSize)%Z ->
        in_block baseSize CONFIG.asteroidPixelSize frame px py X Y ->
        (0 <= X < baseSize * CONFIG.asteroidFrames)%Z -> (0 <= Y < baseSize)%Z ->
        (dist (o px py) <= baseRadius * (1 - irregularity))%Q ->
        (alpha cv X Y == 1)%Q) /\
    (forall X Y,
        ~ (alpha cv X Y == 0)%Q ->
        exists frame px py,
          (0 <= frame < CONFIG.asteroidFrames)%Z /\
          (0 <= px < pixel_count baseSize CONFIG.asteroidPixelSize)%Z /\
          (0 <= py < pixel_count baseSize CONFIG.asteroidPixelSize)%Z /\
          in_block baseSize CONFIG.asteroidPixelSize frame px py X Y /\
          (dist (o px py) <= baseRadius * (1 + irregularity))%Q).
Proof.
  apply (@asteroid_atlas libm_zero 5 (1 # 2) (1 # 4) (1 # 3)); lra.
Defined.
(** ** The types copied from terran *)

Section Copied_facts.

Context `{Libm}.

Local Open Scope Q_scope.

Ltac unlike := let Heq := fresh in intros Heq; discriminate Heq.

Ltac read_literal :=
  unfold list_to_map; cbn [foldr fst snd];
  repeat first [rewrite lookup_insert_eq | rewrite lookup_insert_ne by unlike];
  try reflexivity.

(** A type of the list that has no palette comes out of the loop with the
    terran one. *)
Lemma copy_terran_fold_copied type pal types : forall tbl,
  tbl !! "terran" = Some pal -> "terran" ∉ types ->
  (type ∈ types /\ tbl !! type = None) \/ tbl !! type = Some pal ->
  foldl copy_terran tbl types !! type = Some pal.
Proof.
  induction types as [|t ts IH]; intros tbl Hter Hnot Hcase.
  - destruct Hcase as [[Hin _]|Hpal]; [by apply elem_of_nil in Hin|exact Hpal].
  - apply not_elem_of_cons in Hnot as [Hne Hnot]. cbn [foldl].
    apply IH; [by rewrite copy_terran_other|exact Hnot|].
    destruct Hcase as [[Hin Hnone]|Hpal].
    + apply elem_of_cons in Hin as [->|Hin].
      * right. unfold copy_terran. rewrite Hnone, Hter. cbn [default].
        apply lookup_insert_eq.
      * destruct (decide (type = t)) as [->|Hdiff].
        -- right. unfold copy_terran. rewrite Hnone, Hter. cbn [default].
           apply lookup_insert_eq.
        -- left. split; [exact Hin|]. by rewrite copy_terran_other.
    + right. destruct (decide (type = t)) as [->|Hdiff].
      * unfold copy_terran. by rewrite Hpal.
      * by rewrite copy_terran_other.
Qed.

Lemma moreTypes_not_literal type :
  type ∈ moreTypes -> PLANET_COLORS_literal !! type = None.
Proof.
  intros Hin. unfold moreTypes in Hin.
  repeat (apply elem_of_cons in Hin as [->|Hin];
          [unfold PLANET_COLORS_literal; read_literal|]).
  by apply elem_of_nil in Hin.
Qed.

Lemma moreTypes_terran type : type ∈ moreTypes -> PLANET_COLORS !! type = Some terran_palette.
Proof.
  intros Hin.
  assert (Hunfold : PLANET_COLORS = foldl copy_terran PLANET_COLORS_literal moreTypes)
    by reflexivity.
  rewrite Hunfold. apply copy_terran_fold_copied.
  - unfold PLANET_COLORS_literal. read_literal.
  - unfold moreTypes. rewrite !not_elem_of_cons.
    repeat split; first [unlike | apply not_elem_of_nil].
  - left. split; [exact Hin|by apply moreTypes_not_literal].
Qed.

Lemma moreTypes_default type :
  type ∈ moreTypes ->
  type ∉ ["terran"; "desert"; "ice"; "lava"; "ocean"; "jungle"; "gas_giant"].
Proof.
  intros Hin. unfold moreTypes in Hin.
  repeat (apply elem_of_cons in Hin as [->|Hin];
          [rewrite !not_elem_of_cons; repeat split; first [unlike | apply not_elem_of_nil]|]).
  by apply elem_of_nil in Hin.
Qed.

Lemma terran_no_surface : terran_palette !! "surface" = None.
Proof. unfold terran_palette. read_literal. Qed.

Lemma terran_grass :
  terran_palette !! "grass" = Some ["#2d5016"; "#3d7026"; "#5d9046"; "#7daa66"; "#9dcc88"].
Proof. unfold terran_palette. read_literal. Qed.

End Copied_facts.

(** X16. The ten types the module copies from terran get the terran
    palette, which has no [surface] entry, and none of them has a case of its
    own: for an elevation from 0 to 5/4 the colour of their surface is one
    of the five shades of terran grass, whatever the moisture, the
    temperature and the position. *)
Theorem copied_types_are_grass `{Libm} (type : string) (nf : Noise3D)
        (elevation moisture temperature texU texV latitude : Q) :
  type ∈ moreTypes -> (0 <= elevation <= 5 # 4)%Q ->
  planet_colors_for type = Some (Own terran_palette) /\
  exists shade,
    shade ∈ ["#2d5016"; "#3d7026"; "#5d9046"; "#7daa66"; "#9dcc88"] /\
    getPlanetSurfaceColor type elevation moisture temperature terran_palette
                          (bool_decide (type = "gas_giant")) texU texV latitude nf
    = Some (hexToRgb (Some shade)).
Proof.
  intros Hin [He _]. split.
  - unfold planet_colors_for, property_get. by rewrite moreTypes_terran.
  - pose proof (moreTypes_default type Hin) as Hnot.
    rewrite !not_elem_of_cons in Hnot.
    destruct Hnot as (? & ? & ? & ? & ? & ? & ? & _).
    destruct (array_get_wrap ["#2d5016"; "#3d7026"; "#5d9046"; "#7daa66"; "#9dcc88"]
                elevation He) as (shade & Hget & Hshade); [discriminate|].
    exists shade. split; [exact Hshade|].
    unfold getPlanetSurfaceColor.
    case_bool_decide as Hgas; [contradiction|].
    repeat (destruct (decide (type = _)) as [|_]; [contradiction|]).
    unfold rocky_color. rewrite terran_no_surface, terran_grass. cbv zeta.
    by rewrite Hget.
Qed.

Lemma copied_types_are_grass_witness :
  planet_colors_for "super_earth" = Some (Own terran_palette) /\
  exists shade,
    shade ∈ ["#2d5016"; "#3d7026"; "#5d9046"; "#7daa66"; "#9dcc88"] /\
    @getPlanetSurfaceColor libm_zero "super_earth" (9 # 10) (1 # 2) (1 # 2) terran_palette
                           (bool_decide ("super_earth" = "gas_giant")) 0 0 0 (Noise3D_new 7)
    = Some (hexToRgb (Some shade)).
Proof.
  apply (@copied_types_are_grass libm_zero "super_earth").
  - unfold moreTypes. rewrite !elem_of_cons. tauto.
  - split; vm_compute; discriminate.
Defined.
